(** * Verification of the penrose-diy pentagrid tiling engine

    Shallow embedding of the JavaScript sources (utils.js, sketch.js and the
    unnamed parts of the repository) that build a de Bruijn pentagrid, turn
    every line crossing into a rhombus, link the rhombi into an adjacency
    graph and align them by a breadth-first propagation.

    Numbers: the JS code computes with doubles.  The model computes exactly,
    in [Q] where the code only uses + - * / and comparisons ([intersect]),
    and in the real numbers [R] where it uses [Math.sqrt], [cos], [sin] and
    [Math.acos]. *)

From Stdlib Require Import QArith List Bool Arith Lia ZArith.
From Stdlib Require Import Reals Lra Ratan.
From Stdlib Require Import Permutation.
Import ListNotations.

(* ------------------------------------------------------------------ *)
(** ** Segment intersection ([intersect], utils.js lines 4-39) *)

Module Segments.

Local Open Scope Q_scope.

(** A grid line as [intersect] reads it: the two endpoints of its
    bounds-clipped segment. *)
Record segment := mkSegment { x1 : Q; y1 : Q; x2 : Q; y2 : Q }.

(** [a < b] on numbers. *)
Definition Qltb (a b : Q) : bool := negb (Qle_bool b a).

(** [intersect(line1, line2)]: [None] is the JS [false], [Some (x, y)] the
    returned object [{x, y, line1, line2}] (the two lines are the inputs). *)
Definition intersect (line1 line2 : segment) : option (Q * Q) :=
  let x1 := x1 line1 in let y1 := y1 line1 in
  let x2 := x2 line1 in let y2 := y2 line1 in
  let x3 := Segments.x1 line2 in let y3 := Segments.y1 line2 in
  let x4 := Segments.x2 line2 in let y4 := Segments.y2 line2 in
  if (Qeq_bool x1 x2 && Qeq_bool y1 y2) || (Qeq_bool x3 x4 && Qeq_bool y3 y4)
  then None
  else
    let denominator := (y4 - y3) * (x2 - x1) - (x4 - x3) * (y2 - y1) in
    if Qeq_bool denominator 0 then None
    else
      let ua := ((x4 - x3) * (y1 - y3) - (y4 - y3) * (x1 - x3)) / denominator in
      let ub := ((x2 - x1) * (y1 - y3) - (y2 - y1) * (x1 - x3)) / denominator in
      if Qltb ua 0 || Qltb 1 ua || Qltb ub 0 || Qltb 1 ub then None
      else Some (x1 + ua * (x2 - x1), y1 + ua * (y2 - y1)).

(** The quantities the specification talks about, named. *)
Definition denom (l1 l2 : segment) : Q :=
  (y2 l2 - y1 l2) * (x2 l1 - x1 l1) - (x2 l2 - x1 l2) * (y2 l1 - y1 l1).

Definition param_a (l1 l2 : segment) : Q :=
  ((x2 l2 - x1 l2) * (y1 l1 - y1 l2) - (y2 l2 - y1 l2) * (x1 l1 - x1 l2))
    / denom l1 l2.

Definition param_b (l1 l2 : segment) : Q :=
  ((x2 l1 - x1 l1) * (y1 l1 - y1 l2) - (y2 l1 - y1 l1) * (x1 l1 - x1 l2))
    / denom l1 l2.

Definition zero_length (l : segment) : Prop := x1 l == x2 l /\ y1 l == y2 l.

End Segments.

(* ------------------------------------------------------------------ *)
(** ** Grid lines and rhombi ([findGridFamily], [getAngleBetweenLines],
    [findRhomb], utils.js lines 41-150) *)

Module Grid.

Local Open Scope R_scope.

(** p5.js constants and the sketch's configuration (unnamed part 0). *)
Definition TWO_PI : R := 2 * PI.
Definition GRID_SIZE : R := 1200.
Definition NUM_LINES : Z := 1.
Definition SPACING : R := 400.
Definition SCALE : R := 55.

(** [initializeGammas]: four fixed offsets and a fifth one making the sum 1. *)
Definition GAMMAS : list R :=
  let first4 := [17/100; 21/100; 28/100; 3/10] in
  first4 ++ [1 - fold_left Rplus first4 0].

(** A grid line object [{a, b, c, angle, family, n, x1, y1, x2, y2}]. *)
Record gline := mkLine {
  a : R; b : R; c : R; angle : R;
  family : Z; n : Z;
  lx1 : R; ly1 : R; lx2 : R; ly2 : R }.

(** The line of index [n] of family [k], as built in the loop body of
    [findGridFamily]. *)
Definition gridLine (k n : Z) : gline :=
  let ang := IZR k * TWO_PI / 5 in
  let cs := cos ang in
  let sn := sin ang in
  let d := IZR n * SPACING + nth (Z.to_nat k) GAMMAS 0 * SPACING in
  mkLine sn (- cs) d ang k n
    (- GRID_SIZE * sn + cs * d) (GRID_SIZE * cs + sn * d)
    (GRID_SIZE * sn + cs * d) (- GRID_SIZE * cs + sn * d).

(** [findGridFamily(k)]: lines [n = -NUM_LINES .. NUM_LINES]. *)
Definition findGridFamily (k : Z) : list gline :=
  map (fun i => gridLine k (Z.of_nat i - NUM_LINES)%Z)
      (seq 0 (Z.to_nat (2 * NUM_LINES + 1))).

(** An intersection object [{x, y, line1, line2}]. *)
Record inter := mkInter { ix : R; iy : R; line1 : gline; line2 : gline }.

(** Points and the p5.Vector operations used by [findRhomb]. *)
Definition pt := (R * R)%type.
Definition vadd (p q : pt) : pt := (fst p + fst q, snd p + snd q).
Definition vsub (p q : pt) : pt := (fst p - fst q, snd p - snd q).
Definition vmult (p : pt) (k : R) : pt := (fst p * k, snd p * k).

(** [getAngleBetweenLines] of utils.js: the acute angle, in degrees,
    between the segments [(x1,y1)-(x2,y2)] and [(x3,y3)-(x4,y4)]. *)
Definition getAngleBetweenLines (x1 y1 x2 y2 x3 y3 x4 y4 : R) : R :=
  let v1 := (x2 - x1, y2 - y1) in
  let v2 := (x4 - x3, y4 - y3) in
  let dotProduct := fst v1 * fst v2 + snd v1 * snd v2 in
  let mag1 := sqrt (fst v1 * fst v1 + snd v1 * snd v1) in
  let mag2 := sqrt (fst v2 * fst v2 + snd v2 * snd v2) in
  let angleRad := acos (dotProduct / (mag1 * mag2)) in
  let angleDeg := angleRad * 180 / PI in
  if Rlt_dec 90 angleDeg then 180 - angleDeg else angleDeg.

(** The angle offset chosen by the [if] chain of [findRhomb]; [None] is the
    [undefined] left in [angle2] when no branch applies. *)
Definition angleOffset (f1 f2 : Z) : option R :=
  if (f1 + 1 =? f2)%Z then Some (3 * PI / 5)
  else if (f1 + 2 =? f2)%Z then Some (1 * PI / 5)
  else if (f1 + 3 =? f2)%Z then Some (4 * PI / 5)
  else if (f1 + 4 =? f2)%Z then Some (2 * PI / 5)
  else None.

(** The four vertices [[start, dir1, dir3, dir2]] computed by [findRhomb];
    [None] when [angle2] is [undefined] (the JS then computes NaN
    coordinates). *)
Definition findRhomb (i : inter) : option (list pt) :=
  let angle1 := angle (line2 i) in
  match angleOffset (family (line1 i)) (family (line2 i)) with
  | None => None
  | Some off =>
    let angle2 := off + angle1 in
    let intrsction := (ix i, iy i) in
    let shift1 := vmult (cos angle1, sin angle1) (SCALE / 2) in
    let shift2 := vmult (cos angle2, sin angle2) (SCALE / 2) in
    let dir1 := vsub (vsub (vadd (vmult (cos angle1, sin angle1) SCALE)
                                 intrsction) shift1) shift2 in
    let dir2 := vsub (vsub (vadd (vmult (cos angle2, sin angle2) SCALE)
                                 intrsction) shift1) shift2 in
    let start := vsub (vsub (vadd (0, 0) intrsction) shift1) shift2 in
    let dir3 := vadd (vadd (vsub (vadd dir2 dir1) intrsction) shift1) shift2 in
    Some [start; dir1; dir3; dir2]
  end.

Definition Rltb (x y : R) : bool := if Rlt_dec x y then true else false.

(** The consistency check of [findRhomb]: edge (v0,v1) against [line2] and
    edge (v1,v2) against [line1], with tolerance 0.001 degrees.  The result
    only chooses which message is logged. *)
Definition isPerpendicular (i : inter) (pts : list pt) : bool :=
  let p0 := nth 0 pts (0, 0) in
  let p1 := nth 1 pts (0, 0) in
  let p2 := nth 2 pts (0, 0) in
  let l1 := line1 i in
  let l2 := line2 i in
  let a01 := getAngleBetweenLines (fst p0) (snd p0) (fst p1) (snd p1)
               (lx1 l2) (ly1 l2) (lx2 l2) (ly2 l2) in
  let a12 := getAngleBetweenLines (fst p1) (snd p1) (fst p2) (snd p2)
               (lx1 l1) (ly1 l1) (lx2 l1) (ly2 l1) in
  Rltb (Rabs (a01 - 90)) (1 / 1000) && Rltb (Rabs (a12 - 90)) (1 / 1000).

(** Euclidean length of a side. *)
Definition dist (p q : pt) : R :=
  sqrt ((fst q - fst p) * (fst q - fst p) + (snd q - snd p) * (snd q - snd p)).

(** The four consecutive sides of a vertex list. *)
Definition sides (pts : list pt) : list R :=
  map (fun k => dist (nth k pts (0, 0)) (nth ((k + 1) mod 4) pts (0, 0)))
      (seq 0 4).

(** Families of an [Intersection] as [findIntersections] produces them:
    [line1] from the lower family, [line2] from a higher one. *)
Definition families_ok (f1 f2 : Z) : Prop := (0 <= f1 < f2)%Z /\ (f2 <= 4)%Z.

(** Dot product, and the direction vector of a line's segment. *)
Definition dot (u v : pt) : R := fst u * fst v + snd u * snd v.
Definition seg_dir (l : gline) : pt := (lx2 l - lx1 l, ly2 l - ly1 l).

End Grid.

(* ------------------------------------------------------------------ *)
(** ** Adjacency graph ([buildRhombGraph], [findClosestNeighborsOnLine],
    unnamed part 4 lines 519-667) *)

Module Graph.
Import Grid.
Local Open Scope R_scope.

Definition EPSILON : R := 1 / 1000.

Inductive Direction := forward | backward.

Definition opposite (d : Direction) : Direction :=
  match d with forward => backward | backward => forward end.

(** An adjacency entry [{neighborIndex, sharedLine, direction}]. *)
Record adj := mkAdj {
  neighborIndex : nat; sharedLine : gline; direction : Direction }.

(** A candidate [{index, x, y}] of [buildRhombGraph]. *)
Record cand := mkCand { cindex : nat; cx : R; cy : R }.

(** The test [l.family === m.family && l.n === m.n]. *)
Definition sameLine (l m : gline) : bool :=
  Z.eqb (family l) (family m) && Z.eqb (n l) (n m).

(** Unit direction of a line's segment, as [lineDir]. *)
Definition lineDir (l : gline) : pt :=
  let lineDx := lx2 l - lx1 l in
  let lineDy := ly2 l - ly1 l in
  let lineLength := sqrt (lineDx * lineDx + lineDy * lineDy) in
  (lineDx / lineLength, lineDy / lineLength).

(** The classification loop of [findClosestNeighborsOnLine]: the
    [forward] and [backward] arrays of [{index, distance}], in candidate
    order. *)
Fixpoint classify (x y : R) (u : pt) (cs : list cand)
  : list (nat * R) * list (nat * R) :=
  match cs with
  | [] => ([], [])
  | c :: rest =>
    let '(fw, bw) := classify x y u rest in
    let dx := cx c - x in
    let dy := cy c - y in
    let distance := sqrt (dx * dx + dy * dy) in
    if Rlt_dec distance EPSILON then (fw, bw)
    else
      let projection := dx * fst u + dy * snd u in
      if Rlt_dec EPSILON projection then ((cindex c, distance) :: fw, bw)
      else if Rlt_dec projection (- EPSILON) then (fw, (cindex c, distance) :: bw)
      else (fw, bw)
  end.

(** [arr.sort((a, b) => a.distance - b.distance)[0]]: the sort is stable,
    so its head is the first entry of least distance. *)
Fixpoint closest (best : nat * R) (l : list (nat * R)) : nat * R :=
  match l with
  | [] => best
  | e :: rest => if Rlt_dec (snd e) (snd best) then closest e rest
                 else closest best rest
  end.

Definition sortedHead (l : list (nat * R)) : option nat :=
  match l with
  | [] => None
  | e :: rest => Some (fst (closest e rest))
  end.

(** [findClosestNeighborsOnLine(x, y, line, candidates)]. *)
Definition findClosestNeighborsOnLine (x y : R) (line : gline) (cs : list cand)
  : list (nat * Direction) :=
  match cs with
  | [] => []
  | _ =>
    let '(fw, bw) := classify x y (lineDir line) cs in
    match sortedHead fw with Some k => [(k, forward)] | None => [] end ++
    match sortedHead bw with Some k => [(k, backward)] | None => [] end
  end.

(** Tiles are read through their intersections only. *)
Definition indexed {A} (l : list A) : list (nat * A) :=
  combine (seq 0 (length l)) l.

(** The candidates of the inner [j] loop for one of tile [i]'s lines. *)
Definition candidatesOn (ts : list inter) (i : nat) (L : gline) : list cand :=
  map (fun jt => mkCand (fst jt) (ix (snd jt)) (iy (snd jt)))
    (filter (fun jt => negb (Nat.eqb (fst jt) i) &&
                       (sameLine (line1 (snd jt)) L || sameLine (line2 (snd jt)) L))
       (indexed ts)).

(** The adjacency list pushed for tile [i]: neighbours on [line1], then on
    [line2]. *)
Definition adjacencyOf (ts : list inter) (i : nat) (t : inter) : list adj :=
  map (fun kd => mkAdj (fst kd) (line1 t) (snd kd))
      (findClosestNeighborsOnLine (ix t) (iy t) (line1 t)
         (candidatesOn ts i (line1 t))) ++
  map (fun kd => mkAdj (fst kd) (line2 t) (snd kd))
      (findClosestNeighborsOnLine (ix t) (iy t) (line2 t)
         (candidatesOn ts i (line2 t))).

(** [buildRhombGraph]: the map [i -> adjacency list], as a list indexed by
    the tile index ([rhombGraph.get(i)]). *)
Definition buildRhombGraph (ts : list inter) : list (list adj) :=
  map (fun it => adjacencyOf ts (fst it) (snd it)) (indexed ts).

(** The lines of a tile. *)
Definition linesOf (t : inter) : list gline := [line1 t; line2 t].

(** Genericity conditions of a tile set.  A grid line is one object shared
    by all the intersections on it, so two lines of the tile set with equal
    family and index are the same line. *)
Definition lines_coherent (ts : list inter) : Prop :=
  forall a b L M, In a ts -> In b ts -> In L (linesOf a) -> In M (linesOf b) ->
  sameLine L M = true -> L = M.

(** Each intersection point lies on both of its lines (exact arithmetic). *)
Definition on_line (p : pt) (L : gline) : Prop :=
  (fst p - lx1 L) * (ly2 L - ly1 L) - (snd p - ly1 L) * (lx2 L - lx1 L) = 0.

Definition points_on_lines (ts : list inter) : Prop :=
  forall t L, In t ts -> In L (linesOf t) -> on_line (ix t, iy t) L.

Definition nondegenerate (ts : list inter) : Prop :=
  forall t L, In t ts -> In L (linesOf t) ->
  0 < (lx2 L - lx1 L) * (lx2 L - lx1 L) + (ly2 L - ly1 L) * (ly2 L - ly1 L).

(** No two distinct tiles on a common line are within [EPSILON] of each
    other (points closer than that are treated as the same point by
    [findClosestNeighborsOnLine]). *)
Definition separated (ts : list inter) : Prop :=
  forall a b ta tb L, a <> b -> nth_error ts a = Some ta -> nth_error ts b = Some tb ->
  In L (linesOf ta) -> (sameLine (line1 tb) L || sameLine (line2 tb) L) = true ->
  EPSILON * EPSILON <
    (ix tb - ix ta) * (ix tb - ix ta) + (iy tb - iy ta) * (iy tb - iy ta).

(** Symmetry of an adjacency graph. *)
Definition symmetric (g : list (list adj)) : Prop :=
  forall i j S d, In (mkAdj j S d) (nth i g []) ->
  In (mkAdj i S (opposite d)) (nth j g []).

End Graph.

(** A two-tile sample: two crossings on the horizontal line [La]. *)
Module GraphSample.
Import Grid Graph.
Local Open Scope R_scope.
Definition La : gline := mkLine 0 1 0 0 0 0 (-10) 0 10 0.
Definition Lb : gline := mkLine 1 0 0 0 1 0 0 (-10) 0 10.
Definition Lc : gline := mkLine 1 0 5 0 2 0 5 (-10) 5 10.
Definition sample_tiles : list inter := [mkInter 0 0 La Lb; mkInter 5 0 La Lc].
End GraphSample.

(* ------------------------------------------------------------------ *)
(** ** Tiles and alignment (unnamed parts 0 and 4) *)

Module Align.
Import Grid Graph.
Local Open Scope R_scope.

Definition RIGHT_ANGLE : R := 90.
Definition ANGLE_TOLERANCE : R := 1 / 1000.

(** A tile object [{points, intersection, aligned, originalPoints}] with the
    [locked] flag set by dragging ([undefined], i.e. false, until then).
    [originalPoints] is a deep copy made by [findRhomb]. *)
Record tile := mkTile {
  points : list pt; intersection : inter; aligned : bool;
  originalPoints : list pt; locked : bool }.

Definition set_points (t : tile) (ps : list pt) : tile :=
  mkTile ps (intersection t) (aligned t) (originalPoints t) (locked t).
Definition set_aligned (t : tile) (b : bool) : tile :=
  mkTile (points t) (intersection t) b (originalPoints t) (locked t).
Definition set_locked (t : tile) (b : bool) : tile :=
  mkTile (points t) (intersection t) (aligned t) (originalPoints t) b.

(** Assignment [rhombPoints[k] = ...] to an index in range. *)
Fixpoint upd {A} (l : list A) (k : nat) (x : A) : list A :=
  match l, k with
  | [], _ => []
  | _ :: r, O => x :: r
  | y :: r, S k' => y :: upd r k' x
  end.

(** [getAngleBetweenLines] of unnamed part 4 (zero-length guard, clamp). *)
Definition getAngleBetweenLines (x1 y1 x2 y2 x3 y3 x4 y4 : R) : R :=
  let v1 := (x2 - x1, y2 - y1) in
  let v2 := (x4 - x3, y4 - y3) in
  let dotProduct := fst v1 * fst v2 + snd v1 * snd v2 in
  let mag1 := sqrt (fst v1 * fst v1 + snd v1 * snd v1) in
  let mag2 := sqrt (fst v2 * fst v2 + snd v2 * snd v2) in
  if Req_EM_T mag1 0 then 0 else if Req_EM_T mag2 0 then 0 else
  let cosAngle := Rmax (-1) (Rmin 1 (dotProduct / (mag1 * mag2))) in
  let angleRad := acos cosAngle in
  let angleDeg := angleRad * 180 / PI in
  if Rlt_dec RIGHT_ANGLE angleDeg then 180 - angleDeg else angleDeg.

(** A perpendicular edge [{v1, v2, projection}]. *)
Record edge := mkEdge { ev1 : pt; ev2 : pt; projection : R }.

(** The loop of [findEdgeOnLine] over the edges [i = 0 .. 3]. *)
Definition perpEdges (t : tile) (line : gline) : list edge :=
  let ps := points t in
  let u := lineDir line in
  flat_map (fun i =>
    let v1 := nth i ps (0, 0) in
    let v2 := nth ((i + 1) mod 4) ps (0, 0) in
    let ang := getAngleBetweenLines (fst v1) (snd v1) (fst v2) (snd v2)
                 (lx1 line) (ly1 line) (lx2 line) (ly2 line) in
    if Rlt_dec (Rabs (ang - RIGHT_ANGLE)) ANGLE_TOLERANCE then
      let edgeCenterX := (fst v1 + fst v2) / 2 in
      let edgeCenterY := (snd v1 + snd v2) / 2 in
      let dx := edgeCenterX - ix (intersection t) in
      let dy := edgeCenterY - iy (intersection t) in
      [mkEdge v1 v2 (dx * fst u + dy * snd u)]
    else []) [0; 1; 2; 3]%nat.

(** [findEdgeOnLine(rhomb, line, direction)]; [None] is [null]. *)
Definition findEdgeOnLine (t : tile) (line : gline) (d : Direction) : option edge :=
  match perpEdges t line with
  | [e0; e1] =>
    match d with
    | forward => Some (if Rlt_dec (projection e1) (projection e0) then e0 else e1)
    | backward => Some (if Rlt_dec (projection e0) (projection e1) then e0 else e1)
    end
  | e0 :: _ => Some e0
  | [] => None
  end.

(** [calculateAlignmentOffset(startRhomb, adjacentRhomb, sharedLine, direction)]. *)
Definition calculateAlignmentOffset (s a : tile) (line : gline) (d : Direction) : pt :=
  match findEdgeOnLine s line d, findEdgeOnLine a line (opposite d) with
  | Some se, Some ae =>
    (((fst (ev1 se) - fst (ev1 ae)) + (fst (ev2 se) - fst (ev2 ae))) / 2,
     ((snd (ev1 se) - snd (ev1 ae)) + (snd (ev2 se) - snd (ev2 ae))) / 2)
  | _, _ => (0, 0)
  end.

(** [realignRhombus(rhomb, offset)]. *)
Definition realignRhombus (t : tile) (off : pt) : tile :=
  set_points t (map (fun p => vadd p off) (points t)).

(** [getUnalignedAdjacentTiles(i)]: [rhombGraph.get(i) || []] filtered by
    [!rhombPoints[k].aligned]; an index out of range raises ([None]). *)
Fixpoint filterUnaligned (ts : list tile) (l : list adj) : option (list adj) :=
  match l with
  | [] => Some []
  | e :: rest =>
    match nth_error ts (neighborIndex e), filterUnaligned ts rest with
    | Some t, Some r => Some (if aligned t then r else e :: r)
    | _, _ => None
    end
  end.

Definition getUnalignedAdjacentTiles (ts : list tile) (g : list (list adj)) (i : nat)
  : option (list adj) :=
  filterUnaligned ts (nth i g []).

(** The body of the [for (const data of adjacentTileData)] loop of
    [alignRhombuses]: [startingTile] is the same object throughout, read
    here in its current state. *)
Fixpoint alignEach (ts : list tile) (s : nat) (adjs : list adj) (q : list nat)
  : option (list tile * list nat) :=
  match adjs with
  | [] => Some (ts, q)
  | data :: rest =>
    let k := neighborIndex data in
    match nth_error ts s, nth_error ts k with
    | Some st, Some at0 =>
      let off := calculateAlignmentOffset st at0 (sharedLine data) (direction data) in
      alignEach (upd ts k (set_aligned (realignRhombus at0 off) true)) s rest (q ++ [k])
    | _, _ => None
    end
  end.

(** The [while (queue.length > 0)] loop of [alignRhombuses], with a bound
    on the number of iterations ([None] also when it is exhausted). *)
Fixpoint bfs (fuel : nat) (ts : list tile) (g : list (list adj)) (q : list nat)
  : option (list tile) :=
  match fuel with
  | O => None
  | S f =>
    match q with
    | [] => Some ts
    | s :: rest =>
      match getUnalignedAdjacentTiles ts g s with
      | None => None
      | Some adjs =>
        match alignEach ts s adjs rest with
        | None => None
        | Some (ts', q') => bfs f ts' g q'
        end
      end
    end
  end.

(** [alignRhombuses()] (batch mode). *)
Definition alignRhombuses (fuel : nat) (ts : list tile) (g : list (list adj))
  : option (list tile) :=
  match ts with
  | [] => Some []
  | t0 :: rest => bfs fuel (set_aligned t0 true :: rest) g [0%nat]
  end.

(** The sketch's global state (unnamed part 0). *)
Record state := mkState {
  rhombPoints : list tile; rhombGraph : list (list adj);
  alignmentQueue : list nat; isAligned : bool; isAligning : bool;
  selectedRhomb : option nat }.

Definition with_tiles (st : state) (ts : list tile) : state :=
  mkState ts (rhombGraph st) (alignmentQueue st) (isAligned st) (isAligning st)
          (selectedRhomb st).
Definition with_queue (st : state) (q : list nat) : state :=
  mkState (rhombPoints st) (rhombGraph st) q (isAligned st) (isAligning st)
          (selectedRhomb st).
Definition with_flags (st : state) (al aling : bool) : state :=
  mkState (rhombPoints st) (rhombGraph st) (alignmentQueue st) al aling
          (selectedRhomb st).
Definition with_selected (st : state) (sel : option nat) : state :=
  mkState (rhombPoints st) (rhombGraph st) (alignmentQueue st) (isAligned st)
          (isAligning st) sel.

(** [stepAlignment()] of unnamed part 0 (single-step mode). *)
Definition stepAlignment (st : state) : option state :=
  let ts := rhombPoints st in
  match alignmentQueue st with
  | [] => Some (with_flags st true false)
  | s :: rest =>
    match getUnalignedAdjacentTiles ts (rhombGraph st) s with
    | None => None
    | Some [] => Some (with_queue st rest)
    | Some (data :: more) =>
      let k := neighborIndex data in
      match nth_error ts k with
      | None => None
      | Some at0 =>
        let moved :=
          if locked at0 then Some at0
          else match nth_error ts s with
               | Some st0 => Some (realignRhombus at0
                    (calculateAlignmentOffset st0 at0 (sharedLine data) (direction data)))
               | None => None
               end in
        match moved with
        | None => None
        | Some at1 =>
          Some (with_queue (with_tiles st (upd ts k (set_aligned at1 true)))
                  (repeat s (length more) ++ (rest ++ [k])))
        end
      end
    end
  end.

(** [startProgressiveAlignment()]; [rhombPoints[0].aligned = true] raises
    when there is no tile. *)
Definition lockedIndices (ts : list tile) : list nat :=
  map fst (filter (fun it => locked (snd it)) (indexed ts)).

Definition startProgressiveAlignment (st : state) : option state :=
  match lockedIndices (rhombPoints st) with
  | _ :: _ => Some (with_flags (with_queue st (lockedIndices (rhombPoints st)))
                               (isAligned st) true)
  | [] =>
    match rhombPoints st with
    | [] => None
    | t0 :: rest =>
      Some (with_flags (with_queue (with_tiles st (set_aligned t0 true :: rest)) [0%nat])
                       (isAligned st) true)
    end
  end.

(** The copy loop of [resetRhombuses]: [points[i] = originalPoints[i]] for
    each index of [points]. *)
Fixpoint restore (ps os : list pt) : option (list pt) :=
  match ps, os with
  | [], _ => Some []
  | _ :: ps', o :: os' => option_map (cons o) (restore ps' os')
  | _ :: _, [] => None
  end.

Fixpoint resetRhombuses (ts : list tile) : option (list tile) :=
  match ts with
  | [] => Some []
  | t :: rest =>
    match restore (points t) (originalPoints t), resetRhombuses rest with
    | Some ps, Some rest' => Some (set_aligned (set_points t ps) false :: rest')
    | _, _ => None
    end
  end.

(** [toggleAlignment()] (the align button). *)
Definition toggleAlignment (st : state) : option state :=
  if negb (isAligned st) && negb (isAligning st) then startProgressiveAlignment st
  else if isAligned st then
    match resetRhombuses (rhombPoints st) with
    | None => None
    | Some ts => Some (with_queue (with_flags (with_tiles st ts) false false) [])
    end
  else Some st.

(** [mouseDragged()]: translate the selected tile, lock it and mark it
    aligned. *)
Definition translate (t : tile) (dx dy : R) : tile :=
  set_points t (map (fun p => (fst p + dx, snd p + dy)) (points t)).

Definition mouseDragged (st : state) (dx dy : R) : option state :=
  match selectedRhomb st with
  | None => Some st
  | Some i =>
    match nth_error (rhombPoints st) i with
    | None => None
    | Some t =>
      Some (with_tiles st (upd (rhombPoints st) i
              (set_aligned (set_locked (translate t dx dy) true) true)))
    end
  end.

(** User events.  [Press hit] is a mouse press whose hit test
    ([isPointInPolygon] over [rhombPoints], first match) found tile [hit]. *)
Inductive event := Press (hit : option nat) | Drag (dx dy : R) | Release | Toggle | Frame.

Definition handle (st : state) (e : event) : option state :=
  match e with
  | Press hit => Some (with_selected st hit)
  | Drag dx dy => mouseDragged st dx dy
  | Release => Some (with_selected st None)
  | Toggle => toggleAlignment st
  | Frame => if isAligning st then stepAlignment st else Some st
  end.

Fixpoint session (st : state) (es : list event) : option state :=
  match es with
  | [] => Some st
  | e :: rest => match handle st e with Some st' => session st' rest | None => None end
  end.

End Align.

(** Small tile sets used as concrete inputs. *)
Module AlignSamples.
Import Grid Graph Align GraphSample.
Local Open Scope R_scope.

(** An axis-parallel square of side 2 centred at [(x, y)]. *)
Definition sq (x y : R) : list pt :=
  [(x - 1, y - 1); (x + 1, y - 1); (x + 1, y + 1); (x - 1, y + 1)].

(** A fresh tile centred on its crossing [(x, 0)] of [La] and [l2]. *)
Definition tileAt (x : R) (l2 : gline) : tile :=
  mkTile (sq x 0) (mkInter x 0 La l2) false (sq x 0) false.

(** Tile 0 has two unaligned neighbours, the queue holds [0; 3]. *)
Definition queueState : state :=
  mkState [tileAt 0 Lb; tileAt 5 Lc; tileAt 10 Lc; tileAt 15 Lc]
          [[mkAdj 1 La forward; mkAdj 2 Lb forward]; []; []; []]
          [0; 3]%nat false true None.

(** One tile, no neighbours, nothing selected or aligned. *)
Definition loneState : state := mkState [tileAt 0 Lb] [[]] [] false false None.

(** Drag tile 0, align, reset. *)
Definition dragAlignReset : list event :=
  [Press (Some 0%nat); Drag 1 0; Release; Toggle; Frame; Frame; Toggle].

(** Then align again. *)
Definition dragAlignResetAlign : list event :=
  dragAlignReset ++ [Toggle; Frame; Frame].

(** Two neighbouring squares on [La]; the second one is locked. *)
Definition squareT : tile := tileAt 0 Lb.
Definition squareN : tile := mkTile (sq 5 0) (mkInter 5 0 La Lc) false (sq 5 0) true.
Definition pairGraph : list (list adj) :=
  [[mkAdj 1 La forward]; [mkAdj 0 La backward]].

(** Single-step alignment about to visit the locked square from tile 0. *)
Definition lockedPairState : state :=
  mkState [set_aligned squareT true; squareN] pairGraph [0%nat] false true None.

(** A completed run on the pair: tile 0 was dragged (moved and locked),
    tile 1 was realigned by [(-3, 0)]; both are aligned. *)
Definition alignedPair : state :=
  mkState [set_aligned (set_locked (translate squareT 1 0) true) true;
           set_aligned (realignRhombus (tileAt 5 Lc) (-3, 0)) true]
          pairGraph [] true false None.

(** Two fresh, unlocked tiles on [La], neighbours of each other. *)
Definition pairStart : state :=
  mkState [squareT; tileAt 5 Lc] pairGraph [] false false None.

End AlignSamples.

(* ------------------------------------------------------------------ *)
(** ** The animated sketch (sketch.js, lines 1-400): alignment steps are
    shown by interpolating the moving tile over [visualizationFrames]
    frames.  It uses the tile, graph and offset functions above. *)

Module Trace.
Import Grid Graph Align.
Local Open Scope R_scope.

Definition visualizationFrames : nat := 60.

Record vstate := mkV {
  tiles : list tile; graph : list (list adj);
  queue : list nat; vAligned : bool; vAligning : bool;
  selected : option nat; showTrace : bool;
  currentlyAligning : option nat; currentOffset : option pt;
  animationStartPositions : option (list pt); visualizationProgress : nat }.

Definition set_tiles (s : vstate) (ts : list tile) : vstate :=
  mkV ts (graph s) (queue s) (vAligned s) (vAligning s) (selected s) (showTrace s)
      (currentlyAligning s) (currentOffset s) (animationStartPositions s)
      (visualizationProgress s).
Definition set_queue (s : vstate) (q : list nat) : vstate :=
  mkV (tiles s) (graph s) q (vAligned s) (vAligning s) (selected s) (showTrace s)
      (currentlyAligning s) (currentOffset s) (animationStartPositions s)
      (visualizationProgress s).
Definition set_modes (s : vstate) (al aling : bool) : vstate :=
  mkV (tiles s) (graph s) (queue s) al aling (selected s) (showTrace s)
      (currentlyAligning s) (currentOffset s) (animationStartPositions s)
      (visualizationProgress s).
Definition set_selected (s : vstate) (sel : option nat) : vstate :=
  mkV (tiles s) (graph s) (queue s) (vAligned s) (vAligning s) sel (showTrace s)
      (currentlyAligning s) (currentOffset s) (animationStartPositions s)
      (visualizationProgress s).
Definition set_trace (s : vstate) (b : bool) : vstate :=
  mkV (tiles s) (graph s) (queue s) (vAligned s) (vAligning s) (selected s) b
      (currentlyAligning s) (currentOffset s) (animationStartPositions s)
      (visualizationProgress s).
(** The visualization variables [currentlyAligning], [currentOffset],
    [animationStartPositions] and [visualizationProgress]. *)
Definition set_vis (s : vstate) (ca : option nat) (off : option pt)
    (asp : option (list pt)) (vp : nat) : vstate :=
  mkV (tiles s) (graph s) (queue s) (vAligned s) (vAligning s) (selected s)
      (showTrace s) ca off asp vp.

(** [stepAlignment()] of sketch.js. *)
Definition stepAlignmentV (s : vstate) : option vstate :=
  let ts := tiles s in
  match queue s with
  | [] => Some (set_vis (set_modes s true false) None None
                  (animationStartPositions s) (visualizationProgress s))
  | i :: rest =>
    match getUnalignedAdjacentTiles ts (graph s) i with
    | None => None
    | Some [] => Some (set_queue s rest)
    | Some (data :: more) =>
      let k := neighborIndex data in
      let q' := repeat i (length more) ++ (rest ++ [k]) in
      match nth_error ts k with
      | None => None
      | Some at0 =>
        if locked at0 then
          Some (set_queue (set_vis (set_tiles s (upd ts k (set_aligned at0 true)))
                  (Some k) (Some (0, 0)) (animationStartPositions s) 0) q')
        else
          match nth_error ts i with
          | None => None
          | Some st0 =>
            let off := calculateAlignmentOffset st0 at0 (sharedLine data) (direction data) in
            if showTrace s then
              Some (set_queue (set_vis (set_tiles s (upd ts k (set_aligned at0 true)))
                      (Some k) (Some off) (Some (points at0)) 0) q')
            else
              Some (set_queue (set_vis
                      (set_tiles s (upd ts k (set_aligned (realignRhombus at0 off) true)))
                      (Some k) (Some off) (animationStartPositions s) 0) q')
          end
      end
    end
  end.

(** The interpolation loop of [draw]:
    [points[i] = animationStartPositions[i] + currentOffset * progress]. *)
Fixpoint interpolate (ps asp : list pt) (off : pt) (k : R) : option (list pt) :=
  match ps, asp with
  | [], _ => Some []
  | _ :: ps', a :: asp' =>
    option_map (cons (fst a + fst off * k, snd a + snd off * k)) (interpolate ps' asp' off k)
  | _ :: _, [] => None
  end.

Definition interpolateAll (ps : list pt) (asp : option (list pt)) (off : option pt) (k : R)
  : option (list pt) :=
  match ps with
  | [] => Some []
  | _ => match asp, off with
         | Some a, Some o => interpolate ps a o k
         | _, _ => None
         end
  end.

(** The alignment part of [draw()]. *)
Definition drawV (s : vstate) : option vstate :=
  if vAligning s then
    match showTrace s, currentlyAligning s with
    | true, Some c =>
      if Nat.ltb (visualizationProgress s) visualizationFrames then
        match nth_error (tiles s) c with
        | None => None
        | Some rh =>
          let progress := INR (S (visualizationProgress s)) / INR visualizationFrames in
          match interpolateAll (points rh) (animationStartPositions s)
                  (currentOffset s) progress with
          | None => None
          | Some ps =>
            let s1 := set_tiles s (upd (tiles s) c (set_points rh ps)) in
            let vp := S (visualizationProgress s) in
            if Nat.leb visualizationFrames vp then Some (set_vis s1 None None None 0)
            else Some (set_vis s1 (currentlyAligning s) (currentOffset s)
                               (animationStartPositions s) vp)
          end
        end
      else stepAlignmentV s
    | tr, ca =>
      let s1 := if negb tr && match ca with Some _ => true | None => false end
                then set_vis s None None None 0 else s in
      stepAlignmentV s1
    end
  else Some s.

(** [startProgressiveAlignment()] of sketch.js. *)
Definition startV (s : vstate) : option vstate :=
  let vis s' := set_vis s' None None (animationStartPositions s') 0 in
  match lockedIndices (tiles s) with
  | _ :: _ => Some (vis (set_modes (set_queue s (lockedIndices (tiles s))) (vAligned s) true))
  | [] =>
    match tiles s with
    | [] => None
    | t0 :: rest =>
      Some (vis (set_modes (set_queue (set_tiles s (set_aligned t0 true :: rest)) [0%nat])
                           (vAligned s) true))
    end
  end.

(** [toggleAlignment()] of sketch.js. *)
Definition toggleV (s : vstate) : option vstate :=
  if negb (vAligned s) && negb (vAligning s) then startV s
  else if vAligned s then
    match resetRhombuses (tiles s) with
    | None => None
    | Some ts => Some (set_queue (set_modes (set_tiles s ts) false false) [])
    end
  else Some s.

(** [mouseDragged()] of sketch.js. *)
Definition dragV (s : vstate) (dx dy : R) : option vstate :=
  match selected s with
  | None => Some s
  | Some i =>
    match nth_error (tiles s) i with
    | None => None
    | Some t => Some (set_tiles s (upd (tiles s) i
                  (set_aligned (set_locked (translate t dx dy) true) true)))
    end
  end.

(** User events, frames and the trace checkbox ([updateTraceMode]). *)
Inductive vevent :=
  VPress (hit : option nat) | VDrag (dx dy : R) | VRelease | VToggle | VFrame
| VTrace (b : bool).

Definition vhandle (s : vstate) (e : vevent) : option vstate :=
  match e with
  | VPress hit => Some (set_selected s hit)
  | VDrag dx dy => dragV s dx dy
  | VRelease => Some (set_selected s None)
  | VToggle => toggleV s
  | VFrame => drawV s
  | VTrace b => Some (set_trace s b)
  end.

Fixpoint vsession (s : vstate) (es : list vevent) : option vstate :=
  match es with
  | [] => Some s
  | e :: rest => match vhandle s e with Some s' => vsession s' rest | None => None end
  end.

(** A state right after [setup()]: tiles as [findRhomb] made them (points
    equal to their copy [originalPoints]), no alignment running, no
    animation. *)
Definition initial (s : vstate) : Prop :=
  (forall t, In t (tiles s) -> points t = originalPoints t) /\
  vAligning s = false /\ animationStartPositions s = None /\
  visualizationProgress s = 0%nat.

End Trace.

(** A one-tile animated session in its state after [setup()]. *)
Module TraceSample.
Import Align Trace.
Local Open Scope R_scope.
Definition traceStart : vstate :=
  mkV [AlignSamples.squareT] [[]] [] false false None true None None None 0.
End TraceSample.

(* ------------------------------------------------------------------ *)
(** ** The region-sampling generator of sketch.js ([PenroseGenerator],
    [PenroseRenderer], [KeyHandler], sketch.js lines 460-1160) *)

Module Gen.
Local Open Scope R_scope.

(** [CONFIG] *)
Definition TAU : R := 2 * PI.
Definition CGRID_SIZE : R := 1200.
Definition CSPACING : R := 80.
Definition CNUM_LINES : nat := 8.

(** A line in normal form [{family, nx, ny, offset, index}]:
    [nx * x + ny * y = offset]. *)
Record nline := mkNLine {
  nfamily : nat; nx : R; ny : R; offset : R; index : Z }.

Definition Rltb (x y : R) : bool := if Rlt_dec x y then true else false.

(** [generatePentagrid()]: [state.gammas[family]] is read with a default
    (the state always holds five gammas). *)
Definition generatePentagrid (gammas : list R) : list (list nline) :=
  map (fun family =>
         let angle := INR family * TAU / 5 in
         map (fun k =>
                let i := (Z.of_nat k - Z.of_nat CNUM_LINES)%Z in
                mkNLine family (cos angle) (sin angle)
                  (IZR i * CSPACING + nth family gammas 0 * CSPACING) i)
             (seq 0 (2 * CNUM_LINES + 1)))
      (seq 0 5).

(** [calculateLineIntersection(line1, line2)] (the type checks always pass
    on lines built by [generatePentagrid]; every real is finite). *)
Definition calculateLineIntersection (l1 l2 : nline) : option (R * R) :=
  let det := nx l1 * ny l2 - ny l1 * nx l2 in
  if Rlt_dec (Rabs det) (1 / 10000000000) then None
  else Some ((offset l1 * ny l2 - offset l2 * ny l1) / det,
             (offset l2 * nx l1 - offset l1 * nx l2) / det).

(** [isInBounds(point)] on the [GRID_SIZE x GRID_SIZE] canvas. *)
Definition isInBounds (p : R * R) : bool :=
  Rltb (Rabs (fst p)) (CGRID_SIZE / 2 - CSPACING) &&
  Rltb (Rabs (snd p)) (CGRID_SIZE / 2 - CSPACING).

(** An intersection [{x, y, families, lines}]. *)
Record ninter := mkNInter {
  npoint : R * R; nfamilies : nat * nat; nlines : nline * nline }.

(** [findAllIntersections()]; [gridLines[f]] is [undefined] past the
    families, and [undefined.length] raises ([None]). *)
Definition findAllIntersections (gl : list (list nline)) : option (list ninter) :=
  let pairs := flat_map (fun f1 => map (fun f2 => (f1, f2)) (seq (S f1) (4 - f1)))
                        (seq 0 5) in
  fold_right (fun fp acc =>
    match acc, nth_error gl (fst fp), nth_error gl (snd fp) with
    | Some rest, Some lines1, Some lines2 =>
      Some (flat_map (fun l1 => flat_map (fun l2 =>
              match calculateLineIntersection l1 l2 with
              | Some p => if isInBounds p then [mkNInter p fp (l1, l2)] else []
              | None => []
              end) lines2) lines1 ++ rest)
    | _, _, _ => None
    end) (Some []) pairs.

(** [getPointSignature(point)]: one bit per line, family by family;
    [None] when a family is missing (iterating [undefined] raises). *)
Definition getPointSignature (gl : list (list nline)) (p : R * R)
  : option (list (list nat)) :=
  fold_right (fun family acc =>
    match acc, nth_error gl family with
    | Some rest, Some lines =>
      Some (map (fun l => if Rlt_dec 0 (nx l * fst p + ny l * snd p - offset l)
                          then 1%nat else 0%nat) lines :: rest)
    | _, _ => None
    end) (Some []) (seq 0 5).

(** The [transitions] loop: indices [i >= 1] with [sig[i] !== sig[i-1]]. *)
Fixpoint transitions (s : list nat) : nat :=
  match s with
  | a :: ((b :: _) as rest) => (if Nat.eqb a b then 0 else 1) + transitions rest
  | _ => 0
  end.

(** [signature[family]] for [family < 5]; a missing family raises on
    [.length]. *)
Definition familyTransitions (sig : list (list nat)) : option (list nat) :=
  fold_right (fun family acc =>
    match acc, nth_error sig family with
    | Some rest, Some fs => Some (transitions fs :: rest)
    | _, _ => None
    end) (Some []) (seq 0 5).

(** [isValidRhombSignature(signature)]. *)
Definition isValidRhombSignature (sig : list (list nat)) : option bool :=
  match familyTransitions sig with
  | None => None
  | Some ts =>
    let activeFamilies := length (filter (fun t => Nat.eqb t 2) ts) in
    let totalTransitions := fold_left Nat.add ts 0%nat in
    Some (Nat.eqb activeFamilies 2 && Nat.eqb totalTransitions 4)
  end.

Inductive rtype := thick | thin | unknown.

(** The [activeFamilies] loop shared by [getRhombType] and
    [createRhombFromRegion]. *)
Definition activeFamiliesOf (sig : list (list nat)) : option (list nat) :=
  match familyTransitions sig with
  | None => None
  | Some ts => Some (map fst (filter (fun ft => Nat.eqb (snd ft) 2)
                                     (combine (seq 0 5) ts)))
  end.

(** [getRhombType(signature)]. *)
Definition getRhombType (sig : list (list nat)) : option rtype :=
  match activeFamiliesOf sig with
  | None => None
  | Some [f0; f1] =>
    let diff := if Nat.leb f0 f1 then (f1 - f0)%nat else (f0 - f1)%nat in
    let minDiff := Nat.min diff (5 - diff) in
    Some (if Nat.eqb minDiff 1 then thick else thin)
  | Some _ => Some unknown
  end.

Record region := mkRegion { center : R * R; signature : list (list nat); rtyp : rtype }.

(** The sample points of [findRegions]: [resolution = max(20, min(40,
    NUM_LINES)) = 20], [step = GRID_SIZE / resolution]; [x] and [y] run
    from [-GRID_SIZE/2] while below [GRID_SIZE/2] (the accumulated
    [x += step] is exact here: multiples of 60). *)
Definition resolution : nat := Nat.max 20 (Nat.min 40 CNUM_LINES).
Definition step : R := CGRID_SIZE / INR resolution.
Definition halfGrid : R := CGRID_SIZE / 2.

Definition samplePoints : list (R * R) :=
  flat_map (fun kx => map (fun ky => (- halfGrid + INR kx * step, - halfGrid + INR ky * step))
                          (seq 0 resolution))
           (seq 0 resolution).

(** The body of the sampling loop for one point. *)
Definition regionAt (gl : list (list nline)) (p : R * R) : option (list region) :=
  match getPointSignature gl p with
  | None => None
  | Some sig =>
    match isValidRhombSignature sig with
    | None => None
    | Some false => Some []
    | Some true =>
      match getRhombType sig with
      | None => None
      | Some unknown => Some []
      | Some t => Some [mkRegion p sig t]
      end
    end
  end.

(** [findRegions()]: an error inside the [try] leaves no region. *)
Definition findRegions (gl : list (list nline)) : list region :=
  match fold_right (fun p acc =>
          match regionAt gl p, acc with
          | Some r, Some rest => Some (r ++ rest)
          | _, _ => None
          end) (Some []) samplePoints with
  | Some rs => rs
  | None => []
  end.

Record rhomb := mkRhomb {
  rcenter : R * R; vertices : list (R * R); rkind : rtype; rfamilies : list nat }.

(** [createRhombFromRegion(region)]. *)
Definition createRhombFromRegion (rg : region) : option rhomb :=
  let isThick := match rtyp rg with thick => true | _ => false end in
  let size := CSPACING * (4 / 10) in
  match activeFamiliesOf (signature rg) with
  | Some [f0; f1] =>
    let angle1 := INR f0 * TAU / 5 in
    let angle2 := INR f1 * TAU / 5 in
    let avgAngle := (angle1 + angle2) / 2 in
    let acuteAngle := if isThick then PI / 5 else 2 * PI / 5 in
    let longDiag := 2 * size / sin (acuteAngle / 2) in
    let shortDiag := 2 * size * sin (acuteAngle / 2) in
    let vs := map (fun i =>
                let angle := avgAngle + INR i * PI / 2 in
                let radius := if Nat.even i then longDiag / 2 else shortDiag / 2 in
                (fst (center rg) + radius * cos angle, snd (center rg) + radius * sin angle))
              (seq 0 4) in
    Some (mkRhomb (center rg) vs (rtyp rg) [f0; f1])
  | _ => None
  end.

(** [validateRhomb(rhomb)]: four vertices (all coordinates are finite
    numbers here). *)
Definition validateRhomb (r : rhomb) : bool := Nat.eqb (length (vertices r)) 4.

(** The stable sort [[...rhombList].sort((a, b) => a.center.x - b.center.x)]:
    each element goes after every element whose [x] is not larger. *)
Fixpoint insertByX (r : rhomb) (l : list rhomb) : list rhomb :=
  match l with
  | [] => [r]
  | y :: ys => if Rlt_dec (fst (rcenter r)) (fst (rcenter y)) then r :: y :: ys
               else y :: insertByX r ys
  end.

Definition sortByX (l : list rhomb) : list rhomb := fold_left (fun acc r => insertByX r acc) l [].

Definition minDistance : R := CSPACING * (6 / 10).
Definition minDistanceSquared : R := minDistance * minDistance.

Definition dist2 (p q : R * R) : R :=
  (fst p - fst q) * (fst p - fst q) + (snd p - snd q) * (snd p - snd q).

(** The inner loop: [true] when some kept rhomb is closer than
    [minDistance] (the [x]-axis pre-check skips far ones). *)
Definition isOverlapping (r : rhomb) (filtered : list rhomb) : bool :=
  existsb (fun e =>
    if Rlt_dec minDistance (Rabs (fst (rcenter r) - fst (rcenter e))) then false
    else Rltb (dist2 (rcenter r) (rcenter e)) minDistanceSquared) filtered.

(** [filterOverlappingRhombs(rhombList)]. *)
Definition filterOverlappingRhombs (l : list rhomb) : list rhomb :=
  match l with
  | [] => []
  | _ => fold_left (fun filtered r => if isOverlapping r filtered then filtered
                                       else filtered ++ [r]) (sortByX l) []
  end.

(** [convertRegionsToRhombs()]. *)
Definition convertRegionsToRhombs (rs : list region) : list rhomb :=
  filterOverlappingRhombs
    (flat_map (fun rg =>
       match rtyp rg with
       | unknown => []
       | _ => match createRhombFromRegion rg with
              | Some r => if validateRhomb r then [r] else []
              | None => []
              end
       end) rs).

(** [PenroseState] and [generateTiling()]. *)
Record pstate := mkPState {
  gammas : list R; gridLines : list (list nline); intersections : list ninter;
  regions : list region; rhombs : list rhomb; showGrid : bool; showRhombs : bool }.

Definition generateTiling (s : pstate) : option pstate :=
  let gl := generatePentagrid (gammas s) in
  match findAllIntersections gl with
  | None => None
  | Some is =>
    let rs := findRegions gl in
    Some (mkPState (gammas s) gl is rs (convertRegionsToRhombs rs)
                   (showGrid s) (showRhombs s))
  end.

(** [PenroseRenderer.drawLine(gridLine)]: the two endpoints passed to
    [line]. *)
Definition drawLine (l : nline) : (R * R) * (R * R) :=
  let size := CGRID_SIZE in
  if Rlt_dec (Rabs (ny l)) (Rabs (nx l)) then
    (((offset l - ny l * (- size)) / nx l, - size), ((offset l - ny l * size) / nx l, size))
  else
    ((- size, (offset l - nx l * (- size)) / ny l), (size, (offset l - nx l * size) / ny l)).

End Gen.

(** ** Planar geometry helpers: [isPointInPolygon] and [lineSegmentDistance]
    of utils.js, the [GeometryUtils] class and the guarded
    [isPointInPolygon] of unnamed part 4 *)

Module Geo.

Local Open Scope R_scope.

Definition pt := (R * R)%type.

Definition Rltb (x y : R) : bool := if Rlt_dec x y then true else false.
Definition Rleb (x y : R) : bool := if Rle_dec x y then true else false.

(** The [intersect] test of one edge [(vertices[i], vertices[j])] of the
    ray-casting loop; the JS [&&] does not evaluate the division when the
    first test fails. *)
Definition crosses (x y : R) (pi pj : pt) : bool :=
  xorb (Rltb y (snd pi)) (Rltb y (snd pj)) &&
  Rltb x ((fst pj - fst pi) * (y - snd pi) / (snd pj - snd pi) + fst pi).

(** The loop [for (i = 0, j = n - 1; i < n; j = i++)]: [pj] is the vertex
    of index [j]. *)
Fixpoint pipLoop (x y : R) (pj : pt) (ps : list pt) (inside : bool) : bool :=
  match ps with
  | [] => inside
  | pi :: rest => pipLoop x y pi rest (if crosses x y pi pj then negb inside else inside)
  end.

(** [isPointInPolygon(x, y, polygon)] of utils.js (on [polygon.points]) and
    [GeometryUtils.isPointInPolygon(x, y, vertices)]: the first [j] is the
    last vertex. *)
Definition isPointInPolygon (x y : R) (ps : list pt) : bool :=
  match ps with
  | [] => false
  | p0 :: _ => pipLoop x y (last ps p0) ps false
  end.

(** [isPointInPolygon] of unnamed part 4: the same loop behind a guard
    refusing polygons of fewer than three points. *)
Definition isPointInPolygonGuarded (x y : R) (ps : list pt) : bool :=
  if Nat.ltb (length ps) 3 then false
  else match ps with
       | [] => false
       | p0 :: _ => pipLoop x y (last ps p0) ps false
       end.

(** [GeometryUtils.angleBetweenVectors(x1, y1, x2, y2)]. *)
Definition angleBetweenVectors (x1 y1 x2 y2 : R) : R :=
  let dot := x1 * x2 + y1 * y2 in
  let mag1 := sqrt (x1 * x1 + y1 * y1) in
  let mag2 := sqrt (x2 * x2 + y2 * y2) in
  if Req_EM_T mag1 0 then 0
  else if Req_EM_T mag2 0 then 0
  else let cosAngle := dot / (mag1 * mag2) in
       acos (Rmax (-1) (Rmin 1 cosAngle)).

(** The JS remainder [a % m]: [a - m * trunc(a / m)], with the sign of
    [a]. *)
Definition jsRem (a m : R) : R :=
  let q := a / m in
  let t := if Rle_dec 0 q then Int_part q else (- Int_part (- q))%Z in
  a - m * IZR t.

(** [GeometryUtils.normalizeAngle(angle)]. *)
Definition normalizeAngle (angle : R) : R :=
  let TWO_PI := 2 * PI in
  let normalizedAngle := jsRem angle TWO_PI in
  if Rlt_dec normalizedAngle 0 then normalizedAngle + TWO_PI else normalizedAngle.

(** [GeometryUtils.calculateCentroid(vertices)]. *)
Definition calculateCentroid (vs : list pt) : pt :=
  match vs with
  | [] => (0, 0)
  | _ =>
    let centroid := fold_left (fun acc v => (fst acc + fst v, snd acc + snd v)) vs (0, 0) in
    (fst centroid / INR (length vs), snd centroid / INR (length vs))
  end.

(** [GeometryUtils.calculatePolygonArea(vertices)]: the shoelace sum, each
    step adding [x_i * y_j] then subtracting [x_j * y_i]. *)
Definition calculatePolygonArea (vs : list pt) : R :=
  if Nat.ltb (length vs) 3 then 0
  else
    let n := length vs in
    let area := fold_left (fun area i =>
                  let j := ((i + 1) mod n)%nat in
                  area + fst (nth i vs (0, 0)) * snd (nth j vs (0, 0))
                       - fst (nth j vs (0, 0)) * snd (nth i vs (0, 0)))
                  (seq 0 n) 0 in
    Rabs area / 2.

(** A segment [{start, end}] of [doLinesIntersect] ([end] is a keyword). *)
Record lseg := mkLSeg { start : pt; lend : pt }.

(** The local [orientation(p, q, r)]: 0 collinear, 1 or 2 by the sign. *)
Definition orientation (p q r : pt) : nat :=
  let val := (snd q - snd p) * (fst r - fst q) - (fst q - fst p) * (snd r - snd q) in
  if Req_EM_T val 0 then 0%nat else if Rlt_dec 0 val then 1%nat else 2%nat.

(** [GeometryUtils.doLinesIntersect(line1, line2)]. *)
Definition doLinesIntersect (line1 line2 : lseg) : bool :=
  let p1 := start line1 in let q1 := lend line1 in
  let p2 := start line2 in let q2 := lend line2 in
  let o1 := orientation p1 q1 p2 in
  let o2 := orientation p1 q1 q2 in
  let o3 := orientation p2 q2 p1 in
  let o4 := orientation p2 q2 q1 in
  negb (Nat.eqb o1 o2) && negb (Nat.eqb o3 o4).

(** The helpers of [lineSegmentDistance]; p5's [constrain(n, low, high)] is
    [max(min(n, high), low)]. *)
Definition constrain (n low high : R) : R := Rmax (Rmin n high) low.
Definition dot (v1x v1y v2x v2y : R) : R := v1x * v2x + v1y * v2y.
Definition lengthSq (x y : R) : R := x * x + y * y.

Definition pointToSegmentDistance (px py x1 y1 x2 y2 : R) : R :=
  let lenSq := lengthSq (x2 - x1) (y2 - y1) in
  if Req_EM_T lenSq 0 then sqrt (lengthSq (px - x1) (py - y1))
  else
    let t := constrain (dot (px - x1) (py - y1) (x2 - x1) (y2 - y1) / lenSq) 0 1 in
    let projX := x1 + t * (x2 - x1) in
    let projY := y1 + t * (y2 - y1) in
    sqrt (lengthSq (px - projX) (py - projY)).

Definition segmentsIntersect (x11 y11 x12 y12 x21 y21 x22 y22 : R) : bool :=
  let dx1 := x12 - x11 in let dy1 := y12 - y11 in
  let dx2 := x22 - x21 in let dy2 := y22 - y21 in
  let det := dx1 * dy2 - dy1 * dx2 in
  if Req_EM_T det 0 then false
  else
    let s := (dx1 * (y21 - y11) + dy1 * (x11 - x21)) / det in
    let t := (dx2 * (y11 - y21) + dy2 * (x21 - x11)) / - det in
    Rleb 0 s && Rleb s 1 && Rleb 0 t && Rleb t 1.

(** [lineSegmentDistance(x11, y11, x12, y12, x21, y21, x22, y22)]; p5's
    [min] of four numbers. *)
Definition lineSegmentDistance (x11 y11 x12 y12 x21 y21 x22 y22 : R) : R :=
  if segmentsIntersect x11 y11 x12 y12 x21 y21 x22 y22 then 0
  else Rmin (Rmin (Rmin (pointToSegmentDistance x11 y11 x21 y21 x22 y22)
                        (pointToSegmentDistance x12 y12 x21 y21 x22 y22))
                  (pointToSegmentDistance x21 y21 x11 y11 x12 y12))
            (pointToSegmentDistance x22 y22 x11 y11 x12 y12).

End Geo.

(* ================================================================== *)
(** * Theorems *)

Module SegmentsFacts.
Import Segments.
Local Open Scope Q_scope.

Lemma Qltb_iff a b : Qltb a b = true <-> a < b.
Proof.
  unfold Qltb. rewrite negb_true_iff.
  split; intro H.
  - apply Qnot_le_lt. intro H'. apply Qle_bool_iff in H'. congruence.
  - destruct (Qle_bool b a) eqn:E; [|reflexivity].
    apply Qle_bool_iff in E. exfalso. apply (Qlt_not_le a b); assumption.
Qed.

Lemma Qltb_false_iff a b : Qltb a b = false <-> b <= a.
Proof.
  unfold Qltb. rewrite negb_false_iff. apply Qle_bool_iff.
Qed.

(** C9. [intersect] returns a point exactly when neither segment has zero
    length, the determinant is non-zero and both parameters lie in [0,1];
    otherwise it returns [false] ([None]); it is total, so it raises no
    exception. *)
Theorem intersect_some_iff (l1 l2 : segment) :
  (exists p, intersect l1 l2 = Some p) <->
  ~ zero_length l1 /\ ~ zero_length l2 /\ ~ denom l1 l2 == 0 /\
  0 <= param_a l1 l2 <= 1 /\ 0 <= param_b l1 l2 <= 1.
Proof.
  destruct l1 as [a1 b1 a2 b2], l2 as [c1 d1 c2 d2].
  unfold intersect, zero_length, param_a, param_b, denom; simpl.
  destruct (Qeq_bool a1 a2) eqn:E1, (Qeq_bool b1 b2) eqn:E2,
           (Qeq_bool c1 c2) eqn:E3, (Qeq_bool d1 d2) eqn:E4;
    simpl;
    repeat match goal with
    | H : Qeq_bool _ _ = true |- _ => apply Qeq_bool_iff in H
    | H : Qeq_bool _ _ = false |- _ => apply Qeq_bool_neq in H
    end;
    try (split; [intros [p Hp]; discriminate
                | intros (Hn1 & Hn2 & _); exfalso; tauto]).
  all: match goal with
       | |- context [Qeq_bool ?d 0] => destruct (Qeq_bool d 0) eqn:Ed
       end;
    [ apply Qeq_bool_iff in Ed;
      split; [intros [p Hp]; discriminate | intros (_ & _ & Hd & _); tauto]
    | apply Qeq_bool_neq in Ed ].
  all: match goal with
       | |- context [Qltb ?u 0 || Qltb 1 ?u || Qltb ?v 0 || Qltb 1 ?v] =>
           destruct (Qltb u 0) eqn:F1, (Qltb 1 u) eqn:F2,
                    (Qltb v 0) eqn:F3, (Qltb 1 v) eqn:F4
       end; simpl;
    repeat match goal with
    | H : Qltb _ _ = true |- _ => apply Qltb_iff in H
    | H : Qltb _ _ = false |- _ => apply Qltb_false_iff in H
    end;
    (split;
     [ intros [p Hp]; try discriminate; repeat split; tauto
     | intros (_ & _ & _ & [Ha1 Ha2] & [Hb1 Hb2]);
       first [ exfalso; eapply Qlt_not_le; eassumption
             | eexists; reflexivity ] ]).
Qed.

End SegmentsFacts.

Module GridFacts.
Import Grid.
Local Open Scope R_scope.

(** The offset table of the specification, indexed by the difference. *)
Lemma angleOffset_table (f1 f2 : Z) :
  families_ok f1 f2 ->
  (f2 = f1 + 1)%Z /\ angleOffset f1 f2 = Some (3 * PI / 5) \/
  (f2 = f1 + 2)%Z /\ angleOffset f1 f2 = Some (1 * PI / 5) \/
  (f2 = f1 + 3)%Z /\ angleOffset f1 f2 = Some (4 * PI / 5) \/
  (f2 = f1 + 4)%Z /\ angleOffset f1 f2 = Some (2 * PI / 5).
Proof.
  unfold families_ok, angleOffset; intros H.
  destruct (Z.eqb_spec (f1 + 1) f2); [left; split; [lia | reflexivity]|].
  destruct (Z.eqb_spec (f1 + 2) f2); [right; left; split; [lia | reflexivity]|].
  destruct (Z.eqb_spec (f1 + 3) f2);
    [right; right; left; split; [lia | reflexivity]|].
  destruct (Z.eqb_spec (f1 + 4) f2);
    [right; right; right; split; [lia | reflexivity]|].
  lia.
Qed.

Lemma dist_scaled (p q : pt) (s ang : R) :
  (s = 1 \/ s = -1) ->
  fst q - fst p = s * SCALE * cos ang ->
  snd q - snd p = s * SCALE * sin ang ->
  dist p q = SCALE.
Proof.
  intros Hs Hx Hy. unfold dist. rewrite Hx, Hy.
  replace (s * SCALE * cos ang * (s * SCALE * cos ang) +
           s * SCALE * sin ang * (s * SCALE * sin ang))
    with (SCALE * SCALE * (s * s) * (Rsqr (sin ang) + Rsqr (cos ang)))
    by (unfold Rsqr; ring).
  rewrite sin2_cos2.
  replace (s * s) with 1 by (destruct Hs; subst; ring).
  rewrite Rmult_1_r, Rmult_1_r.
  apply sqrt_square. unfold SCALE; lra.
Qed.

(** C4. Every tile [findRhomb] builds from an intersection of two lines of
    different families (line1 the lower one) has exactly four vertices and
    its four consecutive sides all have length [SCALE]. *)
Theorem findRhomb_rhombus (i : inter) :
  families_ok (family (line1 i)) (family (line2 i)) ->
  exists pts, findRhomb i = Some pts /\ length pts = 4%nat /\
              sides pts = [SCALE; SCALE; SCALE; SCALE].
Proof.
  intros Hf. unfold findRhomb.
  assert (exists off, angleOffset (family (line1 i)) (family (line2 i)) = Some off)
    as [off Hoff].
  { destruct (angleOffset_table _ _ Hf) as [[_ E]|[[_ E]|[[_ E]|[_ E]]]];
      rewrite E; eauto. }
  rewrite Hoff. eexists; split; [reflexivity|]. split; [reflexivity|].
  unfold sides; simpl.
  set (a1 := angle (line2 i)).
  repeat f_equal.
  - apply (dist_scaled _ _ 1 a1); [left; reflexivity | simpl; ring | simpl; ring].
  - apply (dist_scaled _ _ 1 (off + a1)); [left; reflexivity | simpl; ring | simpl; ring].
  - apply (dist_scaled _ _ (-1) a1); [right; reflexivity | simpl; ring | simpl; ring].
  - apply (dist_scaled _ _ (-1) (off + a1)); [right; reflexivity | simpl; ring | simpl; ring].
Qed.

Lemma findRhomb_rhombus_witness :
  families_ok 0 1 /\
  exists pts, findRhomb (mkInter 0 0 (gridLine 0 0) (gridLine 1 0)) = Some pts /\
              length pts = 4%nat /\ sides pts = [SCALE; SCALE; SCALE; SCALE].
Proof.
  split.
  - unfold families_ok; lia.
  - apply (findRhomb_rhombus (mkInter 0 0 (gridLine 0 0) (gridLine 1 0))).
    unfold families_ok; cbn; lia.
Defined.

End GridFacts.

Module GridPerp.
Import Grid GridFacts.
Local Open Scope R_scope.

Lemma getAngle_perp (x1 y1 x2 y2 x3 y3 x4 y4 : R) :
  (x2 - x1) * (x4 - x3) + (y2 - y1) * (y4 - y3) = 0 ->
  getAngleBetweenLines x1 y1 x2 y2 x3 y3 x4 y4 = 90.
Proof.
  intros H. unfold getAngleBetweenLines; cbn [fst snd].
  rewrite H. unfold Rdiv. rewrite Rmult_0_l, acos_0.
  replace (PI / 2 * 180 * / PI) with 90 by (field; apply PI_neq0).
  destruct (Rlt_dec 90 90); [lra | reflexivity].
Qed.

(** [theta1 - (off + theta2)] is a multiple of [PI] for every entry of the
    offset table. *)
Lemma table_angle (f1 f2 : Z) (off : R) :
  families_ok f1 f2 -> angleOffset f1 f2 = Some off ->
  sin (IZR f1 * TWO_PI / 5) * cos (off + IZR f2 * TWO_PI / 5) -
  cos (IZR f1 * TWO_PI / 5) * sin (off + IZR f2 * TWO_PI / 5) = 0.
Proof.
  intros Hf Ho. rewrite <- sin_minus. unfold TWO_PI.
  destruct (angleOffset_table _ _ Hf) as [[E F]|[[E F]|[[E F]|[E F]]]];
    rewrite F in Ho; injection Ho as <-; subst f2; rewrite plus_IZR.
  - replace (IZR f1 * (2 * PI) / 5 - (3 * PI / 5 + (IZR f1 + 1) * (2 * PI) / 5))
      with (- PI) by field.
    rewrite sin_neg, sin_PI; ring.
  - replace (IZR f1 * (2 * PI) / 5 - (1 * PI / 5 + (IZR f1 + 2) * (2 * PI) / 5))
      with (- PI) by field.
    rewrite sin_neg, sin_PI; ring.
  - replace (IZR f1 * (2 * PI) / 5 - (4 * PI / 5 + (IZR f1 + 3) * (2 * PI) / 5))
      with (- (2 * PI)) by field.
    rewrite sin_neg, sin_2PI; ring.
  - replace (IZR f1 * (2 * PI) / 5 - (2 * PI / 5 + (IZR f1 + 4) * (2 * PI) / 5))
      with (- (2 * PI)) by field.
    rewrite sin_neg, sin_2PI; ring.
Qed.

(** C5. For every intersection of a line of family [f1] with a line of a
    higher family [f2] (difference 1, 2, 3 or 4), edge (v0,v1) of the tile
    [findRhomb] builds is perpendicular to line2's segment, edge (v1,v2) is
    perpendicular to line1's segment, and the consistency check of
    [findRhomb] passes. *)
Theorem findRhomb_perpendicular (f1 n1 f2 n2 : Z) (x y : R) :
  families_ok f1 f2 ->
  let i := mkInter x y (gridLine f1 n1) (gridLine f2 n2) in
  exists pts, findRhomb i = Some pts /\
    dot (vsub (nth 1 pts (0, 0)) (nth 0 pts (0, 0))) (seg_dir (line2 i)) = 0 /\
    dot (vsub (nth 2 pts (0, 0)) (nth 1 pts (0, 0))) (seg_dir (line1 i)) = 0 /\
    isPerpendicular i pts = true.
Proof.
  intros Hf i.
  assert (exists off, angleOffset f1 f2 = Some off) as [off Hoff].
  { destruct (angleOffset_table _ _ Hf) as [[_ E]|[[_ E]|[[_ E]|[_ E]]]];
      rewrite E; eauto. }
  assert (Hs := table_angle _ _ _ Hf Hoff).
  unfold findRhomb. subst i. cbn [line1 line2].
  change (family (gridLine f1 n1)) with f1.
  change (family (gridLine f2 n2)) with f2. rewrite Hoff.
  eexists; split; [reflexivity|].
  unfold isPerpendicular, dot, seg_dir, vsub, vadd, vmult, gridLine, SCALE,
    GRID_SIZE; cbn [nth fst snd angle lx1 ly1 lx2 ly2 line1 line2].
  repeat split.
  - ring.
  - lra.
  - rewrite getAngle_perp by ring.
    rewrite getAngle_perp by lra.
    unfold Rltb. rewrite Rminus_diag, Rabs_R0.
    destruct (Rlt_dec 0 (1 / 1000)); [reflexivity | lra].
Qed.

Lemma findRhomb_perpendicular_witness :
  families_ok 0 3 /\
  (let i := mkInter 0 0 (gridLine 0 0) (gridLine 3 1) in
   exists pts, findRhomb i = Some pts /\
    dot (vsub (nth 1 pts (0, 0)) (nth 0 pts (0, 0))) (seg_dir (line2 i)) = 0 /\
    dot (vsub (nth 2 pts (0, 0)) (nth 1 pts (0, 0))) (seg_dir (line1 i)) = 0 /\
    isPerpendicular i pts = true).
Proof.
  split.
  - unfold families_ok; lia.
  - apply (findRhomb_perpendicular 0 0 3 1 0 0). unfold families_ok; lia.
Defined.

End GridPerp.

Module GraphFacts.
Import Grid Graph.
Local Open Scope R_scope.

Definition bucketOf (d : Direction) (p : list (nat * R) * list (nat * R)) :=
  match d with forward => fst p | backward => snd p end.

Definition cdist (x y : R) (c : cand) : R :=
  sqrt ((cx c - x) * (cx c - x) + (cy c - y) * (cy c - y)).

Definition cproj (x y : R) (u : pt) (c : cand) : R :=
  (cx c - x) * fst u + (cy c - y) * snd u.

Definition inBucket (d : Direction) (p : R) : Prop :=
  match d with
  | forward => EPSILON < p
  | backward => ~ EPSILON < p /\ p < - EPSILON
  end.

Lemma ex_in_cons {A} (P : A -> Prop) (c : A) (l : list A) :
  (exists c', In c' (c :: l) /\ P c') <-> P c \/ exists c', In c' l /\ P c'.
Proof.
  split.
  - intros (c' & [E|H] & HP); [subst; left; exact HP | right; eauto].
  - intros [HP | (c' & H & HP)]; [exists c; simpl; auto | exists c'; simpl; auto].
Qed.

Lemma classify_spec (x y : R) (u : pt) (cs : list cand) d e :
  In e (bucketOf d (classify x y u cs)) <->
  exists c, In c cs /\ e = (cindex c, cdist x y c) /\
            ~ cdist x y c < EPSILON /\ inBucket d (cproj x y u c).
Proof.
  induction cs as [|c cs IH].
  - destruct d; simpl; split; try tauto; intros (c & [] & _).
  - rewrite ex_in_cons, <- IH. simpl.
    destruct (classify x y u cs) as [fw bw].
    unfold cdist, cproj.
    destruct (Rlt_dec _ EPSILON) as [Hlt|Hge];
      [|destruct (Rlt_dec EPSILON _) as [Hf|Hnf];
        [|destruct (Rlt_dec _ (- EPSILON)) as [Hb|Hnb]]];
      destruct d; simpl; intuition.
Qed.

Lemma closest_spec (l : list (nat * R)) (b : nat * R) :
  In (closest b l) (b :: l) /\
  forall e, In e (b :: l) -> snd (closest b l) <= snd e.
Proof.
  revert b; induction l as [|e l IH]; intros b; simpl.
  - split; [left; reflexivity | intros e [E|[]]; subst; lra].
  - destruct (Rlt_dec (snd e) (snd b)) as [Hlt|Hge].
    + destruct (IH e) as [Hin Hmin]. split.
      * destruct Hin as [E|H]; [right; left; exact E | right; right; exact H].
      * intros e' [E|[E|H]]; subst.
        -- specialize (Hmin e (or_introl eq_refl)); lra.
        -- apply Hmin; left; reflexivity.
        -- apply Hmin; right; exact H.
    + destruct (IH b) as [Hin Hmin]. split.
      * destruct Hin as [E|H]; [left; exact E | right; right; exact H].
      * intros e' [E|[E|H]]; subst.
        -- apply Hmin; left; reflexivity.
        -- specialize (Hmin b (or_introl eq_refl)); lra.
        -- apply Hmin; right; exact H.
Qed.

Lemma sortedHead_spec (l : list (nat * R)) (k : nat) :
  sortedHead l = Some k ->
  exists dk, In (k, dk) l /\ forall e, In e l -> dk <= snd e.
Proof.
  destruct l as [|b l]; simpl; [discriminate|]. intros E; injection E as <-.
  destruct (closest_spec l b) as [Hin Hmin].
  exists (snd (closest b l)). rewrite <- surjective_pairing. auto.
Qed.

Lemma sortedHead_nonempty (l : list (nat * R)) e :
  In e l -> exists k, sortedHead l = Some k.
Proof. destruct l; simpl; [tauto | eauto]. Qed.

Lemma findClosest_spec (x y : R) (L : gline) (cs : list cand) k d :
  In (k, d) (findClosestNeighborsOnLine x y L cs) <->
  sortedHead (bucketOf d (classify x y (lineDir L) cs)) = Some k.
Proof.
  assert (E : findClosestNeighborsOnLine x y L cs =
    (let '(fw, bw) := classify x y (lineDir L) cs in
     match sortedHead fw with Some k => [(k, forward)] | None => [] end ++
     match sortedHead bw with Some k => [(k, backward)] | None => [] end))
    by (destruct cs; reflexivity).
  rewrite E. destruct (classify x y (lineDir L) cs) as [fw bw].
  destruct d; simpl;
    destruct (sortedHead fw) as [a|], (sortedHead bw) as [b|]; simpl;
    (split; [intros H; repeat destruct H as [H|H]; try contradiction; congruence
            | intros H; inversion H; subst; auto]).
Qed.

Lemma in_indexed_from {A} (l : list A) (s j : nat) (t : A) :
  In (j, t) (combine (seq s (length l)) l) <->
  (s <= j)%nat /\ nth_error l (j - s) = Some t.
Proof.
  revert s; induction l as [|a l IH]; intros s; simpl.
  - split; [tauto | intros [_ H]; destruct (j - s)%nat; discriminate].
  - rewrite IH. split.
    + intros [E|[H1 H2]].
      * injection E as -> ->. rewrite Nat.sub_diag. split; [lia | reflexivity].
      * split; [lia|]. replace (j - s)%nat with (S (j - S s)) by lia. exact H2.
    + intros [H1 H2]. destruct (Nat.eq_dec j s) as [->|Hne].
      * rewrite Nat.sub_diag in H2. injection H2 as ->. left; reflexivity.
      * right. split; [lia|].
        replace (j - s)%nat with (S (j - S s)) in H2 by lia. exact H2.
Qed.

Lemma in_indexed {A} (l : list A) (j : nat) (t : A) :
  In (j, t) (indexed l) <-> nth_error l j = Some t.
Proof.
  unfold indexed. rewrite in_indexed_from, Nat.sub_0_r. split; [tauto|].
  intros H; split; [lia | exact H].
Qed.

Lemma nth_error_indexed_from {A} (l : list A) (s i : nat) :
  nth_error (combine (seq s (length l)) l) i =
  option_map (fun t => (s + i, t)%nat) (nth_error l i).
Proof.
  revert s i; induction l as [|a l IH]; intros s i; simpl.
  - destruct i; reflexivity.
  - destruct i as [|i]; simpl.
    + rewrite Nat.add_0_r; reflexivity.
    + rewrite IH. destruct (nth_error l i); simpl; [|reflexivity].
      do 2 f_equal. lia.
Qed.

Lemma nth_buildRhombGraph (ts : list inter) (i : nat) :
  nth i (buildRhombGraph ts) [] =
  match nth_error ts i with Some t => adjacencyOf ts i t | None => [] end.
Proof.
  unfold buildRhombGraph.
  destruct (nth_error (map (fun it => adjacencyOf ts (fst it) (snd it)) (indexed ts)) i)
    as [a|] eqn:E.
  - rewrite (nth_error_nth _ _ _ E).
    rewrite nth_error_map in E. unfold indexed in E.
    rewrite nth_error_indexed_from in E.
    destruct (nth_error ts i); simpl in E; congruence.
  - rewrite nth_overflow by (apply nth_error_None; exact E).
    rewrite nth_error_map in E. unfold indexed in E.
    rewrite nth_error_indexed_from in E.
    destruct (nth_error ts i); simpl in E; congruence.
Qed.

Lemma in_candidatesOn (ts : list inter) (i : nat) (L : gline) (c : cand) :
  In c (candidatesOn ts i L) <->
  exists j t, nth_error ts j = Some t /\ j <> i /\
    (sameLine (line1 t) L || sameLine (line2 t) L) = true /\
    c = mkCand j (ix t) (iy t).
Proof.
  unfold candidatesOn. rewrite in_map_iff. split.
  - intros ([j t] & <- & H). apply filter_In in H as [H1 H2].
    apply in_indexed in H1. simpl in *.
    apply andb_true_iff in H2 as [H2 H3].
    exists j, t. repeat split; auto.
    apply negb_true_iff, Nat.eqb_neq in H2; exact H2.
  - intros (j & t & H1 & H2 & H3 & ->). exists (j, t). split; [reflexivity|].
    apply filter_In. split; [apply in_indexed; exact H1|]. simpl.
    rewrite H3. apply andb_true_iff; split; [|reflexivity].
    apply negb_true_iff, Nat.eqb_neq; exact H2.
Qed.

Lemma in_adjacencyOf (ts : list inter) (i : nat) (t : inter) (a : adj) :
  In a (adjacencyOf ts i t) <->
  exists L, In L (linesOf t) /\ sharedLine a = L /\
    sortedHead (bucketOf (direction a)
      (classify (ix t) (iy t) (lineDir L) (candidatesOn ts i L))) = Some (neighborIndex a).
Proof.
  unfold adjacencyOf. rewrite in_app_iff, !in_map_iff. split.
  - intros [([k d] & <- & H) | ([k d] & <- & H)];
      apply findClosest_spec in H; simpl.
    + exists (line1 t); simpl; auto.
    + exists (line2 t); simpl; auto.
  - destruct a as [k S d]; simpl. intros (L & [<-|[<-|[]]] & <- & H).
    + left. exists (k, d). split; [reflexivity|]. apply findClosest_spec; exact H.
    + right. exists (k, d). split; [reflexivity|]. apply findClosest_spec; exact H.
Qed.

Lemma sameLine_refl (L : gline) : sameLine L L = true.
Proof. unfold sameLine. rewrite !Z.eqb_refl. reflexivity. Qed.

(** For points on a line, the Euclidean distance is the absolute value of
    the projection on the line's unit direction. *)
Lemma dist_proj (L : gline) (px py qx qy : R) :
  0 < (lx2 L - lx1 L) * (lx2 L - lx1 L) + (ly2 L - ly1 L) * (ly2 L - ly1 L) ->
  on_line (px, py) L -> on_line (qx, qy) L ->
  sqrt ((qx - px) * (qx - px) + (qy - py) * (qy - py)) =
  Rabs ((qx - px) * fst (lineDir L) + (qy - py) * snd (lineDir L)).
Proof.
  unfold on_line, lineDir; simpl. intros Hnd Hp Hq.
  set (vx := lx2 L - lx1 L) in *. set (vy := ly2 L - ly1 L) in *.
  set (dx := qx - px). set (dy := qy - py).
  assert (Hc : dx * vy - dy * vx = 0) by (unfold dx, dy; lra).
  set (s := sqrt (vx * vx + vy * vy)).
  assert (Hs : 0 < s) by (apply sqrt_lt_R0; exact Hnd).
  assert (Hss : s * s = vx * vx + vy * vy) by (apply sqrt_sqrt; lra).
  rewrite <- sqrt_Rsqr_abs. f_equal. unfold Rsqr.
  replace ((dx * (vx / s) + dy * (vy / s)) * (dx * (vx / s) + dy * (vy / s)))
    with ((dx * vx + dy * vy) * (dx * vx + dy * vy) / (s * s)) by (field; lra).
  replace ((dx * vx + dy * vy) * (dx * vx + dy * vy))
    with ((dx * dx + dy * dy) * (vx * vx + vy * vy) - (dx * vy - dy * vx) * (dx * vy - dy * vx))
    by ring.
  rewrite Hc, Hss. field. lra.
Qed.

Lemma sqrt_gt_eps (v : R) : EPSILON * EPSILON < v -> EPSILON < sqrt v.
Proof.
  intros H. unfold EPSILON in *.
  assert (sqrt (1 / 1000 * (1 / 1000)) < sqrt v) by (apply sqrt_lt_1; lra).
  rewrite sqrt_square in H0 by lra. exact H0.
Qed.

Ltac rabs_cases :=
  unfold Rabs in *;
  repeat match goal with
  | |- context [Rcase_abs ?x] => destruct (Rcase_abs x)
  | H : context [Rcase_abs ?x] |- _ => destruct (Rcase_abs x)
  end.

Section Symmetry.
Variable ts : list inter.
Hypothesis Hcoh : lines_coherent ts.
Hypothesis Hon : points_on_lines ts.
Hypothesis Hnd : nondegenerate ts.
Hypothesis Hsep : separated ts.

Lemma shares_line (j : nat) (tj : inter) (S : gline) (ti : inter) :
  In ti ts -> In S (linesOf ti) -> nth_error ts j = Some tj ->
  (sameLine (line1 tj) S || sameLine (line2 tj) S) = true -> In S (linesOf tj).
Proof.
  intros Hi HS Hj Hsm. apply nth_error_In in Hj.
  apply orb_true_iff in Hsm as [E|E].
  - rewrite <- (Hcoh tj ti (line1 tj) S Hj Hi (or_introl eq_refl) HS E).
    left; reflexivity.
  - rewrite <- (Hcoh tj ti (line2 tj) S Hj Hi (or_intror (or_introl eq_refl)) HS E).
    right; left; reflexivity.
Qed.

Lemma on_S_shares (t : inter) (S : gline) :
  In S (linesOf t) -> (sameLine (line1 t) S || sameLine (line2 t) S) = true.
Proof.
  intros [<-|[<-|[]]]; rewrite sameLine_refl; [reflexivity|apply orb_true_r].
Qed.

(** The neighbour found in direction [d] on a line sees the tile back as
    its neighbour in the opposite direction on the same line. *)
Lemma closest_swap (i : nat) (ti : inter) (j : nat) (S : gline) (d : Direction) :
  nth_error ts i = Some ti -> In S (linesOf ti) ->
  sortedHead (bucketOf d
    (classify (ix ti) (iy ti) (lineDir S) (candidatesOn ts i S))) = Some j ->
  exists tj, nth_error ts j = Some tj /\ In S (linesOf tj) /\
  sortedHead (bucketOf (opposite d)
    (classify (ix tj) (iy tj) (lineDir S) (candidatesOn ts j S))) = Some i.
Proof.
  intros Hi HS Hj.
  apply sortedHead_spec in Hj as (dj & Hjin & Hjmin).
  apply classify_spec in Hjin as (c & Hc & Ec & Hdj & Hbj).
  apply in_candidatesOn in Hc as (j' & tj & Htj & Hji & Hsh & ->).
  simpl in Ec. injection Ec as Ej Edj. subst j' dj.
  assert (HinTi : In ti ts) by (eapply nth_error_In; eauto).
  assert (HinTj : In tj ts) by (eapply nth_error_In; eauto).
  assert (HSj : In S (linesOf tj)) by exact (shares_line j tj S ti HinTi HS Htj Hsh).
  exists tj. split; [exact Htj|]. split; [exact HSj|].
  assert (Hci : In (mkCand i (ix ti) (iy ti)) (candidatesOn ts j S)).
  { apply in_candidatesOn. exists i, ti. repeat split; auto. apply on_S_shares; auto. }
  assert (HndS := Hnd ti S HinTi HS).
  assert (Dij := dist_proj S _ _ _ _ HndS (Hon ti S HinTi HS) (Hon tj S HinTj HSj)).
  assert (Dji := dist_proj S _ _ _ _ HndS (Hon tj S HinTj HSj) (Hon ti S HinTi HS)).
  unfold cdist, cproj in *; cbn [cx cy cindex] in *.
  set (u := lineDir S) in *.
  set (a := (ix tj - ix ti) * fst u + (iy tj - iy ti) * snd u) in *.
  assert (Eji : (ix ti - ix tj) * fst u + (iy ti - iy tj) * snd u = - a)
    by (unfold a; ring).
  rewrite Eji, Rabs_Ropp in Dji.
  rewrite Dij in Hdj, Hjmin.
  assert (Hbi : In (i, sqrt ((ix ti - ix tj) * (ix ti - ix tj) + (iy ti - iy tj) * (iy ti - iy tj)))
                   (bucketOf (opposite d) (classify (ix tj) (iy tj) u (candidatesOn ts j S)))).
  { apply classify_spec. eexists; split; [exact Hci|]. split; [reflexivity|].
    unfold cdist, cproj; cbn [cx cy]. rewrite Dji, Eji. split; [exact Hdj|].
    destruct d; cbn [inBucket opposite] in *; unfold EPSILON in *;
      [split; [intro; lra | lra] | destruct Hbj; lra]. }
  destruct (sortedHead_nonempty _ _ Hbi) as [k Hk]. rewrite Hk. f_equal.
  apply sortedHead_spec in Hk as (dk & Hkin & Hkmin).
  specialize (Hkmin _ Hbi); simpl in Hkmin. rewrite Dji in Hkmin.
  apply classify_spec in Hkin as (c' & Hc' & Ec' & Hdk & Hbk).
  apply in_candidatesOn in Hc' as (k' & tk & Htk & Hkj & Hshk & ->).
  simpl in Ec'. injection Ec' as Ek Edk. subst k' dk.
  destruct (Nat.eq_dec k i) as [|Hki]; [assumption|exfalso].
  assert (HinTk : In tk ts) by (eapply nth_error_In; eauto).
  assert (HSk : In S (linesOf tk)) by exact (shares_line k tk S tj HinTj HSj Htk Hshk).
  assert (Hck : In (mkCand k (ix tk) (iy tk)) (candidatesOn ts i S)).
  { apply in_candidatesOn. exists k, tk. repeat split; auto. }
  assert (Hfar := sqrt_gt_eps _ (Hsep i k ti tk S (not_eq_sym Hki) Hi Htk HS Hshk)).
  assert (Djk := dist_proj S _ _ _ _ HndS (Hon tj S HinTj HSj) (Hon tk S HinTk HSk)).
  assert (Dik := dist_proj S _ _ _ _ HndS (Hon ti S HinTi HS) (Hon tk S HinTk HSk)).
  unfold cdist, cproj in *; cbn [cx cy cindex] in *. fold u in Djk, Dik.
  set (b := (ix tk - ix tj) * fst u + (iy tk - iy tj) * snd u) in *.
  assert (Eik : (ix tk - ix ti) * fst u + (iy tk - iy ti) * snd u = a + b)
    by (unfold a, b; ring).
  rewrite Eik in Dik. rewrite Djk in Hkmin. rewrite Dik in Hfar.
  assert (Hk_in : In (k, sqrt ((ix tk - ix ti) * (ix tk - ix ti) + (iy tk - iy ti) * (iy tk - iy ti)))
                     (bucketOf d (classify (ix ti) (iy ti) u (candidatesOn ts i S)))).
  { apply classify_spec. eexists; split; [exact Hck|]. split; [reflexivity|].
    unfold cdist, cproj; cbn [cx cy]. rewrite Dik, Eik. split; [lra|].
    destruct d; cbn [inBucket opposite] in *; unfold EPSILON in *; rabs_cases;
      first [lra | destruct Hbj; lra | destruct Hbk; lra
            | split; [intro|]; destruct Hbj; lra]. }
  specialize (Hjmin _ Hk_in); simpl in Hjmin. rewrite Dik in Hjmin.
  destruct d; cbn [inBucket opposite] in *; unfold EPSILON in *; rabs_cases;
    first [lra | destruct Hbj; lra | destruct Hbk; lra].
Qed.

End Symmetry.

Lemma sample_coherent : lines_coherent GraphSample.sample_tiles.
Proof.
  intros a b L M Ha Hb HL HM E. simpl in *.
  repeat match goal with
         | H : _ \/ _ |- _ => destruct H
         | H : False |- _ => destruct H
         end; subst; try reflexivity; vm_compute in E; discriminate.
Qed.

Lemma sample_on_lines : points_on_lines GraphSample.sample_tiles.
Proof.
  intros t L Ht HL. simpl in *.
  repeat match goal with
         | H : _ \/ _ |- _ => destruct H
         | H : False |- _ => destruct H
         end; subst; unfold on_line; simpl; ring.
Qed.

Lemma sample_nondegenerate : nondegenerate GraphSample.sample_tiles.
Proof.
  intros t L Ht HL. simpl in *.
  repeat match goal with
         | H : _ \/ _ |- _ => destruct H
         | H : False |- _ => destruct H
         end; subst; simpl; lra.
Qed.

Lemma sample_separated : separated GraphSample.sample_tiles.
Proof.
  intros a b ta tb L Hab Ha Hb HL Hs.
  destruct a as [|[|[|a]]]; destruct b as [|[|[|b]]]; simpl in Ha, Hb;
    try discriminate; try (exfalso; apply Hab; reflexivity);
    injection Ha as <-; injection Hb as <-; unfold EPSILON; simpl; lra.
Qed.

(** C3. Under the genericity conditions of a regular pentagrid (each grid
    line is one object, crossings lie on their lines, segments have
    positive length, distinct crossings on a common line are more than
    [EPSILON] apart), the graph built by [buildRhombGraph] is symmetric:
    if [j] is in [i]'s list with shared line [S] and direction [d], then
    [i] is in [j]'s list with the same line [S] and the opposite
    direction. *)
Theorem buildRhombGraph_symmetric (ts : list inter) :
  lines_coherent ts -> points_on_lines ts -> nondegenerate ts -> separated ts ->
  symmetric (buildRhombGraph ts).
Proof.
  intros Hcoh Hon Hnd Hsep i j S d H.
  rewrite nth_buildRhombGraph in *.
  destruct (nth_error ts i) as [ti|] eqn:Hi; [|contradiction].
  apply in_adjacencyOf in H as (L & HL & ES & Hh). simpl in ES, Hh. subst L.
  destruct (closest_swap ts Hcoh Hon Hnd Hsep i ti j S d Hi HL Hh)
    as (tj & Htj & HSj & Hback).
  rewrite Htj. apply in_adjacencyOf. exists S. simpl. auto.
Qed.

Lemma buildRhombGraph_symmetric_witness :
  lines_coherent GraphSample.sample_tiles /\ points_on_lines GraphSample.sample_tiles /\
  nondegenerate GraphSample.sample_tiles /\ separated GraphSample.sample_tiles /\
  symmetric (buildRhombGraph GraphSample.sample_tiles).
Proof.
  split; [exact sample_coherent|]. split; [exact sample_on_lines|].
  split; [exact sample_nondegenerate|]. split; [exact sample_separated|].
  exact (buildRhombGraph_symmetric GraphSample.sample_tiles sample_coherent
           sample_on_lines sample_nondegenerate sample_separated).
Defined.

End GraphFacts.

Module AlignFacts.
Import Grid Graph Align.
Local Open Scope R_scope.

Lemma length_upd {A} (l : list A) k x : length (upd l k x) = length l.
Proof. revert k; induction l as [|y l IH]; intros [|k]; simpl; auto. Qed.

Lemma nth_error_upd_eq {A} (l : list A) k x :
  (k < length l)%nat -> nth_error (upd l k x) k = Some x.
Proof.
  revert k; induction l as [|y l IH]; intros [|k] H; simpl in *; try lia; auto.
  apply IH; lia.
Qed.

Lemma nth_error_upd_neq {A} (l : list A) k m x :
  m <> k -> nth_error (upd l k x) m = nth_error l m.
Proof.
  revert k m; induction l as [|y l IH]; intros [|k] [|m] H; simpl; auto;
    try (exfalso; lia).
Qed.

Lemma upd_nth_error {A} (l : list A) k x :
  nth_error l k = None -> upd l k x = l.
Proof.
  revert k; induction l as [|y l IH]; intros [|k] H; simpl in *; try discriminate; auto.
  rewrite IH; auto.
Qed.

(** C6. When the popped tile [T = s] has unaligned neighbours
    [data :: more], [stepAlignment] handles only the first one, [N]: [N]
    is pushed at the back of the queue and [T] is put back at the FRONT
    of the queue once per remaining neighbour; no tile other than [N]
    changes. *)
Theorem stepAlignment_queue (st st' : state) (s : nat) (rest : list nat)
    (data : adj) (more : list adj) :
  alignmentQueue st = s :: rest ->
  getUnalignedAdjacentTiles (rhombPoints st) (rhombGraph st) s = Some (data :: more) ->
  stepAlignment st = Some st' ->
  alignmentQueue st' = repeat s (length more) ++ rest ++ [neighborIndex data] /\
  (forall m, m <> neighborIndex data ->
             nth_error (rhombPoints st') m = nth_error (rhombPoints st) m).
Proof.
  intros Hq Hadj Hstep. unfold stepAlignment in Hstep.
  rewrite Hq, Hadj in Hstep.
  destruct (nth_error (rhombPoints st) (neighborIndex data)) as [at0|]; [|discriminate].
  destruct (if locked at0 then _ else _) as [at1|]; [|discriminate].
  injection Hstep as <-. simpl. split; [reflexivity|].
  intros m Hm. apply nth_error_upd_neq; exact Hm.
Qed.

Lemma stepAlignment_queue_witness :
  exists st',
    alignmentQueue AlignSamples.queueState = [0; 3]%nat /\
    getUnalignedAdjacentTiles (rhombPoints AlignSamples.queueState)
      (rhombGraph AlignSamples.queueState) 0 =
      Some [mkAdj 1 GraphSample.La forward; mkAdj 2 GraphSample.Lb forward] /\
    stepAlignment AlignSamples.queueState = Some st' /\
    (alignmentQueue st' = repeat 0%nat 1 ++ [3%nat] ++ [1%nat] /\
     (forall m, m <> 1%nat ->
        nth_error (rhombPoints st') m = nth_error (rhombPoints AlignSamples.queueState) m)).
Proof.
  eexists. split; [reflexivity|]. split; [reflexivity|]. split; [reflexivity|].
  apply (stepAlignment_queue AlignSamples.queueState _ 0 [3%nat]
           (mkAdj 1 GraphSample.La forward) [mkAdj 2 GraphSample.Lb forward]);
    reflexivity.
Defined.

(** C6 (counterexample). From the queue [[0; 3]] with tile 0 having two
    unaligned neighbours, the queue becomes [[0; 3; 1]]: tile 0 is
    re-enqueued in front of tile 3, not behind it. *)
Lemma stepAlignment_requeues_front :
  exists st', stepAlignment AlignSamples.queueState = Some st' /\
    alignmentQueue st' = [0; 3; 1]%nat /\
    ~ (exists tl, alignmentQueue st' = 3%nat :: tl).
Proof.
  eexists. split; [reflexivity|]. split; [reflexivity|].
  intros [tl H]. discriminate.
Qed.

Lemma restore_firstn (ps os ps' : list pt) :
  restore ps os = Some ps' -> ps' = firstn (length ps) os.
Proof.
  revert os ps'; induction ps as [|p ps IH]; intros [|o os] ps' H; simpl in *;
    try discriminate.
  - injection H as <-; reflexivity.
  - injection H as <-; reflexivity.
  - destruct (restore ps os) as [r|] eqn:E; simpl in H; [|discriminate].
    injection H as <-. rewrite (IH os r E). reflexivity.
Qed.

Lemma resetRhombuses_spec (ts ts' : list tile) :
  resetRhombuses ts = Some ts' ->
  Forall2 (fun t t' =>
    points t' = firstn (length (points t)) (originalPoints t) /\
    aligned t' = false /\ locked t' = locked t /\
    originalPoints t' = originalPoints t /\ intersection t' = intersection t) ts ts'.
Proof.
  revert ts'; induction ts as [|t ts IH]; intros ts' H; simpl in H.
  - injection H as <-. constructor.
  - destruct (restore (points t) (originalPoints t)) as [ps|] eqn:E1; [|discriminate].
    destruct (resetRhombuses ts) as [r|] eqn:E2; [|discriminate].
    injection H as <-. constructor; [|apply IH; reflexivity].
    simpl. repeat split; auto. apply restore_firstn; exact E1.
Qed.

(** C7. Pressing the button while [isAligned] resets: every tile's points
    become its [originalPoints] (the snapshot taken when the tile was
    created, index by index), [aligned] is cleared, the queue is emptied
    and both flags are cleared; [locked] is left as it was. *)
Theorem toggleAlignment_reset (st st' : state) :
  isAligned st = true -> toggleAlignment st = Some st' ->
  alignmentQueue st' = [] /\ isAligned st' = false /\ isAligning st' = false /\
  Forall2 (fun t t' =>
    points t' = firstn (length (points t)) (originalPoints t) /\
    aligned t' = false /\ locked t' = locked t) (rhombPoints st) (rhombPoints st').
Proof.
  intros Ha Ht. unfold toggleAlignment in Ht. rewrite Ha in Ht. simpl in Ht.
  destruct (resetRhombuses (rhombPoints st)) as [ts|] eqn:E; [|discriminate].
  injection Ht as <-. simpl. repeat split; auto.
  apply resetRhombuses_spec in E.
  eapply Forall2_impl; [|exact E]. simpl. tauto.
Qed.

Lemma toggleAlignment_reset_witness :
  exists st',
    map aligned (rhombPoints AlignSamples.alignedPair) = [true; true] /\
    isAligned AlignSamples.alignedPair = true /\
    toggleAlignment AlignSamples.alignedPair = Some st' /\
    map points (rhombPoints st') <> map points (rhombPoints AlignSamples.alignedPair) /\
    (alignmentQueue st' = [] /\ isAligned st' = false /\ isAligning st' = false /\
     Forall2 (fun t t' =>
       points t' = firstn (length (points t)) (originalPoints t) /\
       aligned t' = false /\ locked t' = locked t)
       (rhombPoints AlignSamples.alignedPair) (rhombPoints st')).
Proof.
  eexists. split; [reflexivity|]. split; [reflexivity|]. split; [reflexivity|].
  split; [simpl; intros H; injection H; intros; lra|].
  apply (toggleAlignment_reset AlignSamples.alignedPair); reflexivity.
Defined.

(** C7 (counterexample). Drag tile 0, align, then reset: after the reset
    the tile is still [locked]. *)
Lemma reset_keeps_locked :
  exists st', session AlignSamples.loneState AlignSamples.dragAlignReset = Some st' /\
    isAligned st' = false /\ alignmentQueue st' = [] /\
    map aligned (rhombPoints st') = [false] /\ map locked (rhombPoints st') = [true].
Proof.
  eexists. split; [reflexivity|]. repeat split; reflexivity.
Qed.

(** C1 (failing run). Drag tile 0 (it becomes locked), align, reset and
    align again: the second run is seeded with the locked tile 0 only, and
    when it completes tile 0 is not marked aligned. *)
Lemma locked_seed_not_aligned :
  (exists st, session AlignSamples.loneState (AlignSamples.dragAlignReset ++ [Toggle])
                = Some st /\ alignmentQueue st = [0%nat] /\ isAligning st = true) /\
  (exists st', session AlignSamples.loneState AlignSamples.dragAlignResetAlign = Some st' /\
    isAligned st' = true /\ isAligning st' = false /\ alignmentQueue st' = [] /\
    map aligned (rhombPoints st') = [false]).
Proof.
  split; eexists; split; try reflexivity; repeat split; reflexivity.
Qed.

End AlignFacts.

Module LockFacts.
Import Grid Graph Align.
Local Open Scope R_scope.

Lemma if_Rlt_true {A} (x y : R) (u v : A) :
  x < y -> (if Rlt_dec x y then u else v) = u.
Proof. intros H; destruct (Rlt_dec x y); [reflexivity | contradiction]. Qed.

Lemma if_Rlt_false {A} (x y : R) (u v : A) :
  ~ x < y -> (if Rlt_dec x y then u else v) = v.
Proof. intros H; destruct (Rlt_dec x y); [contradiction | reflexivity]. Qed.

Lemma sqrt_20 : sqrt ((10 - -10) * (10 - -10) + (0 - 0) * (0 - 0)) = 20.
Proof.
  replace ((10 - -10) * (10 - -10) + (0 - 0) * (0 - 0)) with (20 * 20) by lra.
  apply sqrt_square; lra.
Qed.

(** An edge parallel to the y axis makes a right angle with [La]. *)
Lemma angle_vertical (x1 y1 x2 y2 : R) :
  x2 - x1 = 0 -> y2 - y1 <> 0 ->
  getAngleBetweenLines x1 y1 x2 y2 (-10) 0 10 0 = 90.
Proof.
  intros Hx Hy. unfold getAngleBetweenLines. cbv beta zeta. cbn [fst snd].
  rewrite Hx, sqrt_20.
  assert (Hm1 : 0 < sqrt (0 * 0 + (y2 - y1) * (y2 - y1)))
    by (apply sqrt_lt_R0; nra).
  destruct (Req_EM_T (sqrt (0 * 0 + (y2 - y1) * (y2 - y1))) 0); [lra|].
  destruct (Req_EM_T 20 0); [lra|].
  replace ((0 * (10 - -10) + (y2 - y1) * (0 - 0)) /
           (sqrt (0 * 0 + (y2 - y1) * (y2 - y1)) * 20)) with 0 by (field; lra).
  rewrite (Rmin_right 1 0) by lra. rewrite (Rmax_right (-1) 0) by lra.
  rewrite acos_0.
  replace (PI / 2 * 180 / PI) with 90 by (field; apply PI_neq0).
  apply if_Rlt_false. unfold RIGHT_ANGLE; lra.
Qed.

(** An edge parallel to the x axis makes a null angle with [La]. *)
Lemma angle_horizontal (x1 y1 x2 y2 : R) :
  y2 - y1 = 0 -> x2 - x1 <> 0 ->
  getAngleBetweenLines x1 y1 x2 y2 (-10) 0 10 0 = 0.
Proof.
  intros Hy Hx. unfold getAngleBetweenLines. cbv beta zeta. cbn [fst snd].
  rewrite Hy, sqrt_20.
  replace ((x2 - x1) * (x2 - x1) + 0 * 0) with (Rsqr (x2 - x1)) by (unfold Rsqr; ring).
  rewrite sqrt_Rsqr_abs.
  assert (Ha : 0 < Rabs (x2 - x1)) by (apply Rabs_pos_lt; exact Hx).
  destruct (Req_EM_T (Rabs (x2 - x1)) 0); [lra|].
  destruct (Req_EM_T 20 0); [lra|].
  destruct (Rcase_abs (x2 - x1)) as [Hn|Hp].
  - rewrite (Rabs_left _ Hn).
    replace (((x2 - x1) * (10 - -10) + 0 * (0 - 0)) / (- (x2 - x1) * 20)) with (-1)
      by (field; lra).
    rewrite (Rmin_right 1 (-1)) by lra. rewrite (Rmax_right (-1) (-1)) by lra.
    replace (acos (-1)) with (PI - acos 1) by (rewrite <- acos_opp; f_equal; lra).
    rewrite acos_1, Rminus_0_r.
    replace (PI * 180 / PI) with 180 by (field; apply PI_neq0).
    rewrite if_Rlt_true by (unfold RIGHT_ANGLE; lra). ring.
  - rewrite (Rabs_right _ Hp).
    replace (((x2 - x1) * (10 - -10) + 0 * (0 - 0)) / ((x2 - x1) * 20)) with 1
      by (field; lra).
    rewrite (Rmin_right 1 1) by lra. rewrite (Rmax_right (-1) 1) by lra.
    rewrite acos_1.
    replace (0 * 180 / PI) with 0 by (field; apply PI_neq0).
    apply if_Rlt_false. unfold RIGHT_ANGLE; lra.
Qed.

Lemma lineDir_La : lineDir GraphSample.La = (1, 0).
Proof.
  unfold lineDir, GraphSample.La. cbn [lx1 ly1 lx2 ly2]. rewrite sqrt_20.
  f_equal; field.
Qed.

Ltac solve_cmp :=
  try unfold RIGHT_ANGLE; try unfold ANGLE_TOLERANCE; GraphFacts.rabs_cases; lra.

Ltac decide_ifs :=
  repeat first
    [ rewrite if_Rlt_true by solve_cmp
    | rewrite if_Rlt_false by solve_cmp ].

Ltac eval_angles :=
  repeat first
    [ rewrite angle_vertical by lra
    | rewrite angle_horizontal by lra ].

(** The offset that brings the unlocked square [tileAt 5 Lc] against
    [squareT] along [La]. *)
Lemma offset_pair :
  calculateAlignmentOffset (set_aligned AlignSamples.squareT true)
    (AlignSamples.tileAt 5 GraphSample.Lc) GraphSample.La forward = (-3, 0).
Proof.
  unfold calculateAlignmentOffset, findEdgeOnLine, perpEdges. rewrite lineDir_La.
  set (ga := getAngleBetweenLines).
  unfold set_aligned, AlignSamples.squareT, AlignSamples.tileAt,
    AlignSamples.sq, GraphSample.La. simpl. unfold ga.
  eval_angles. decide_ifs. simpl. decide_ifs. simpl.
  f_equal; field.
Qed.

(** The batch run on the two squares of [pairStart]: tile 1 is translated
    by [(-3, 0)] and both tiles are marked aligned. *)
Lemma batch_pair_run :
  alignRhombuses 3 [AlignSamples.squareT; AlignSamples.tileAt 5 GraphSample.Lc]
    AlignSamples.pairGraph =
  Some [set_aligned AlignSamples.squareT true;
        set_aligned (realignRhombus (AlignSamples.tileAt 5 GraphSample.Lc) (-3, 0)) true].
Proof. rewrite <- offset_pair. reflexivity. Qed.

(** C8. Every alignment step ([stepAlignment]) leaves the vertices of
    every locked tile unchanged (and keeps it locked), and the neighbour it
    visits is marked aligned, locked or not. (The batch [alignRhombuses]
    runs only in sketches where no tile is ever locked.) *)
Theorem stepAlignment_locked_frame (st st' : state) :
  stepAlignment st = Some st' ->
  (forall i t, nth_error (rhombPoints st) i = Some t -> locked t = true ->
     exists t', nth_error (rhombPoints st') i = Some t' /\
                points t' = points t /\ locked t' = true) /\
  (forall s rest data more, alignmentQueue st = s :: rest ->
     getUnalignedAdjacentTiles (rhombPoints st) (rhombGraph st) s = Some (data :: more) ->
     exists t', nth_error (rhombPoints st') (neighborIndex data) = Some t' /\
                aligned t' = true).
Proof.
  intros H. unfold stepAlignment in H.
  destruct (alignmentQueue st) as [|s0 rest0] eqn:Eq.
  - injection H as <-. split; [intros i t Ht Hl; exists t; auto|].
    intros s rest data more E; discriminate.
  - destruct (getUnalignedAdjacentTiles (rhombPoints st) (rhombGraph st) s0)
      as [[|data0 more0]|] eqn:Ea; try discriminate.
    + injection H as <-. split; [intros i t Ht Hl; exists t; auto|].
      intros s rest data more E E'. injection E as -> ->. congruence.
    + destruct (nth_error (rhombPoints st) (neighborIndex data0)) as [at0|] eqn:Ek;
        [|discriminate].
      assert (Hlt : (neighborIndex data0 < length (rhombPoints st))%nat)
        by (apply nth_error_Some; congruence).
      destruct (locked at0) eqn:El.
      * injection H as <-. simpl. split.
        -- intros i t Ht Hl.
           destruct (Nat.eq_dec i (neighborIndex data0)) as [->|Hne].
           ++ rewrite AlignFacts.nth_error_upd_eq by exact Hlt.
              rewrite Ek in Ht. injection Ht as <-.
              eexists; split; [reflexivity|]. simpl. auto.
           ++ rewrite AlignFacts.nth_error_upd_neq by exact Hne. eauto.
        -- intros s rest data more E E'. injection E as -> ->.
           rewrite Ea in E'. injection E' as -> ->.
           rewrite AlignFacts.nth_error_upd_eq by exact Hlt.
           eexists; split; reflexivity.
      * destruct (nth_error (rhombPoints st) s0) as [st0|]; [|discriminate].
        injection H as <-. simpl. split.
        -- intros i t Ht Hl.
           destruct (Nat.eq_dec i (neighborIndex data0)) as [->|Hne].
           ++ congruence.
           ++ rewrite AlignFacts.nth_error_upd_neq by exact Hne. eauto.
        -- intros s rest data more E E'. injection E as -> ->.
           rewrite Ea in E'. injection E' as -> ->.
           rewrite AlignFacts.nth_error_upd_eq by exact Hlt.
           eexists; split; reflexivity.
Qed.

Lemma stepAlignment_locked_frame_witness :
  exists st',
    stepAlignment AlignSamples.lockedPairState = Some st' /\
    ((forall i t, nth_error (rhombPoints AlignSamples.lockedPairState) i = Some t ->
        locked t = true ->
        exists t', nth_error (rhombPoints st') i = Some t' /\
                   points t' = points t /\ locked t' = true) /\
     (forall s rest data more, alignmentQueue AlignSamples.lockedPairState = s :: rest ->
        getUnalignedAdjacentTiles (rhombPoints AlignSamples.lockedPairState)
          (rhombGraph AlignSamples.lockedPairState) s = Some (data :: more) ->
        exists t', nth_error (rhombPoints st') (neighborIndex data) = Some t' /\
                   aligned t' = true)).
Proof.
  eexists. split; [reflexivity|].
  apply (stepAlignment_locked_frame AlignSamples.lockedPairState). reflexivity.
Defined.

End LockFacts.

Module TraceFacts.
Import Grid Graph Align Trace.
Local Open Scope R_scope.

Definition tile_ok (t : tile) : Prop :=
  exists c, points t = map (fun p => vadd p c) (originalPoints t).

(** The session invariant: every tile is a translate of its snapshot, the
    animation counter is below [visualizationFrames], an animation snapshot
    is a translate of the snapshot of the tile being animated, there is no
    snapshot while idle, and [isAligned] excludes [isAligning]. *)
Record Inv (s : vstate) : Prop := {
  inv_tiles : forall t, In t (tiles s) -> tile_ok t;
  inv_vp : (visualizationProgress s < visualizationFrames)%nat;
  inv_asp : forall a, animationStartPositions s = Some a ->
    exists k t c, currentlyAligning s = Some k /\ nth_error (tiles s) k = Some t /\
                  a = map (fun p => vadd p c) (originalPoints t);
  inv_idle : vAligning s = false -> animationStartPositions s = None;
  inv_modes : vAligned s = true -> vAligning s = false }.

Definition same_orig (l l' : list tile) : Prop :=
  Forall2 (fun t t' => originalPoints t' = originalPoints t) l l'.

Lemma in_upd {A} (l : list A) k (x t : A) : In t (upd l k x) -> In t l \/ t = x.
Proof.
  revert k; induction l as [|y l IH]; intros [|k] H; simpl in *; auto.
  - destruct H; auto.
  - destruct H as [H|H]; auto. destruct (IH k H); auto.
Qed.

Lemma same_orig_refl (l : list tile) : same_orig l l.
Proof. induction l; constructor; auto. Qed.

Lemma same_orig_upd (l : list tile) k x :
  (forall t, nth_error l k = Some t -> originalPoints x = originalPoints t) ->
  same_orig l (upd l k x).
Proof.
  revert k; induction l as [|y l IH]; intros [|k] H; simpl in *; constructor.
  - exact (H y eq_refl).
  - apply same_orig_refl.
  - reflexivity.
  - apply IH; exact H.
Qed.

Lemma same_orig_nth (l l' : list tile) k t :
  same_orig l l' -> nth_error l k = Some t ->
  exists t', nth_error l' k = Some t' /\ originalPoints t' = originalPoints t.
Proof.
  intros H; revert k; induction H as [|x y l l' Hxy H IH]; intros [|k] Hk;
    simpl in *; try discriminate.
  - injection Hk as <-. eauto.
  - eauto.
Qed.

Lemma Forall2_in_r {A B} (R : A -> B -> Prop) l l' y :
  Forall2 R l l' -> In y l' -> exists x, In x l /\ R x y.
Proof.
  induction 1 as [|x y' l l' Hxy H IH]; simpl; [tauto|].
  intros [<-|Hy]; [eauto|]. destruct (IH Hy) as (x' & Hx & Hr). eauto.
Qed.

Lemma map_shift_shift (os : list pt) (c d : pt) :
  map (fun p => vadd p d) (map (fun p => vadd p c) os) =
  map (fun p => vadd p (vadd c d)) os.
Proof.
  rewrite map_map. apply map_ext. intros [x y]. unfold vadd; simpl. f_equal; ring.
Qed.

Lemma map_shift_0 (os : list pt) : os = map (fun p => vadd p (0, 0)) os.
Proof.
  rewrite <- (map_id os) at 1. apply map_ext. intros [x y]. unfold vadd; simpl.
  f_equal; ring.
Qed.

Lemma tile_ok_set_aligned t b : tile_ok t -> tile_ok (set_aligned t b).
Proof. auto. Qed.

Lemma tile_ok_set_locked t b : tile_ok t -> tile_ok (set_locked t b).
Proof. auto. Qed.

Lemma tile_ok_shift t d : tile_ok t ->
  tile_ok (set_points t (map (fun p => vadd p d) (points t))).
Proof.
  intros [c Hc]. exists (vadd c d). simpl. rewrite Hc. apply map_shift_shift.
Qed.

Lemma tile_ok_translate t dx dy : tile_ok t -> tile_ok (translate t dx dy).
Proof.
  intros H. exact (tile_ok_shift t (dx, dy) H).
Qed.

Lemma interpolate_shift (os : list pt) (c1 c off : pt) (k : R) :
  interpolate (map (fun p => vadd p c1) os) (map (fun p => vadd p c) os) off k =
  Some (map (fun p => vadd p (fst c + fst off * k, snd c + snd off * k)) os).
Proof.
  induction os as [|p os IH]; simpl; [reflexivity|]. rewrite IH. simpl.
  do 2 f_equal. unfold vadd; simpl. f_equal; ring.
Qed.

Lemma tile_ok_nth (s : vstate) k t :
  Inv s -> nth_error (tiles s) k = Some t -> tile_ok t.
Proof. intros HI Hk. apply (inv_tiles s HI). eapply nth_error_In; exact Hk. Qed.

Lemma upd_tiles_ok (ts : list tile) k x :
  (forall t, In t ts -> tile_ok t) -> tile_ok x -> forall t, In t (upd ts k x) -> tile_ok t.
Proof. intros H Hx t Ht. destruct (in_upd ts k x t Ht) as [Ht' | ->]; auto. Qed.

Lemma step_inv (s s' : vstate) :
  Inv s -> vAligning s = true -> animationStartPositions s = None ->
  stepAlignmentV s = Some s' -> Inv s' /\ same_orig (tiles s) (tiles s').
Proof.
  intros HI Hal Hasp Hs. unfold stepAlignmentV in Hs.
  destruct (queue s) as [|i rest] eqn:Hq.
  - injection Hs as <-. split; [|apply same_orig_refl].
    constructor; simpl; try discriminate; auto.
    + exact (inv_tiles s HI).
    + exact (inv_vp s HI).
    + rewrite Hasp; discriminate.
  - destruct (getUnalignedAdjacentTiles (tiles s) (graph s) i) as [[|data more]|];
      try discriminate.
    + injection Hs as <-. split; [|apply same_orig_refl].
      destruct HI; constructor; simpl; auto.
    + destruct (nth_error (tiles s) (neighborIndex data)) as [at0|] eqn:Hat;
        [|discriminate].
      assert (Hok : tile_ok at0) by exact (tile_ok_nth s _ _ HI Hat).
      assert (Hlt : (neighborIndex data < length (tiles s))%nat)
        by (apply nth_error_Some; congruence).
      destruct (locked at0).
      * injection Hs as <-. split.
        -- constructor; simpl; try rewrite Hasp; try discriminate; auto.
           ++ apply upd_tiles_ok; [exact (inv_tiles s HI)|apply tile_ok_set_aligned; exact Hok].
           ++ unfold visualizationFrames; lia.
           ++ exact (inv_modes s HI).
        -- apply same_orig_upd. intros t Ht. rewrite Hat in Ht. injection Ht as <-.
           reflexivity.
      * destruct (nth_error (tiles s) i) as [st0|]; [|discriminate].
        destruct (showTrace s); injection Hs as <-; split.
        -- constructor; simpl; try discriminate.
           ++ apply upd_tiles_ok; [exact (inv_tiles s HI)|apply tile_ok_set_aligned; exact Hok].
           ++ unfold visualizationFrames; lia.
           ++ intros a Ha. injection Ha as <-. destruct Hok as [c Hc].
              exists (neighborIndex data), (set_aligned at0 true), c. split; [reflexivity|].
              split; [apply AlignFacts.nth_error_upd_eq; exact Hlt|exact Hc].
           ++ intros H; congruence.
           ++ exact (inv_modes s HI).
        -- apply same_orig_upd. intros t Ht. rewrite Hat in Ht. injection Ht as <-.
           reflexivity.
        -- constructor; simpl; try rewrite Hasp; try discriminate; auto.
           ++ apply upd_tiles_ok; [exact (inv_tiles s HI)|].
              apply tile_ok_set_aligned. apply tile_ok_shift. exact Hok.
           ++ unfold visualizationFrames; lia.
           ++ exact (inv_modes s HI).
        -- apply same_orig_upd. intros t Ht. rewrite Hat in Ht. injection Ht as <-.
           reflexivity.
Qed.

Lemma Inv_clear (s : vstate) : Inv s -> Inv (set_vis s None None None 0).
Proof.
  intros HI. destruct HI. constructor; simpl; try discriminate; auto.
  unfold visualizationFrames; lia.
Qed.

Lemma draw_inv (s s' : vstate) :
  Inv s -> drawV s = Some s' -> Inv s' /\ same_orig (tiles s) (tiles s').
Proof.
  intros HI Hs. unfold drawV in Hs.
  destruct (vAligning s) eqn:Hal;
    [|injection Hs as <-; split; [exact HI|apply same_orig_refl]].
  destruct (showTrace s) eqn:Htr, (currentlyAligning s) as [c|] eqn:Hca.
  - destruct (Nat.ltb (visualizationProgress s) visualizationFrames) eqn:Hlt.
    2: { apply Nat.ltb_ge in Hlt. pose proof (inv_vp s HI). lia. }
    destruct (nth_error (tiles s) c) as [rh|] eqn:Hrh; [|discriminate].
    match type of Hs with
    | context [interpolateAll ?ps ?a ?o ?k] =>
      destruct (interpolateAll ps a o k) as [ps'|] eqn:Hps; [|discriminate]
    end.
    assert (Hok : tile_ok (set_points rh ps')).
    { destruct (tile_ok_nth s c rh HI Hrh) as [c1 Hc1].
      unfold interpolateAll in Hps. destruct (points rh) as [|p0 ps0] eqn:Hpr.
      - injection Hps as <-. exists c1. exact Hc1.
      - destruct (animationStartPositions s) as [a|] eqn:Ha; [|discriminate].
        destruct (currentOffset s) as [o|]; [|discriminate].
        cbv beta iota in Hps.
        destruct (inv_asp s HI a Ha) as (k0 & t & c0 & Hk0 & Ht & Ha').
        rewrite Hca in Hk0; injection Hk0 as <-. rewrite Hrh in Ht; injection Ht as <-.
        rewrite Hc1, Ha', interpolate_shift in Hps. injection Hps as <-.
        eexists; reflexivity. }
    assert (Hlt2 : (c < length (tiles s))%nat) by (apply nth_error_Some; congruence).
    assert (Hso : same_orig (tiles s) (upd (tiles s) c (set_points rh ps'))).
    { apply same_orig_upd. intros t Ht. rewrite Hrh in Ht. injection Ht as <-.
      reflexivity. }
    destruct (Nat.leb visualizationFrames _) eqn:Hle; injection Hs as <-;
      split; try exact Hso.
    + constructor; simpl; try discriminate; auto.
      * apply upd_tiles_ok; [exact (inv_tiles s HI)|exact Hok].
      * unfold visualizationFrames; lia.
      * intros H. pose proof (inv_modes s HI H). congruence.
    + constructor; simpl.
      * apply upd_tiles_ok; [exact (inv_tiles s HI)|exact Hok].
      * apply Nat.leb_gt in Hle; exact Hle.
      * intros a Ha. destruct (inv_asp s HI a Ha) as (k0 & t & c0 & Hk0 & Ht & Ha').
        rewrite Hca in Hk0; injection Hk0 as <-. rewrite Hrh in Ht; injection Ht as <-.
        exists c, (set_points rh ps'), c0. split; [reflexivity|].
        split; [apply AlignFacts.nth_error_upd_eq; exact Hlt2|exact Ha'].
      * intros H; congruence.
      * intros H. pose proof (inv_modes s HI H). congruence.
  - cbv [negb andb] in Hs. apply step_inv; auto.
    destruct (animationStartPositions s) as [a|] eqn:Ha; [|reflexivity].
    destruct (inv_asp s HI a Ha) as (k0 & _ & _ & Hk0 & _). congruence.
  - cbv [negb andb] in Hs. apply (step_inv _ _ (Inv_clear s HI)) in Hs;
      [exact Hs|exact Hal|reflexivity].
  - cbv [negb andb] in Hs. apply step_inv; auto.
    destruct (animationStartPositions s) as [a|] eqn:Ha; [|reflexivity].
    destruct (inv_asp s HI a Ha) as (k0 & _ & _ & Hk0 & _). congruence.
Qed.

Lemma toggle_inv (s s' : vstate) :
  Inv s -> toggleV s = Some s' -> Inv s' /\ same_orig (tiles s) (tiles s').
Proof.
  intros HI Hs. unfold toggleV in Hs.
  destruct (vAligned s) eqn:Hd, (vAligning s) eqn:Hg; cbn [negb andb] in Hs.
  - pose proof (inv_modes s HI Hd). congruence.
  - destruct (resetRhombuses (tiles s)) as [ts|] eqn:Hr; [|discriminate].
    injection Hs as <-. apply AlignFacts.resetRhombuses_spec in Hr.
    pose proof (inv_idle s HI Hg) as Hasp. split.
    + constructor; simpl; try rewrite Hasp; try discriminate; auto.
      * intros t' Ht'. destruct (Forall2_in_r _ _ _ _ Hr Ht') as (t & Ht & Hpt & _ & _ & Ho & _).
        destruct (inv_tiles s HI t Ht) as [c Hc]. exists (0, 0).
        rewrite Hpt, Ho, Hc, length_map, firstn_all. apply map_shift_0.
      * exact (inv_vp s HI).
    + eapply Forall2_impl; [|exact Hr]. simpl. tauto.
  - injection Hs as <-. split; [exact HI|apply same_orig_refl].
  - pose proof (inv_idle s HI Hg) as Hasp. unfold startV in Hs.
    destruct (lockedIndices (tiles s)) as [|l0 ls].
    + destruct (tiles s) as [|t0 rest] eqn:Ht; [discriminate|].
      injection Hs as <-. split.
      * constructor; simpl; try rewrite Hasp; try discriminate; auto.
        -- intros t [<-|Hin]; [apply tile_ok_set_aligned|];
             apply (inv_tiles s HI); rewrite Ht; simpl; auto.
        -- unfold visualizationFrames; lia.
        -- congruence.
      * constructor; [reflexivity|apply same_orig_refl].
    + injection Hs as <-. split.
      * constructor; simpl; try rewrite Hasp; try discriminate; auto.
        -- exact (inv_tiles s HI).
        -- unfold visualizationFrames; lia.
        -- congruence.
      * apply same_orig_refl.
Qed.

Lemma drag_inv (s s' : vstate) dx dy :
  Inv s -> dragV s dx dy = Some s' -> Inv s' /\ same_orig (tiles s) (tiles s').
Proof.
  intros HI Hs. unfold dragV in Hs.
  destruct (selected s) as [i|];
    [|injection Hs as <-; split; [exact HI|apply same_orig_refl]].
  destruct (nth_error (tiles s) i) as [t|] eqn:Ht; [|discriminate].
  injection Hs as <-.
  assert (Hso : same_orig (tiles s)
    (upd (tiles s) i (set_aligned (set_locked (translate t dx dy) true) true))).
  { apply same_orig_upd. intros t' Ht'. rewrite Ht in Ht'. injection Ht' as <-.
    reflexivity. }
  split; [|exact Hso]. constructor; simpl.
  - apply upd_tiles_ok; [exact (inv_tiles s HI)|].
    apply tile_ok_set_aligned, tile_ok_set_locked, tile_ok_translate.
    exact (tile_ok_nth s i t HI Ht).
  - exact (inv_vp s HI).
  - intros a Ha. destruct (inv_asp s HI a Ha) as (k & t0 & c & Hk & Ht0 & Ha').
    destruct (same_orig_nth _ _ _ _ Hso Ht0) as (t1 & Ht1 & Ho).
    exists k, t1, c. rewrite Ho. auto.
  - exact (inv_idle s HI).
  - exact (inv_modes s HI).
Qed.

Lemma vhandle_inv (s s' : vstate) e :
  Inv s -> vhandle s e = Some s' -> Inv s' /\ same_orig (tiles s) (tiles s').
Proof.
  intros HI Hs. destruct e; simpl in Hs.
  - injection Hs as <-. split; [|apply same_orig_refl]. destruct HI; constructor; auto.
  - exact (drag_inv s s' dx dy HI Hs).
  - injection Hs as <-. split; [|apply same_orig_refl]. destruct HI; constructor; auto.
  - exact (toggle_inv s s' HI Hs).
  - exact (draw_inv s s' HI Hs).
  - injection Hs as <-. split; [|apply same_orig_refl]. destruct HI; constructor; auto.
Qed.

Lemma vsession_inv (s s' : vstate) es : Inv s -> vsession s es = Some s' -> Inv s'.
Proof.
  revert s; induction es as [|e es IH]; intros s HI Hs; simpl in Hs.
  - injection Hs as <-; exact HI.
  - destruct (vhandle s e) as [s1|] eqn:E; [|discriminate].
    apply (IH s1); [exact (proj1 (vhandle_inv s s1 e HI E))|exact Hs].
Qed.

Lemma initial_inv (s : vstate) : initial s -> Inv s.
Proof.
  intros (Hpts & Hal & Hasp & Hvp). constructor.
  - intros t Ht. exists (0, 0). rewrite (Hpts t Ht). apply map_shift_0.
  - rewrite Hvp. unfold visualizationFrames; lia.
  - rewrite Hasp; discriminate.
  - intros _; exact Hasp.
  - intros _; exact Hal.
Qed.

Lemma nth_map_shift (os : list pt) (c : pt) m :
  (m < length os)%nat ->
  nth m (map (fun p => vadd p c) os) (0, 0) = vadd (nth m os (0, 0)) c.
Proof.
  revert m; induction os as [|p os IH]; intros [|m] H; simpl in *;
    [lia|lia|reflexivity|apply IH; lia].
Qed.

Lemma shift_diff (os : list pt) (c : pt) m n :
  (m < length os)%nat -> (n < length os)%nat ->
  vsub (nth m (map (fun p => vadd p c) os) (0, 0)) (nth n (map (fun p => vadd p c) os) (0, 0)) =
  vsub (nth m os (0, 0)) (nth n os (0, 0)).
Proof.
  intros Hm Hn. rewrite (nth_map_shift os c m Hm), (nth_map_shift os c n Hn).
  destruct (nth m os (0, 0)) as [x1 y1], (nth n os (0, 0)) as [x2 y2].
  unfold vsub, vadd; simpl. f_equal; ring.
Qed.

(** C10. Shape preservation: in every session started from a state right
    after [setup()], each event (drag, frame with its alignment step or
    animation tick, button, trace checkbox) moves every tile by one common
    vector [d] added to all its vertices, and the pairwise vertex differences
    of every tile stay those of its [originalPoints] snapshot. *)
Theorem session_shape (s0 s s' : vstate) (es : list vevent) (e : vevent) :
  initial s0 -> vsession s0 es = Some s -> vhandle s e = Some s' ->
  forall i t, nth_error (tiles s) i = Some t ->
  exists t' d, nth_error (tiles s') i = Some t' /\
    points t' = map (fun p => vadd p d) (points t) /\
    (forall m n, (m < length (points t'))%nat -> (n < length (points t'))%nat ->
       vsub (nth m (points t') (0, 0)) (nth n (points t') (0, 0)) =
       vsub (nth m (originalPoints t') (0, 0)) (nth n (originalPoints t') (0, 0))).
Proof.
  intros Hinit Hses He i t Ht.
  pose proof (vsession_inv s0 s es (initial_inv s0 Hinit) Hses) as HI.
  destruct (vhandle_inv s s' e HI He) as [HI' Hso].
  destruct (same_orig_nth _ _ _ _ Hso Ht) as (t' & Ht' & Ho).
  destruct (tile_ok_nth s i t HI Ht) as [[cx cy] Hc].
  destruct (tile_ok_nth s' i t' HI' Ht') as [[cx' cy'] Hc'].
  exists t', (cx' - cx, cy' - cy). split; [exact Ht'|]. split.
  - rewrite Hc, Hc', Ho, map_shift_shift. apply map_ext. intros p.
    unfold vadd; simpl. f_equal; f_equal; ring.
  - intros m n Hm Hn. rewrite Hc' in *. rewrite length_map in Hm, Hn.
    apply shift_diff; assumption.
Qed.

(** Witness: press on the only tile of [traceStart] and drag it by [(1, 2)]. *)
Lemma session_shape_witness :
  exists s',
    initial TraceSample.traceStart /\
    vsession TraceSample.traceStart [VPress (Some 0%nat)] =
      Some (set_selected TraceSample.traceStart (Some 0%nat)) /\
    vhandle (set_selected TraceSample.traceStart (Some 0%nat)) (VDrag 1 2) = Some s' /\
    exists t' d, nth_error (tiles s') 0 = Some t' /\
      points t' = map (fun p => vadd p d) (points AlignSamples.squareT) /\
      (forall m n, (m < length (points t'))%nat -> (n < length (points t'))%nat ->
         vsub (nth m (points t') (0, 0)) (nth n (points t') (0, 0)) =
         vsub (nth m (originalPoints t') (0, 0)) (nth n (originalPoints t') (0, 0))).
Proof.
  assert (Hinit : initial TraceSample.traceStart).
  { split; [|split; [reflexivity|split; reflexivity]].
    intros t [<-|[]]; reflexivity. }
  eexists. split; [exact Hinit|]. split; [reflexivity|]. split; [reflexivity|].
  exact (session_shape TraceSample.traceStart _ _ [VPress (Some 0%nat)] (VDrag 1 2)
           Hinit eq_refl eq_refl 0 AlignSamples.squareT eq_refl).
Defined.

End TraceFacts.

Module BatchFacts.
Import Grid Graph Align.
Local Open Scope R_scope.

Definition unlocked (t : tile) : Prop := locked t = false.

(** Frames of the single-step sketch while [isAligning]: each one is a
    call of [stepAlignment]. *)
Inductive frames : state -> state -> Prop :=
| frames_refl st : frames st st
| frames_step st st1 st2 :
    isAligning st = true -> stepAlignment st = Some st1 -> frames st1 st2 ->
    frames st st2.

Lemma frames_trans a b c : frames a b -> frames b c -> frames a c.
Proof.
  induction 1 as [|st st1 st2 H1 H2 H3 IH]; intros Hbc; auto.
  eapply frames_step; eauto.
Qed.

Lemma frames_idle st n : isAligning st = false -> session st (repeat Frame n) = Some st.
Proof.
  intros H. induction n as [|n IH]; simpl; [reflexivity|]. rewrite H. exact IH.
Qed.

Lemma frames_session a b n c :
  frames a b -> isAligning b = false ->
  session a (repeat Frame n) = Some c -> isAligning c = false -> c = b.
Proof.
  intros Hf; revert n; induction Hf as [st|st st1 st2 Hal Hstep Hf IH];
    intros n Hb Hs Hc.
  - rewrite (frames_idle st n Hb) in Hs. injection Hs as <-. reflexivity.
  - destruct n as [|n]; simpl in Hs.
    + injection Hs as <-. congruence.
    + rewrite Hal, Hstep in Hs. exact (IH n Hb Hs Hc).
Qed.

Lemma Forall_upd {A} (P : A -> Prop) (l : list A) k x :
  Forall P l -> P x -> Forall P (upd l k x).
Proof.
  intros Hl Hx. revert k; induction Hl as [|y l Hy Hl IH]; intros [|k]; simpl;
    constructor; auto.
Qed.

Lemma filterUnaligned_upd_other (ts : list tile) l k x :
  ~ In k (map neighborIndex l) -> filterUnaligned (upd ts k x) l = filterUnaligned ts l.
Proof.
  induction l as [|e l IH]; intros Hk; simpl; [reflexivity|].
  simpl in Hk. rewrite AlignFacts.nth_error_upd_neq by (intros E; apply Hk; left; exact E).
  rewrite IH by (intros E; apply Hk; right; exact E). reflexivity.
Qed.

Lemma filterUnaligned_unaligned (ts : list tile) l r data :
  filterUnaligned ts l = Some r -> In data r ->
  exists t, nth_error ts (neighborIndex data) = Some t /\ aligned t = false.
Proof.
  revert r; induction l as [|e l IH]; intros r Hf Hin; simpl in Hf.
  - injection Hf as <-. destruct Hin.
  - destruct (nth_error ts (neighborIndex e)) as [t|] eqn:E1; [|discriminate].
    destruct (filterUnaligned ts l) as [r'|] eqn:E2; [|discriminate].
    injection Hf as <-. destruct (aligned t) eqn:Ea.
    + exact (IH r' eq_refl Hin).
    + destruct Hin as [<-|Hin]; [eauto|exact (IH r' eq_refl Hin)].
Qed.

(** Once the first unaligned neighbour is aligned, the unaligned neighbours
    are the remaining ones (no tile listed twice). *)
Lemma filterUnaligned_step (ts : list tile) l data more x :
  NoDup (map neighborIndex l) -> filterUnaligned ts l = Some (data :: more) ->
  (neighborIndex data < length ts)%nat -> aligned x = true ->
  filterUnaligned (upd ts (neighborIndex data) x) l = Some more.
Proof.
  revert data more; induction l as [|e l IH]; intros data more Hnd Hf Hlt Hx;
    simpl in Hf; [discriminate|].
  inversion Hnd as [|? ? Hnin Hnd']; subst.
  destruct (nth_error ts (neighborIndex e)) as [t|] eqn:E1; [|discriminate].
  destruct (filterUnaligned ts l) as [r|] eqn:E2; [|discriminate].
  injection Hf as Hf. simpl. destruct (aligned t) eqn:Ea.
  - subst r. assert (Hne : neighborIndex e <> neighborIndex data).
    { intros E. destruct (filterUnaligned_unaligned ts l _ data E2 (or_introl eq_refl))
        as (t' & Ht' & Ha'). rewrite <- E, E1 in Ht'. congruence. }
    rewrite AlignFacts.nth_error_upd_neq by exact Hne. rewrite E1.
    rewrite (IH data more Hnd' eq_refl Hlt Hx). rewrite Ea. reflexivity.
  - injection Hf as <- <-. rewrite AlignFacts.nth_error_upd_eq by exact Hlt.
    rewrite filterUnaligned_upd_other by exact Hnin. rewrite E2, Hx. reflexivity.
Qed.

Lemma lockedIndices_unlocked (ts : list tile) :
  Forall unlocked ts -> lockedIndices ts = [].
Proof.
  intros H. unfold lockedIndices, indexed. generalize 0%nat.
  induction H as [|t ts Ht Hts IH]; intros n; simpl; [reflexivity|].
  unfold unlocked in Ht. rewrite Ht. apply IH.
Qed.

(** Frames popping leftover copies of [s] whose neighbours are all aligned. *)
Lemma drop_copies (st : state) s j R :
  getUnalignedAdjacentTiles (rhombPoints st) (rhombGraph st) s = Some [] ->
  alignmentQueue st = repeat s j ++ R -> isAligning st = true ->
  exists st', frames st st' /\ rhombPoints st' = rhombPoints st /\
    rhombGraph st' = rhombGraph st /\ alignmentQueue st' = R /\ isAligning st' = true.
Proof.
  revert st; induction j as [|j IH]; intros st Hu Hq Hal.
  - exists st. repeat split; auto; constructor.
  - assert (Hs : stepAlignment st = Some (with_queue st (repeat s j ++ R))).
    { unfold stepAlignment. rewrite Hq. simpl. rewrite Hu. reflexivity. }
    destruct (IH (with_queue st (repeat s j ++ R)) Hu eq_refl Hal)
      as (st' & Hf & H1 & H2 & H3 & H4).
    exists st'. split; [eapply frames_step; eauto|]. repeat split; auto.
Qed.

(** One pass of the batch [for (const data of adjacentTileData)] loop is
    matched by single-step frames: the frames align the same neighbours in
    the same order and with the same offsets, then drop the copies of [s]. *)
Lemma alignEach_frames (g : list (list adj)) s :
  NoDup (map neighborIndex (nth s g [])) ->
  forall adjs ts R j st ts' R',
  rhombPoints st = ts -> rhombGraph st = g -> alignmentQueue st = repeat s j ++ R ->
  isAligning st = true -> Forall unlocked ts ->
  getUnalignedAdjacentTiles ts g s = Some adjs -> (adjs = [] \/ (0 < j)%nat) ->
  alignEach ts s adjs R = Some (ts', R') ->
  exists st', frames st st' /\ rhombPoints st' = ts' /\ rhombGraph st' = g /\
    alignmentQueue st' = R' /\ isAligning st' = true /\ Forall unlocked ts'.
Proof.
  intros Hnd adjs. induction adjs as [|data more IH];
    intros ts R j st ts' R' Hts Hg Hq Hal Hlk Hu Hj Hae; simpl in Hae.
  - injection Hae as <- <-. subst ts g.
    destruct (drop_copies st s j R Hu Hq Hal) as (st' & Hf & H1 & H2 & H3 & H4).
    exists st'. rewrite H1, H2. repeat split; auto.
  - destruct j as [|j]; [destruct Hj as [Hj|Hj]; [discriminate|lia]|].
    destruct (nth_error ts s) as [st0|] eqn:Es; [|discriminate].
    destruct (nth_error ts (neighborIndex data)) as [at0|] eqn:Ek; [|discriminate].
    set (off := calculateAlignmentOffset st0 at0 (sharedLine data) (direction data)) in Hae.
    set (ts1 := upd ts (neighborIndex data) (set_aligned (realignRhombus at0 off) true)) in Hae.
    assert (Hat0 : locked at0 = false).
    { rewrite Forall_forall in Hlk. apply Hlk. eapply nth_error_In; exact Ek. }
    set (st1 := with_queue (with_tiles st ts1)
                  (repeat s (length more) ++ ((repeat s j ++ R) ++ [neighborIndex data]))).
    assert (Hstep : stepAlignment st = Some st1).
    { unfold stepAlignment. rewrite Hq, Hts, Hg. simpl. rewrite Hu, Ek, Hat0, Es.
      reflexivity. }
    assert (Hlt : (neighborIndex data < length ts)%nat)
      by (apply nth_error_Some; congruence).
    assert (Hu1 : getUnalignedAdjacentTiles ts1 g s = Some more).
    { apply filterUnaligned_step; auto. }
    assert (Hlk1 : Forall unlocked ts1).
    { apply Forall_upd; [exact Hlk|exact Hat0]. }
    destruct (IH ts1 (R ++ [neighborIndex data]) (length more + j)%nat st1 ts' R'
                eq_refl Hg) as (st' & Hf & H1 & H2 & H3 & H4 & H5); auto.
    + simpl. rewrite repeat_app, <- !app_assoc. reflexivity.
    + destruct more; [left; reflexivity|right; simpl; lia].
    + exists st'. split; [eapply frames_step; eauto|]. repeat split; auto.
Qed.

(** The batch BFS loop is matched by single-step frames that end with
    [isAligning] cleared on the same tiles. *)
Lemma bfs_frames (g : list (list adj)) :
  (forall i, NoDup (map neighborIndex (nth i g []))) ->
  forall fuel ts q Bf st,
  bfs fuel ts g q = Some Bf -> rhombPoints st = ts -> rhombGraph st = g ->
  alignmentQueue st = q -> isAligning st = true -> Forall unlocked ts ->
  exists st', frames st st' /\ rhombPoints st' = Bf /\ isAligning st' = false.
Proof.
  intros Hnd fuel. induction fuel as [|fuel IH]; intros ts q Bf st Hb Hts Hg Hq Hal Hlk;
    simpl in Hb; [discriminate|].
  destruct q as [|s rest].
  - injection Hb as <-. exists (with_flags st true false). split; [|split; auto].
    eapply frames_step; [exact Hal| |constructor].
    unfold stepAlignment. rewrite Hq. reflexivity.
  - destruct (getUnalignedAdjacentTiles ts g s) as [adjs|] eqn:Hu; [|discriminate].
    destruct (alignEach ts s adjs rest) as [[ts' q']|] eqn:Hae; [|discriminate].
    destruct (alignEach_frames g s (Hnd s) adjs ts rest 1 st ts' q' Hts Hg Hq Hal Hlk Hu
                (or_intror Nat.lt_0_1) Hae) as (st1 & Hf1 & H1 & H2 & H3 & H4 & H5).
    destruct (IH ts' q' Bf st1 Hb H1 H2 H3 H4 H5) as (st2 & Hf2 & H6 & H7).
    exists st2. split; [eapply frames_trans; eauto|]. repeat split; auto.
Qed.

(** C2. Batch and single-step alignment end on the same tiles: from a
    state where no tile is locked (so both modes use the seed set [{0}]
    with tile 0 marked aligned) and no adjacency list names a neighbour
    twice, pressing the align button and letting the frames call
    [stepAlignment] until [isAligning] is cleared yields exactly the tiles
    (vertices and flags) that the batch [alignRhombuses] produces. *)
Theorem batch_single_step_same (fuel n : nat) (st : state) (Bf : list tile) (Sf : state) :
  Forall (fun t => locked t = false) (rhombPoints st) ->
  (forall i, NoDup (map neighborIndex (nth i (rhombGraph st) []))) ->
  isAligned st = false -> isAligning st = false ->
  alignRhombuses fuel (rhombPoints st) (rhombGraph st) = Some Bf ->
  session st (Toggle :: repeat Frame n) = Some Sf -> isAligning Sf = false ->
  rhombPoints Sf = Bf.
Proof.
  intros Hlk Hnd Had Hag Hb Hs Hf.
  simpl in Hs. unfold toggleAlignment in Hs. rewrite Had, Hag in Hs.
  cbn [negb andb] in Hs. unfold startProgressiveAlignment in Hs.
  rewrite (lockedIndices_unlocked _ Hlk) in Hs.
  unfold alignRhombuses in Hb.
  destruct (rhombPoints st) as [|t0 rest] eqn:Hts; [discriminate|].
  set (st0 := with_flags (with_queue (with_tiles st (set_aligned t0 true :: rest)) [0%nat])
                (isAligned st) true) in Hs.
  assert (Hlk0 : Forall unlocked (set_aligned t0 true :: rest)).
  { inversion Hlk; subst. constructor; assumption. }
  destruct (bfs_frames (rhombGraph st) Hnd fuel _ _ Bf st0 Hb eq_refl eq_refl eq_refl
              eq_refl Hlk0) as (st' & Hfr & H1 & H2).
  rewrite (frames_session st0 st' n Sf Hfr H2 Hs Hf). exact H1.
Qed.

(** Witness: two fresh neighbouring tiles; the batch run and a button press
    followed by three frames. *)
Lemma batch_single_step_same_witness :
  exists Bf Sf,
    alignRhombuses 3 (rhombPoints AlignSamples.pairStart)
      (rhombGraph AlignSamples.pairStart) = Some Bf /\
    session AlignSamples.pairStart (Toggle :: repeat Frame 3) = Some Sf /\
    isAligning Sf = false /\ rhombPoints Sf = Bf.
Proof.
  assert (Hlk : Forall (fun t => locked t = false) (rhombPoints AlignSamples.pairStart)).
  { repeat constructor. }
  assert (Hnd : forall i, NoDup (map neighborIndex
                  (nth i (rhombGraph AlignSamples.pairStart) []))).
  { intros [|[|[|i]]]; simpl; try constructor; try constructor; simpl; tauto. }
  do 2 eexists. split; [reflexivity|]. split; [reflexivity|]. split; [reflexivity|].
  apply (batch_single_step_same 3 3 AlignSamples.pairStart _ _ Hlk Hnd eq_refl eq_refl);
    reflexivity.
Defined.

End BatchFacts.

Module GenFacts.
Import Gen.
Local Open Scope R_scope.

(** The bit of one line in [getPointSignature]. *)
Definition bitAt (p : R * R) (l : nline) : nat :=
  if Rlt_dec 0 (nx l * fst p + ny l * snd p - offset l) then 1%nat else 0%nat.

Lemma transitions_dec (b : nat -> nat) (v : nat -> R) :
  (forall k, b k = if Rlt_dec 0 (v k) then 1%nat else 0%nat) ->
  (forall k, v (S k) < v k) ->
  forall n s, (transitions (map b (seq s n)) <= 1)%nat /\
              (v s <= 0 -> transitions (map b (seq s n)) = 0%nat).
Proof.
  intros Hb Hv n. induction n as [|n IH]; intros s; [simpl; split; [lia|auto]|].
  destruct n as [|n]; [simpl; split; [lia|auto]|].
  change (map b (seq s (S (S n)))) with (b s :: map b (seq (S s) (S n))).
  change (transitions (b s :: map b (seq (S s) (S n)))) with
    ((if Nat.eqb (b s) (b (S s)) then 0 else 1) + transitions (map b (seq (S s) (S n))))%nat.
  destruct (IH (S s)) as [H1 H0]. rewrite !Hb.
  set (T := transitions (map b (seq (S s) (S n)))) in *.
  specialize (Hv s).
  destruct (Rlt_dec 0 (v s)), (Rlt_dec 0 (v (S s))); simpl.
  - split; [exact H1|lra].
  - rewrite H0 by lra. split; [lia|lra].
  - lra.
  - rewrite H0 by lra. split; lia.
Qed.

Lemma getPointSignature_map (F : nat -> list nline) (p : R * R) :
  getPointSignature (map F (seq 0 5)) p = Some (map (fun f => map (bitAt p) (F f)) (seq 0 5)).
Proof. reflexivity. Qed.

(** Every family of the pentagrid has increasing offsets, so its bits are
    [1 ... 1 0 ... 0]. *)
Lemma family_bits (gammas : list R) (p : R * R) (f : nat) :
  Nat.le (transitions (map (bitAt p) (map (fun k =>
      let i := (Z.of_nat k - Z.of_nat CNUM_LINES)%Z in
      mkNLine f (cos (INR f * TAU / 5)) (sin (INR f * TAU / 5))
        (IZR i * CSPACING + nth f gammas 0 * CSPACING) i)
    (seq 0 (2 * CNUM_LINES + 1))))) 1.
Proof.
  rewrite map_map.
  refine (proj1 (transitions_dec _
    (fun k => cos (INR f * TAU / 5) * fst p + sin (INR f * TAU / 5) * snd p -
              (IZR (Z.of_nat k - Z.of_nat CNUM_LINES) * CSPACING + nth f gammas 0 * CSPACING))
    _ _ _ _)).
  - intros k. reflexivity.
  - intros k. unfold CSPACING.
    replace (Z.of_nat (S k) - Z.of_nat CNUM_LINES)%Z
      with ((Z.of_nat k - Z.of_nat CNUM_LINES) + 1)%Z by lia.
    rewrite plus_IZR. lra.
Qed.

Lemma signature_bits (gammas : list R) (p : R * R) :
  exists sig, getPointSignature (generatePentagrid gammas) p = Some sig /\
    Forall (fun fs => (transitions fs <= 1)%nat) sig.
Proof.
  unfold generatePentagrid. rewrite getPointSignature_map.
  eexists. split; [reflexivity|]. apply Forall_map, Forall_forall. intros f _.
  apply family_bits.
Qed.

Lemma familyTransitions_spec (sig : list (list nat)) ts :
  familyTransitions sig = Some ts ->
  ts = map (fun f => transitions (nth f sig [])) (seq 0 5).
Proof.
  intros H. destruct sig as [|l0 [|l1 [|l2 [|l3 [|l4 sig]]]]]; simpl in H;
    try discriminate H.
  injection H as <-. reflexivity.
Qed.

Lemma isValid_le1 (sig : list (list nat)) :
  Forall (fun fs => (transitions fs <= 1)%nat) sig ->
  forall b, isValidRhombSignature sig = Some b -> b = false.
Proof.
  intros Hall b Hv. unfold isValidRhombSignature in Hv.
  destruct (familyTransitions sig) as [ts|] eqn:E; [|discriminate].
  apply familyTransitions_spec in E. subst ts. injection Hv as <-.
  assert (Hf : forall f, (transitions (nth f sig []) <= 1)%nat).
  { intros f. destruct (Nat.lt_ge_cases f (length sig)) as [Hl|Hl].
    - rewrite Forall_forall in Hall. apply Hall, nth_In; exact Hl.
    - rewrite nth_overflow by exact Hl. simpl; lia. }
  simpl.
  destruct (Nat.eqb_spec (transitions (nth 0 sig [])) 2) as [e|_]; [specialize (Hf 0%nat); lia|].
  destruct (Nat.eqb_spec (transitions (nth 1 sig [])) 2) as [e|_]; [specialize (Hf 1%nat); lia|].
  destruct (Nat.eqb_spec (transitions (nth 2 sig [])) 2) as [e|_]; [specialize (Hf 2%nat); lia|].
  destruct (Nat.eqb_spec (transitions (nth 3 sig [])) 2) as [e|_]; [specialize (Hf 3%nat); lia|].
  destruct (Nat.eqb_spec (transitions (nth 4 sig [])) 2) as [e|_]; [specialize (Hf 4%nat); lia|].
  reflexivity.
Qed.

Lemma findRegions_none (gl : list (list nline)) :
  (forall p, regionAt gl p = Some []) -> findRegions gl = [].
Proof.
  intros H. unfold findRegions.
  assert (E : forall ps : list (R * R), fold_right (fun p acc =>
            match regionAt gl p, acc with
            | Some r, Some rest => Some (r ++ rest)
            | _, _ => None
            end) (Some []) ps = Some []).
  { induction ps as [|p ps IH]; simpl; [reflexivity|]. rewrite H, IH. reflexivity. }
  rewrite E. reflexivity.
Qed.

Lemma findAllIntersections_map (F : nat -> list nline) :
  findAllIntersections (map F (seq 0 5)) <> None.
Proof. unfold findAllIntersections. simpl. discriminate. Qed.

Lemma isValid_some (G : nat -> list nat) :
  isValidRhombSignature (map G (seq 0 5)) <> None.
Proof. unfold isValidRhombSignature. simpl. discriminate. Qed.

Lemma isValid_sig_some (F : nat -> list nline) (p : R * R) (sig : list (list nat)) :
  getPointSignature (map F (seq 0 5)) p = Some sig -> isValidRhombSignature sig <> None.
Proof.
  rewrite getPointSignature_map. intros H. injection H as <-.
  exact (isValid_some (fun f => map (bitAt p) (F f))).
Qed.

Lemma valid5 (t0 t1 t2 t3 t4 : nat) :
  Nat.eqb (length (filter (fun t => Nat.eqb t 2) [t0; t1; t2; t3; t4])) 2 &&
  Nat.eqb (fold_left Nat.add [t0; t1; t2; t3; t4] 0%nat) 4 = true ->
  exists f0 f1,
    map fst (filter (fun ft => Nat.eqb (snd ft) 2) (combine (seq 0 5) [t0; t1; t2; t3; t4]))
      = [f0; f1] /\ (f0 < f1 < 5)%nat /\
    forall f, (f < 5)%nat ->
      nth f [t0; t1; t2; t3; t4] 0%nat = if Nat.eqb f f0 || Nat.eqb f f1 then 2%nat else 0%nat.
Proof.
  intros H. apply andb_true_iff in H as [Hc Hs].
  apply Nat.eqb_eq in Hc. apply Nat.eqb_eq in Hs. simpl in Hc, Hs.
  assert (Hz : ((t0 = 0 \/ t0 = 2) /\ (t1 = 0 \/ t1 = 2) /\ (t2 = 0 \/ t2 = 2) /\
               (t3 = 0 \/ t3 = 2) /\ (t4 = 0 \/ t4 = 2))%nat).
  { destruct (Nat.eqb_spec t0 2), (Nat.eqb_spec t1 2), (Nat.eqb_spec t2 2),
      (Nat.eqb_spec t3 2), (Nat.eqb_spec t4 2); simpl in Hc; lia. }
  destruct Hz as [[-> | ->] [[-> | ->] [[-> | ->] [[-> | ->] [-> | ->]]]]];
    simpl in Hc, Hs; try lia;
    simpl; do 2 eexists; (split; [reflexivity|]); (split; [lia|]);
    intros f Hf; destruct f as [|[|[|[|[|f]]]]]; simpl; try reflexivity; lia.
Qed.

(** A valid signature has exactly two active families, with two transitions
    each, and no transition in the other three. *)
Lemma valid_active (sig : list (list nat)) :
  isValidRhombSignature sig = Some true ->
  exists f0 f1, activeFamiliesOf sig = Some [f0; f1] /\ (f0 < f1 < 5)%nat /\
    forall f, (f < 5)%nat ->
      transitions (nth f sig []) = if Nat.eqb f f0 || Nat.eqb f f1 then 2%nat else 0%nat.
Proof.
  intros Hv. unfold isValidRhombSignature in Hv. unfold activeFamiliesOf.
  destruct (familyTransitions sig) as [ts|] eqn:E; [|discriminate].
  pose proof (familyTransitions_spec sig ts E) as Hts. subst ts.
  assert (E5 : map (fun f => transitions (nth f sig [])) (seq 0 5) =
    [transitions (nth 0 sig []); transitions (nth 1 sig []); transitions (nth 2 sig []);
     transitions (nth 3 sig []); transitions (nth 4 sig [])]) by reflexivity.
  rewrite E5 in Hv |- *. injection Hv as Hv.
  destruct (valid5 _ _ _ _ _ Hv) as (f0 & f1 & Hm & Hlt & Hn).
  exists f0, f1. rewrite Hm. split; [reflexivity|]. split; [exact Hlt|].
  intros f Hf. rewrite <- (Hn f Hf).
  destruct f as [|[|[|[|[|f]]]]]; try reflexivity; lia.
Qed.

Lemma cli_spec (l1 l2 : nline) (x y : R) :
  calculateLineIntersection l1 l2 = Some (x, y) ->
  nx l1 * x + ny l1 * y = offset l1 /\ nx l2 * x + ny l2 * y = offset l2.
Proof.
  unfold calculateLineIntersection.
  destruct (Rlt_dec (Rabs (nx l1 * ny l2 - ny l1 * nx l2)) (1 / 10000000000)) as [_|Hd];
    [discriminate|].
  intros H. injection H as <- <-.
  assert (Hz : nx l1 * ny l2 - ny l1 * nx l2 <> 0).
  { intros E. apply Hd. rewrite E, Rabs_R0. lra. }
  split; field; exact Hz.
Qed.

Lemma isInBounds_spec (p : R * R) :
  isInBounds p = true ->
  Rabs (fst p) < CGRID_SIZE / 2 - CSPACING /\ Rabs (snd p) < CGRID_SIZE / 2 - CSPACING.
Proof.
  unfold isInBounds, Rltb.
  destruct (Rlt_dec (Rabs (fst p)) _), (Rlt_dec (Rabs (snd p)) _); simpl;
    intros H; try discriminate; split; assumption.
Qed.

(** What [findAllIntersections] records about one intersection. *)
Definition inter_ok (gl : list (list nline)) (it : ninter) : Prop :=
  let '(f1, f2) := nfamilies it in
  let '(l1, l2) := nlines it in
  let '(x, y) := npoint it in
  (f1 < f2 < 5)%nat /\ In l1 (nth f1 gl []) /\ In l2 (nth f2 gl []) /\
  nx l1 * x + ny l1 * y = offset l1 /\ nx l2 * x + ny l2 * y = offset l2 /\
  Rabs x < CGRID_SIZE / 2 - CSPACING /\ Rabs y < CGRID_SIZE / 2 - CSPACING.

Lemma quarter0 (x : R) : cos (x + INR 0 * PI / 2) = cos x /\ sin (x + INR 0 * PI / 2) = sin x.
Proof. replace (x + INR 0 * PI / 2) with x by (simpl; field). split; reflexivity. Qed.

Lemma quarter1 (x : R) : cos (x + INR 1 * PI / 2) = - sin x /\ sin (x + INR 1 * PI / 2) = cos x.
Proof.
  replace (x + INR 1 * PI / 2) with (x + PI / 2) by (simpl; field).
  rewrite cos_plus, sin_plus, cos_PI2, sin_PI2. split; ring.
Qed.

Lemma quarter2 (x : R) : cos (x + INR 2 * PI / 2) = - cos x /\ sin (x + INR 2 * PI / 2) = - sin x.
Proof.
  replace (x + INR 2 * PI / 2) with (x + PI) by (simpl; field).
  rewrite neg_cos, neg_sin. split; reflexivity.
Qed.

Lemma quarter3 (x : R) : cos (x + INR 3 * PI / 2) = sin x /\ sin (x + INR 3 * PI / 2) = - cos x.
Proof.
  replace (x + INR 3 * PI / 2) with ((x + PI) + PI / 2) by (simpl; field).
  rewrite (cos_plus (x + PI) (PI / 2)), (sin_plus (x + PI) (PI / 2)), cos_PI2, sin_PI2,
    neg_cos, neg_sin. split; ring.
Qed.

Lemma dist2_sym (p q : R * R) : dist2 p q = dist2 q p.
Proof. unfold dist2. ring. Qed.

Lemma existsb_false_forall {A} (f : A -> bool) (l : list A) :
  existsb f l = false -> forall x, In x l -> f x = false.
Proof.
  induction l as [|a l IH]; simpl; [tauto|].
  intros H x [<- | Hx]; apply orb_false_iff in H as [H1 H2]; auto.
Qed.

Lemma isOverlapping_false (r : rhomb) (acc : list rhomb) :
  isOverlapping r acc = false ->
  Forall (fun e => minDistanceSquared <= dist2 (rcenter e) (rcenter r)) acc.
Proof.
  intros H. apply Forall_forall. intros e He.
  pose proof (existsb_false_forall _ _ H e He) as He'. cbv beta in He'.
  rewrite dist2_sym. unfold minDistanceSquared.
  destruct (Rlt_dec minDistance (Rabs (fst (rcenter r) - fst (rcenter e)))) as [Hlt|_].
  - set (dx := fst (rcenter r) - fst (rcenter e)) in *.
    assert (Hsq : dx * dx = Rabs dx * Rabs dx)
      by (unfold Rabs; destruct (Rcase_abs dx); ring).
    assert (H0 : 0 <= minDistance) by (unfold minDistance, CSPACING; lra).
    pose proof (Rmult_le_0_lt_compat _ _ _ _ H0 H0 Hlt Hlt) as Hm.
    unfold dist2. fold dx.
    pose proof (Rle_0_sqr (snd (rcenter r) - snd (rcenter e))) as Hy. unfold Rsqr in Hy.
    lra.
  - unfold Rltb in He'. destruct (Rlt_dec (dist2 (rcenter r) (rcenter e)) _);
      [discriminate|]. unfold minDistanceSquared in *. lra.
Qed.

Lemma isOverlapping_true (r : rhomb) (acc : list rhomb) :
  isOverlapping r acc = true ->
  exists e, In e acc /\ dist2 (rcenter r) (rcenter e) < minDistanceSquared.
Proof.
  unfold isOverlapping. intros H. apply existsb_exists in H as (e & He & Hf).
  exists e. split; [exact He|].
  destruct (Rlt_dec minDistance _); [discriminate|].
  unfold Rltb in Hf. destruct (Rlt_dec _ _); [assumption|discriminate].
Qed.

Lemma ForallOrdPairs_snoc {A} (Rl : A -> A -> Prop) (l : list A) (r : A) :
  ForallOrdPairs Rl l -> Forall (fun e => Rl e r) l -> ForallOrdPairs Rl (l ++ [r]).
Proof.
  induction l as [|a l IH]; simpl; intros H Hf.
  - constructor; constructor.
  - inversion H; subst. inversion Hf; subst. constructor.
    + apply Forall_app. split; [assumption|]. constructor; [assumption|constructor].
    + apply IH; assumption.
Qed.

Lemma insertByX_in (r x : rhomb) (l : list rhomb) : In x (insertByX r l) <-> r = x \/ In x l.
Proof.
  induction l as [|y ys IH]; simpl; [tauto|].
  destruct (Rlt_dec _ _); simpl; [tauto|]. rewrite IH. tauto.
Qed.

Lemma sortByX_in (x : rhomb) (l acc : list rhomb) :
  In x (fold_left (fun acc r => insertByX r acc) l acc) <-> In x l \/ In x acc.
Proof.
  revert acc. induction l as [|r l IH]; intros acc; simpl; [tauto|].
  rewrite IH, insertByX_in. tauto.
Qed.

(** A rhomb is covered by a list of kept rhombs when it is in it or lies
    closer than [minDistance] to one of them. *)
Definition covered (x : rhomb) (acc : list rhomb) : Prop :=
  In x acc \/ exists e, In e acc /\ dist2 (rcenter x) (rcenter e) < minDistanceSquared.

Lemma covered_snoc (x y : rhomb) (acc : list rhomb) :
  covered x acc -> covered x (if isOverlapping y acc then acc else acc ++ [y]).
Proof.
  destruct (isOverlapping y acc); [tauto|].
  intros [H | (e & He & Hd)]; [left | right].
  - apply in_or_app; left; exact H.
  - exists e. split; [apply in_or_app; left; exact He | exact Hd].
Qed.

Lemma filter_fold_cover (xs acc : list rhomb) (x : rhomb) :
  In x xs \/ covered x acc ->
  covered x (fold_left (fun filtered r => if isOverlapping r filtered then filtered
                                          else filtered ++ [r]) xs acc).
Proof.
  revert acc. induction xs as [|y xs IH]; intros acc H; simpl.
  - destruct H as [[]|H]; exact H.
  - apply IH. destruct H as [[-> | Hin] | Hc].
    + right. destruct (isOverlapping x acc) eqn:E.
      * right. apply isOverlapping_true; exact E.
      * left. apply in_or_app. right. left. reflexivity.
    + left. exact Hin.
    + right. apply covered_snoc. exact Hc.
Qed.

Lemma filter_fold_separated (xs acc : list rhomb) :
  ForallOrdPairs (fun a b => minDistanceSquared <= dist2 (rcenter a) (rcenter b)) acc ->
  ForallOrdPairs (fun a b => minDistanceSquared <= dist2 (rcenter a) (rcenter b))
    (fold_left (fun filtered r => if isOverlapping r filtered then filtered
                                  else filtered ++ [r]) xs acc).
Proof.
  revert acc. induction xs as [|y xs IH]; intros acc H; simpl; [exact H|].
  apply IH. destruct (isOverlapping y acc) eqn:E; [exact H|].
  apply ForallOrdPairs_snoc; [exact H|]. apply isOverlapping_false. exact E.
Qed.

Lemma findAllIntersections_pairs (gl : list (list nline)) (pairs : list (nat * nat)) :
  (forall fp, In fp pairs -> (fst fp < snd fp < 5)%nat) ->
  match fold_right (fun fp acc =>
    match acc, nth_error gl (fst fp), nth_error gl (snd fp) with
    | Some rest, Some lines1, Some lines2 =>
      Some (flat_map (fun l1 => flat_map (fun l2 =>
              match calculateLineIntersection l1 l2 with
              | Some p => if isInBounds p then [mkNInter p fp (l1, l2)] else []
              | None => []
              end) lines2) lines1 ++ rest)
    | _, _, _ => None
    end) (Some []) pairs with
  | Some is => Forall (inter_ok gl) is
  | None => True
  end.
Proof.
  induction pairs as [|[f1 f2] pairs IH]; intros Hp; simpl; [constructor|].
  specialize (IH (fun fp H => Hp fp (or_intror H))).
  destruct (fold_right _ (Some []) pairs) as [rest|]; [|exact I].
  destruct (nth_error gl f1) as [lines1|] eqn:E1; [|exact I].
  destruct (nth_error gl f2) as [lines2|] eqn:E2; [|exact I].
  apply Forall_app. split; [|exact IH].
  apply Forall_forall. intros it Hit.
  apply in_flat_map in Hit as (l1 & Hl1 & Hit).
  apply in_flat_map in Hit as (l2 & Hl2 & Hit).
  destruct (calculateLineIntersection l1 l2) as [[x y]|] eqn:Ec; [|destruct Hit].
  destruct (isInBounds (x, y)) eqn:Eb; [|destruct Hit].
  destruct Hit as [<- | []].
  pose proof (Hp (f1, f2) (or_introl eq_refl)) as Hf. simpl in Hf.
  destruct (cli_spec _ _ _ _ Ec) as [Hq1 Hq2].
  destruct (isInBounds_spec _ Eb) as [Hb1 Hb2]. simpl in Hb1, Hb2.
  unfold inter_ok; simpl.
  rewrite (nth_error_nth _ _ _ E1), (nth_error_nth _ _ _ E2).
  destruct Hf. repeat split; assumption.
Qed.

(** Each family's bits in a signature of the generated pentagrid change
    at most once. *)
Theorem getPointSignature_monotone (gammas : list R) (p : R * R) :
  exists sig, getPointSignature (generatePentagrid gammas) p = Some sig /\
    Forall (fun fs => (transitions fs <= 1)%nat) sig.
Proof. exact (signature_bits gammas p). Qed.

(** [generateTiling] never fails, and finds no region and no rhomb. *)
Theorem generateTiling_empty (s : pstate) :
  exists s', generateTiling s = Some s' /\
    gridLines s' = generatePentagrid (gammas s) /\ regions s' = [] /\ rhombs s' = [].
Proof.
  unfold generateTiling.
  destruct (findAllIntersections (generatePentagrid (gammas s))) as [is|] eqn:E.
  - assert (Hr : findRegions (generatePentagrid (gammas s)) = []).
    { apply findRegions_none. intros p. unfold regionAt.
      destruct (signature_bits (gammas s) p) as (sig & Hs & Hf). rewrite Hs.
      destruct (isValidRhombSignature sig) as [b|] eqn:Ev.
      - rewrite (isValid_le1 sig Hf b Ev). reflexivity.
      - exfalso. unfold generatePentagrid in Hs. exact (isValid_sig_some _ _ _ Hs Ev). }
    rewrite Hr. eexists. split; [reflexivity|]. simpl. repeat split; reflexivity.
  - exfalso. unfold generatePentagrid in E. exact (findAllIntersections_map _ E).
Qed.

(** A valid signature has two active families [f0 < f1], each with two
    transitions, and no transition in the other three families. *)
Theorem isValidRhombSignature_shape (sig : list (list nat)) :
  isValidRhombSignature sig = Some true ->
  exists f0 f1, activeFamiliesOf sig = Some [f0; f1] /\ (f0 < f1 < 5)%nat /\
    forall f, (f < 5)%nat ->
      transitions (nth f sig []) = if Nat.eqb f f0 || Nat.eqb f f1 then 2%nat else 0%nat.
Proof. exact (valid_active sig). Qed.

Lemma isValidRhombSignature_shape_witness :
  isValidRhombSignature [[0; 1; 0]; [1; 0; 1]; [0]; [0]; [0]]%nat = Some true /\
  exists f0 f1, activeFamiliesOf [[0; 1; 0]; [1; 0; 1]; [0]; [0]; [0]]%nat = Some [f0; f1] /\
    (f0 < f1 < 5)%nat /\
    forall f, (f < 5)%nat ->
      transitions (nth f [[0; 1; 0]; [1; 0; 1]; [0]; [0]; [0]]%nat []) =
        if Nat.eqb f f0 || Nat.eqb f f1 then 2%nat else 0%nat.
Proof.
  split; [reflexivity|]. apply isValidRhombSignature_shape. reflexivity.
Defined.

(** A valid signature always gets a [thick] or [thin] type, never
    [unknown]. *)
Theorem getRhombType_valid (sig : list (list nat)) :
  isValidRhombSignature sig = Some true ->
  getRhombType sig = Some thick \/ getRhombType sig = Some thin.
Proof.
  intros Hv. destruct (valid_active sig Hv) as (f0 & f1 & Ha & _ & _).
  unfold getRhombType. rewrite Ha.
  destruct (Nat.eqb _ 1); [left|right]; reflexivity.
Qed.

Lemma getRhombType_valid_witness :
  isValidRhombSignature [[0; 1; 0]; [0]; [1; 0; 1]; [0]; [0]]%nat = Some true /\
  (getRhombType [[0; 1; 0]; [0]; [1; 0; 1]; [0]; [0]]%nat = Some thick \/
   getRhombType [[0; 1; 0]; [0]; [1; 0; 1]; [0]; [0]]%nat = Some thin).
Proof. split; [reflexivity|]. apply getRhombType_valid. reflexivity. Defined.

(** Every intersection found joins a line of a family [f1] to one of a
    later family [f2], lies on both lines and inside the bounds. *)
Theorem findAllIntersections_sound (gl : list (list nline)) :
  match findAllIntersections gl with
  | Some is => Forall (inter_ok gl) is
  | None => True
  end.
Proof.
  unfold findAllIntersections. cbv zeta.
  apply findAllIntersections_pairs.
  intros [f1 f2] H. apply in_flat_map in H as (f & Hf & H).
  apply in_map_iff in H as (g & Heq & Hg). injection Heq as -> ->.
  apply in_seq in Hf. apply in_seq in Hg. simpl. lia.
Qed.

(** The four vertices of a rhomb built from a region have equal sides, and
    both diagonals have the region's center as midpoint. *)
Theorem createRhombFromRegion_rhombus (rg : region) :
  match createRhombFromRegion rg with
  | Some r => rcenter r = center rg /\
    exists v0 v1 v2 v3, vertices r = [v0; v1; v2; v3] /\
      dist2 v0 v1 = dist2 v1 v2 /\ dist2 v1 v2 = dist2 v2 v3 /\ dist2 v2 v3 = dist2 v3 v0 /\
      ((fst v0 + fst v2) / 2, (snd v0 + snd v2) / 2) = rcenter r /\
      ((fst v1 + fst v3) / 2, (snd v1 + snd v3) / 2) = rcenter r
  | None => True
  end.
Proof.
  unfold createRhombFromRegion.
  destruct (activeFamiliesOf (signature rg)) as [[|f0 [|f1 [|f2 fs]]]|]; try exact I.
  cbv zeta. cbn [map seq Nat.even vertices rcenter].
  destruct (center rg) as [cx cy].
  set (a := (INR f0 * TAU / 5 + INR f1 * TAU / 5) / 2).
  destruct (quarter0 a) as [-> ->]. destruct (quarter1 a) as [-> ->].
  destruct (quarter2 a) as [-> ->]. destruct (quarter3 a) as [-> ->].
  split; [reflexivity|].
  do 4 eexists. split; [reflexivity|].
  unfold dist2; simpl. repeat split; try ring; f_equal; field.
  all: destruct (rtyp rg); apply Rgt_not_eq, sin_gt_0; pose proof PI_RGT_0; lra.
Qed.

(** Any two rhombs kept by [filterOverlappingRhombs] are at least
    [minDistance] apart. *)
Theorem filterOverlappingRhombs_separated (l : list rhomb) :
  ForallOrdPairs (fun a b => minDistanceSquared <= dist2 (rcenter a) (rcenter b))
    (filterOverlappingRhombs l).
Proof.
  unfold filterOverlappingRhombs. destruct l as [|r l]; [constructor|].
  apply filter_fold_separated. constructor.
Qed.

(** Every input rhomb is kept by [filterOverlappingRhombs] or lies closer
    than [minDistance] to a kept one. *)
Theorem filterOverlappingRhombs_cover (l : list rhomb) (r : rhomb) :
  In r l ->
  In r (filterOverlappingRhombs l) \/
  exists e, In e (filterOverlappingRhombs l) /\ dist2 (rcenter r) (rcenter e) < minDistanceSquared.
Proof.
  intros H. unfold filterOverlappingRhombs. destruct l as [|r0 l]; [destruct H|].
  apply filter_fold_cover. left. unfold sortByX. apply sortByX_in. left. exact H.
Qed.

(** Two rhombs [10] apart along [x]: the second one is dropped. *)
Lemma filter_close_pair :
  filterOverlappingRhombs [(mkRhomb (0, 0) [] thick [0; 1]%nat); (mkRhomb (10, 0) [] thin [0; 2]%nat)] = [(mkRhomb (0, 0) [] thick [0; 1]%nat)].
Proof.
  unfold filterOverlappingRhombs, sortByX, isOverlapping, Rltb.
  cbn [fold_left insertByX rcenter fst snd existsb].
  rewrite (LockFacts.if_Rlt_false 10 0) by lra.
  cbn [fold_left existsb rcenter fst snd app].
  rewrite (LockFacts.if_Rlt_false minDistance (Rabs (10 - 0)))
    by (unfold minDistance, CSPACING; rewrite Rabs_right; lra).
  unfold dist2, minDistanceSquared, minDistance, CSPACING. cbn [fst snd].
  rewrite LockFacts.if_Rlt_true by lra. reflexivity.
Qed.

Lemma filterOverlappingRhombs_cover_witness :
  In (mkRhomb (10, 0) [] thin [0; 2]%nat) [(mkRhomb (0, 0) [] thick [0; 1]%nat); (mkRhomb (10, 0) [] thin [0; 2]%nat)] /\
  ~ In (mkRhomb (10, 0) [] thin [0; 2]%nat) (filterOverlappingRhombs [(mkRhomb (0, 0) [] thick [0; 1]%nat); (mkRhomb (10, 0) [] thin [0; 2]%nat)]) /\
  (In (mkRhomb (10, 0) [] thin [0; 2]%nat) (filterOverlappingRhombs [(mkRhomb (0, 0) [] thick [0; 1]%nat); (mkRhomb (10, 0) [] thin [0; 2]%nat)]) \/
   exists e, In e (filterOverlappingRhombs [(mkRhomb (0, 0) [] thick [0; 1]%nat); (mkRhomb (10, 0) [] thin [0; 2]%nat)]) /\
     dist2 (rcenter (mkRhomb (10, 0) [] thin [0; 2]%nat)) (rcenter e) < minDistanceSquared).
Proof.
  split; [right; left; reflexivity|].
  split; [rewrite filter_close_pair; intros [H|[]]; injection H; intros; lra|].
  apply filterOverlappingRhombs_cover. right. left. reflexivity.
Defined.

(** Both endpoints [drawLine] passes to [line] lie on the grid line, when
    its normal is not zero. *)
Theorem drawLine_on_line (l : nline) :
  nx l <> 0 \/ ny l <> 0 ->
  nx l * fst (fst (drawLine l)) + ny l * snd (fst (drawLine l)) = offset l /\
  nx l * fst (snd (drawLine l)) + ny l * snd (snd (drawLine l)) = offset l.
Proof.
  intros H. unfold drawLine.
  destruct (Rlt_dec (Rabs (ny l)) (Rabs (nx l))) as [Hlt|Hge]; simpl.
  - assert (Hn : nx l <> 0).
    { intros E. rewrite E, Rabs_R0 in Hlt. pose proof (Rabs_pos (ny l)). lra. }
    split; field; exact Hn.
  - assert (Hn : ny l <> 0).
    { intros E. destruct H as [H|H]; [|exact (H E)].
      rewrite E, Rabs_R0 in Hge. pose proof (Rabs_no_R0 _ H). pose proof (Rabs_pos (nx l)).
      lra. }
    split; field; exact Hn.
Qed.

Lemma drawLine_on_line_witness :
  (nx (mkNLine 0 1 0 5 0) <> 0 \/ ny (mkNLine 0 1 0 5 0) <> 0) /\
  nx (mkNLine 0 1 0 5 0) * fst (fst (drawLine (mkNLine 0 1 0 5 0))) +
    ny (mkNLine 0 1 0 5 0) * snd (fst (drawLine (mkNLine 0 1 0 5 0))) = offset (mkNLine 0 1 0 5 0) /\
  nx (mkNLine 0 1 0 5 0) * fst (snd (drawLine (mkNLine 0 1 0 5 0))) +
    ny (mkNLine 0 1 0 5 0) * snd (snd (drawLine (mkNLine 0 1 0 5 0))) = offset (mkNLine 0 1 0 5 0).
Proof.
  assert (H : nx (mkNLine 0 1 0 5 0) <> 0 \/ ny (mkNLine 0 1 0 5 0) <> 0)
    by (left; simpl; lra).
  split; [exact H|]. apply drawLine_on_line. exact H.
Defined.

End GenFacts.

Module GeoFacts.
Import Geo.
Local Open Scope R_scope.

(** *** Ray casting *)

(** The edges [(vertices[i], vertices[j])] visited by the loop, from a
    first [j]. *)
Fixpoint edges (pj : pt) (ps : list pt) : list (pt * pt) :=
  match ps with
  | [] => []
  | pi :: rest => (pi, pj) :: edges pi rest
  end.

Definition cedges (ps : list pt) : list (pt * pt) :=
  match ps with
  | [] => []
  | p0 :: _ => edges (last ps p0) ps
  end.

Definition parity (x y : R) (l : list (pt * pt)) : bool :=
  fold_right (fun e acc => xorb (crosses x y (fst e) (snd e)) acc) false l.

Definition swap (e : pt * pt) : pt * pt := (snd e, fst e).

Fixpoint adjpairs (l : list pt) : list (pt * pt) :=
  match l with
  | a :: ((b :: _) as rest) => (a, b) :: adjpairs rest
  | _ => []
  end.

Lemma pipLoop_parity (x y : R) (pj : pt) (ps : list pt) (b : bool) :
  pipLoop x y pj ps b = xorb b (parity x y (edges pj ps)).
Proof.
  revert pj b. induction ps as [|pi ps IH]; intros pj b; simpl.
  - rewrite xorb_false_r. reflexivity.
  - rewrite IH. destruct (crosses x y pi pj), b; simpl; try reflexivity;
      destruct (parity x y (edges pi ps)); reflexivity.
Qed.

Lemma isPointInPolygon_parity (x y : R) (ps : list pt) :
  isPointInPolygon x y ps = parity x y (cedges ps).
Proof. destruct ps as [|p0 ps]; [reflexivity|]. apply pipLoop_parity. Qed.

Lemma parity_perm (x y : R) (l l' : list (pt * pt)) :
  Permutation l l' -> parity x y l = parity x y l'.
Proof.
  induction 1; simpl; try congruence.
  destruct (crosses x y (fst x0) (snd x0)), (crosses x y (fst y0) (snd y0)),
    (parity x y l); reflexivity.
Qed.

Lemma last_cons_same (p : pt) (ps : list pt) : last (p :: ps) p = last ps p.
Proof. destruct ps as [|q ps]; reflexivity. Qed.

Lemma last_cons_any (a d : pt) (l : list pt) : last (a :: l) d = last l a.
Proof.
  revert a d. induction l as [|b l IH]; intros a d; [reflexivity|].
  change (last (a :: b :: l) d) with (last (b :: l) d). rewrite (IH b d).
  symmetry. apply IH.
Qed.

Lemma edges_snoc (pj q : pt) (l : list pt) :
  edges pj (l ++ [q]) = edges pj l ++ [(q, last l pj)].
Proof.
  revert pj. induction l as [|a l IH]; intros pj; [reflexivity|].
  change (edges pj ((a :: l) ++ [q])) with ((a, pj) :: edges a (l ++ [q])).
  rewrite IH, last_cons_any. reflexivity.
Qed.

Lemma cedges_rot1 (p : pt) (ps : list pt) :
  Permutation (cedges (p :: ps)) (cedges (ps ++ [p])).
Proof.
  assert (E : cedges (p :: ps) = (p, last ps p) :: edges p ps)
    by (unfold cedges; rewrite last_cons_any; reflexivity).
  rewrite E. destruct ps as [|q ps].
  - simpl. apply Permutation_refl.
  - change (cedges ((q :: ps) ++ [p])) with (edges (last ((q :: ps) ++ [p]) q) ((q :: ps) ++ [p])).
    rewrite last_last, edges_snoc. apply Permutation_cons_append.
Qed.

Lemma cedges_rot (l1 l2 : list pt) :
  Permutation (cedges (l1 ++ l2)) (cedges (l2 ++ l1)).
Proof.
  revert l2. induction l1 as [|a l1 IH]; intros l2.
  - rewrite app_nil_r. apply Permutation_refl.
  - simpl. eapply Permutation_trans; [apply cedges_rot1|].
    rewrite <- app_assoc. eapply Permutation_trans; [apply IH|].
    rewrite <- app_assoc. apply Permutation_refl.
Qed.

Lemma crosses_sym (x y : R) (pi pj : pt) : crosses x y pi pj = crosses x y pj pi.
Proof.
  unfold crosses. rewrite xorb_comm.
  destruct (xorb (Rltb y (snd pj)) (Rltb y (snd pi))) eqn:E; simpl; [|reflexivity].
  assert (Hne : snd pj - snd pi <> 0).
  { intros H. assert (snd pj = snd pi) as Heq by lra. rewrite Heq in E.
    rewrite xorb_nilpotent in E. discriminate. }
  replace ((fst pi - fst pj) * (y - snd pj) / (snd pi - snd pj) + fst pj)
    with ((fst pj - fst pi) * (y - snd pi) / (snd pj - snd pi) + fst pi).
  - reflexivity.
  - field. split; [|exact Hne]. intros H; apply Hne; lra.
Qed.

Lemma parity_swap (x y : R) (l : list (pt * pt)) :
  parity x y (map swap l) = parity x y l.
Proof.
  induction l as [|[a b] l IH]; simpl; [reflexivity|].
  rewrite IH, crosses_sym. reflexivity.
Qed.

Lemma edges_adj (pj : pt) (ps : list pt) : edges pj ps = map swap (adjpairs (pj :: ps)).
Proof.
  revert pj. induction ps as [|pi ps IH]; intros pj; [reflexivity|].
  simpl. rewrite IH. reflexivity.
Qed.

Lemma adjpairs_snoc (a : pt) (l : list pt) (q : pt) :
  adjpairs ((a :: l) ++ [q]) = adjpairs (a :: l) ++ [(last (a :: l) q, q)].
Proof.
  revert a. induction l as [|b l IH]; intros a; [reflexivity|].
  change ((a :: b :: l) ++ [q]) with (a :: ((b :: l) ++ [q])).
  change (adjpairs (a :: (b :: l) ++ [q])) with ((a, b) :: adjpairs ((b :: l) ++ [q])).
  rewrite IH. reflexivity.
Qed.

Lemma adjpairs_rev (l : list pt) : adjpairs (rev l) = rev (map swap (adjpairs l)).
Proof.
  induction l as [|a l IH]; [reflexivity|].
  destruct l as [|b l]; [reflexivity|].
  change (rev (a :: b :: l)) with (rev (b :: l) ++ [a]).
  assert (Hr : rev (b :: l) = hd a (rev (b :: l)) :: tl (rev (b :: l))).
  { simpl. destruct (rev l ++ [b]) eqn:E; [|reflexivity].
    apply (f_equal (@length pt)) in E. rewrite length_app in E. simpl in E. lia. }
  rewrite Hr, adjpairs_snoc, <- Hr, IH.
  assert (Hl : last (rev (b :: l)) a = b).
  { simpl. rewrite last_last. reflexivity. }
  rewrite Hl. reflexivity.
Qed.

Lemma cedges_walk (p0 : pt) (r : list pt) :
  Permutation (cedges (p0 :: r)) (map swap (adjpairs ((p0 :: r) ++ [p0]))).
Proof.
  unfold cedges. rewrite edges_adj, adjpairs_snoc.
  rewrite last_cons_same.
  change (adjpairs (last r p0 :: p0 :: r)) with ((last r p0, p0) :: adjpairs (p0 :: r)).
  rewrite map_app. cbn [map]. apply Permutation_cons_append.
Qed.

Lemma cedges_rev (ps : list pt) :
  Permutation (cedges (rev ps)) (map swap (cedges ps)).
Proof.
  destruct ps as [|p0 r] eqn:Eps; [apply Permutation_refl|].
  destruct (rev (p0 :: r)) as [|q0 r'] eqn:Er.
  { apply (f_equal (@length pt)) in Er. rewrite length_rev in Er. discriminate. }
  eapply Permutation_trans; [apply cedges_walk|]. rewrite <- Er.
  assert (Hq : q0 = last (p0 :: r) p0).
  { rewrite <- (rev_involutive (p0 :: r)), Er. simpl. rewrite last_last. reflexivity. }
  rewrite Hq.
  assert (Hw : rev (p0 :: r) ++ [last (p0 :: r) p0] = rev (last (p0 :: r) p0 :: p0 :: r))
    by reflexivity.
  rewrite Hw, adjpairs_rev, map_rev.
  change (cedges (p0 :: r)) with (edges (last (p0 :: r) p0) (p0 :: r)).
  rewrite edges_adj, !map_map.
  rewrite (map_ext (fun x => swap (swap x)) (fun e => e)) by (intros [a b]; reflexivity).
  rewrite map_id. apply Permutation_sym, Permutation_rev.
Qed.

Lemma crosses_shift (x y dx dy : R) (pi pj : pt) :
  crosses (x + dx) (y + dy) (fst pi + dx, snd pi + dy) (fst pj + dx, snd pj + dy) =
  crosses x y pi pj.
Proof.
  unfold crosses, Rltb; simpl.
  destruct (Rlt_dec (y + dy) (snd pi + dy)), (Rlt_dec y (snd pi));
    try (exfalso; lra);
  destruct (Rlt_dec (y + dy) (snd pj + dy)), (Rlt_dec y (snd pj));
    try (exfalso; lra); simpl; try reflexivity;
  replace (fst pj + dx - (fst pi + dx)) with (fst pj - fst pi) by ring;
  replace (y + dy - (snd pi + dy)) with (y - snd pi) by ring;
  replace (snd pj + dy - (snd pi + dy)) with (snd pj - snd pi) by ring;
  match goal with
  | |- context [Rlt_dec (x + dx) (?e + (fst pi + dx))] =>
    destruct (Rlt_dec (x + dx) (e + (fst pi + dx))), (Rlt_dec x (e + fst pi));
      try reflexivity; exfalso; lra
  end.
Qed.

Lemma last_map_gen {A B} (f : A -> B) (l : list A) (d : A) :
  last (map f l) (f d) = f (last l d).
Proof.
  induction l as [|a l IH]; [reflexivity|].
  destruct l as [|b l]; [reflexivity|]. exact IH.
Qed.

Lemma pipLoop_shift (x y dx dy : R) (pj : pt) (ps : list pt) (b : bool) :
  pipLoop (x + dx) (y + dy) (fst pj + dx, snd pj + dy)
    (map (fun p => (fst p + dx, snd p + dy)) ps) b = pipLoop x y pj ps b.
Proof.
  revert pj b. induction ps as [|pi ps IH]; intros pj b; simpl; [reflexivity|].
  rewrite crosses_shift. apply IH.
Qed.

(** *** Segment distance *)

Lemma clamp_closer (ts s : R) :
  0 <= s <= 1 -> Rsqr (constrain ts 0 1 - ts) <= Rsqr (s - ts).
Proof.
  intros Hs. apply Rsqr_le_abs_1. unfold constrain, Rmax, Rmin.
  destruct (Rle_dec ts 1); destruct (Rle_dec _ 0); unfold Rabs;
    repeat destruct (Rcase_abs _); lra.
Qed.

Lemma pointToSegmentDistance_le (px py x1 y1 x2 y2 : R) :
  pointToSegmentDistance px py x1 y1 x2 y2 <= sqrt (lengthSq (px - x1) (py - y1)) /\
  pointToSegmentDistance px py x1 y1 x2 y2 <= sqrt (lengthSq (px - x2) (py - y2)).
Proof.
  unfold pointToSegmentDistance.
  destruct (Req_EM_T (lengthSq (x2 - x1) (y2 - y1)) 0) as [H0|H0].
  - unfold lengthSq in *.
    assert (Hx : (x2 - x1) * (x2 - x1) = 0 /\ (y2 - y1) * (y2 - y1) = 0).
    { pose proof (Rle_0_sqr (x2 - x1)). pose proof (Rle_0_sqr (y2 - y1)).
      unfold Rsqr in *. lra. }
    destruct Hx as [Hx Hy]. apply Rmult_integral in Hx, Hy.
    assert (x2 = x1) as -> by (destruct Hx; lra).
    assert (y2 = y1) as -> by (destruct Hy; lra). split; lra.
  - set (L := lengthSq (x2 - x1) (y2 - y1)) in *.
    assert (HL : 0 < L).
    { pose proof (Rle_0_sqr (x2 - x1)). pose proof (Rle_0_sqr (y2 - y1)).
      unfold L, lengthSq, Rsqr in *. lra. }
    set (ts := dot (px - x1) (py - y1) (x2 - x1) (y2 - y1) / L).
    assert (Hdot : dot (px - x1) (py - y1) (x2 - x1) (y2 - y1) = ts * L)
      by (unfold ts; field; lra).
    assert (Hq : forall s, lengthSq (px - (x1 + s * (x2 - x1))) (py - (y1 + s * (y2 - y1))) =
              L * Rsqr (s - ts) + (lengthSq (px - x1) (py - y1) - L * ts * ts)).
    { intros s.
      transitivity (L * s * s - 2 * s * (ts * L) + lengthSq (px - x1) (py - y1)).
      - rewrite <- Hdot. unfold L, lengthSq, dot. ring.
      - unfold Rsqr. ring. }
    assert (Hq0 : lengthSq (px - x1) (py - y1) =
                  lengthSq (px - (x1 + 0 * (x2 - x1))) (py - (y1 + 0 * (y2 - y1))))
      by (unfold lengthSq; ring).
    assert (Hq1 : lengthSq (px - x2) (py - y2) =
                  lengthSq (px - (x1 + 1 * (x2 - x1))) (py - (y1 + 1 * (y2 - y1))))
      by (unfold lengthSq; ring).
    rewrite Hq0, Hq1, !Hq.
    pose proof (clamp_closer ts 0 ltac:(lra)). pose proof (clamp_closer ts 1 ltac:(lra)).
    split; apply sqrt_le_1_alt; nra.
Qed.

Lemma sqrt_lengthSq_nonneg (a b : R) : 0 <= sqrt (lengthSq a b).
Proof. apply sqrt_pos. Qed.

Lemma pointToSegmentDistance_nonneg (px py x1 y1 x2 y2 : R) :
  0 <= pointToSegmentDistance px py x1 y1 x2 y2.
Proof.
  unfold pointToSegmentDistance. destruct (Req_EM_T _ _); apply sqrt_pos.
Qed.

Lemma rmin4_le (a b c d : R) :
  Rmin (Rmin (Rmin a b) c) d <= a /\ Rmin (Rmin (Rmin a b) c) d <= b /\
  Rmin (Rmin (Rmin a b) c) d <= c /\ Rmin (Rmin (Rmin a b) c) d <= d.
Proof.
  pose proof (Rmin_l (Rmin (Rmin a b) c) d). pose proof (Rmin_r (Rmin (Rmin a b) c) d).
  pose proof (Rmin_l (Rmin a b) c). pose proof (Rmin_r (Rmin a b) c).
  pose proof (Rmin_l a b). pose proof (Rmin_r a b).
  repeat split; lra.
Qed.

Lemma rmin4_glb (a b c d z : R) :
  z <= a -> z <= b -> z <= c -> z <= d -> z <= Rmin (Rmin (Rmin a b) c) d.
Proof. intros. repeat apply Rmin_glb; assumption. Qed.

Lemma lengthSq_swap (a b c d : R) : lengthSq (a - b) (c - d) = lengthSq (b - a) (d - c).
Proof. unfold lengthSq. ring. Qed.

Lemma lengthSq_sym (a b : R) : lengthSq (- a) (- b) = lengthSq a b.
Proof. unfold lengthSq. ring. Qed.

Lemma segmentsIntersect_sym (x11 y11 x12 y12 x21 y21 x22 y22 : R) :
  segmentsIntersect x21 y21 x22 y22 x11 y11 x12 y12 =
  segmentsIntersect x11 y11 x12 y12 x21 y21 x22 y22.
Proof.
  unfold segmentsIntersect.
  set (dx1 := x12 - x11). set (dy1 := y12 - y11).
  set (dx2 := x22 - x21). set (dy2 := y22 - y21).
  replace (dx2 * dy1 - dy2 * dx1) with (- (dx1 * dy2 - dy1 * dx2)) by ring.
  set (det := dx1 * dy2 - dy1 * dx2).
  destruct (Req_EM_T (- det) 0), (Req_EM_T det 0); try reflexivity;
    try (exfalso; lra).
  replace (- - det) with det by ring.
  destruct (Rleb 0 ((dx2 * (y11 - y21) + dy2 * (x21 - x11)) / - det)),
    (Rleb ((dx2 * (y11 - y21) + dy2 * (x21 - x11)) / - det) 1),
    (Rleb 0 ((dx1 * (y21 - y11) + dy1 * (x11 - x21)) / det)),
    (Rleb ((dx1 * (y21 - y11) + dy1 * (x11 - x21)) / det) 1); reflexivity.
Qed.

(** *** Orientation *)

Lemma orientation_flip (p q r : pt) :
  orientation q p r =
  match orientation p q r with 0%nat => 0%nat | 1%nat => 2%nat | _ => 1%nat end.
Proof.
  unfold orientation.
  replace ((snd p - snd q) * (fst r - fst p) - (fst p - fst q) * (snd r - snd p))
    with (- ((snd q - snd p) * (fst r - fst q) - (fst q - fst p) * (snd r - snd q))) by ring.
  set (v := (snd q - snd p) * (fst r - fst q) - (fst q - fst p) * (snd r - snd q)).
  destruct (Req_EM_T v 0), (Req_EM_T (- v) 0); try (exfalso; lra); [reflexivity|].
  destruct (Rlt_dec 0 v), (Rlt_dec 0 (- v)); try (exfalso; lra); reflexivity.
Qed.

(** The value behind [orientation(p, q, r)], as a cross product, and the
    class [orientation] gives to it. *)
Definition cross (u v : pt) : R := fst u * snd v - snd u * fst v.

Definition oclass (c : R) : nat :=
  if Req_EM_T c 0 then 0%nat else if Rlt_dec c 0 then 1%nat else 2%nat.

Lemma orientation_cross (p q r : pt) :
  orientation p q r = oclass (cross (fst q - fst p, snd q - snd p) (fst r - fst p, snd r - snd p)).
Proof.
  unfold orientation, cross, oclass; simpl.
  replace ((snd q - snd p) * (fst r - fst q) - (fst q - fst p) * (snd r - snd q))
    with (- ((fst q - fst p) * (snd r - snd p) - (snd q - snd p) * (fst r - fst p))) by ring.
  set (c := (fst q - fst p) * (snd r - snd p) - (snd q - snd p) * (fst r - fst p)).
  destruct (Req_EM_T (- c) 0), (Req_EM_T c 0); try (exfalso; lra); [reflexivity|].
  destruct (Rlt_dec 0 (- c)), (Rlt_dec c 0); try (exfalso; lra); reflexivity.
Qed.

Lemma div_unit (n d : R) : 0 < d -> 0 <= n <= d -> 0 <= n / d <= 1.
Proof.
  intros Hd Hn. assert (Hi : 0 < / d) by (apply Rinv_0_lt_compat; exact Hd).
  split.
  - unfold Rdiv. apply Rmult_le_pos; lra.
  - replace 1 with (d / d) by (field; lra). unfold Rdiv.
    apply Rmult_le_compat_r; lra.
Qed.

(** Two values of different orientation classes differ, and the parameter
    [a / (a - b)] of the zero of the segment between them lies in [0, 1]. *)
Lemma oclass_differ (a b : R) :
  negb (Nat.eqb (oclass a) (oclass b)) = true -> a <> b /\ 0 <= a / (a - b) <= 1.
Proof.
  unfold oclass.
  destruct (Req_EM_T a 0) as [Ha|Ha], (Req_EM_T b 0) as [Hb|Hb];
    [simpl; discriminate| | |].
  - destruct (Rlt_dec b 0); intros _; subst a; split; try lra;
      unfold Rdiv; rewrite Rmult_0_l; lra.
  - destruct (Rlt_dec a 0); intros _; subst b; split; try lra;
      replace (a / (a - 0)) with 1 by (field; exact Ha); lra.
  - destruct (Rlt_dec a 0), (Rlt_dec b 0); simpl; try discriminate; intros _;
      (split; [lra|]).
    + replace (a / (a - b)) with ((- a) / (b - a)) by (field; lra).
      apply div_unit; lra.
    + apply div_unit; lra.
Qed.

Lemma orientation_cases (p q r : pt) :
  orientation p q r = 0%nat \/ orientation p q r = 1%nat \/ orientation p q r = 2%nat.
Proof.
  unfold orientation. destruct (Req_EM_T _ _); [left; reflexivity|].
  destruct (Rlt_dec _ _); [right; left|right; right]; reflexivity.
Qed.

(** *** Polygon sums *)

Definition rsum (h : nat -> R) (l : list nat) : R := fold_right (fun i s => h i + s) 0 l.

Lemma rsum_app (h : nat -> R) (l1 l2 : list nat) : rsum h (l1 ++ l2) = rsum h l1 + rsum h l2.
Proof. induction l1 as [|i l1 IH]; simpl; [ring|]. rewrite IH. ring. Qed.

Lemma rsum_ext (h g : nat -> R) (l : list nat) :
  (forall i, In i l -> h i = g i) -> rsum h l = rsum g l.
Proof.
  induction l as [|i l IH]; intros H; simpl; [reflexivity|].
  rewrite H by (left; reflexivity). rewrite IH by (intros j Hj; apply H; right; exact Hj).
  reflexivity.
Qed.

Lemma rsum_lin (h g : nat -> R) (c1 c2 : R) (l : list nat) :
  rsum (fun i => h i + c1 * g i + c2) l = rsum h l + c1 * rsum g l + c2 * INR (length l).
Proof.
  induction l as [|i l IH]; unfold rsum in *; cbn [fold_right length]; [simpl; ring|].
  rewrite IH, S_INR. ring.
Qed.

Lemma rsum_split3 (A B C : nat -> R) (c1 c2 : R) (l : list nat) :
  rsum (fun i => A i + c1 * B i + c2 * C i) l = rsum A l + c1 * rsum B l + c2 * rsum C l.
Proof. induction l as [|i l IH]; simpl; [ring|]. rewrite IH. ring. Qed.

Lemma rsum_sub (f g : nat -> R) (l : list nat) :
  rsum (fun i => f i - g i) l = rsum f l - rsum g l.
Proof. induction l as [|i l IH]; simpl; [ring|]. rewrite IH. ring. Qed.

Lemma fold_area (F G : nat -> R) (l : list nat) (a0 : R) :
  fold_left (fun area i => area + F i - G i) l a0 = a0 + rsum (fun i => F i - G i) l.
Proof.
  revert a0. induction l as [|i l IH]; intros a0; simpl; [ring|]. rewrite IH. ring.
Qed.

Lemma rsum_shift (h : nat -> R) (s m : nat) :
  rsum (fun i => h (S i)) (seq s m) = rsum h (seq (S s) m).
Proof.
  revert s. induction m as [|m IH]; intros s; simpl; [reflexivity|]. rewrite IH. reflexivity.
Qed.

(** The cyclic successor [(i + 1) % n] runs over the same indices. *)
Lemma rsum_cyclic (h : nat -> R) (n : nat) :
  (0 < n)%nat -> rsum (fun i => h ((i + 1) mod n)%nat) (seq 0 n) = rsum h (seq 0 n).
Proof.
  intros Hn. destruct n as [|m]; [lia|].
  transitivity (rsum (fun i => h ((i + 1) mod S m)%nat) (seq 0 m ++ [m])).
  { rewrite seq_S. reflexivity. }
  rewrite rsum_app.
  rewrite (rsum_ext _ (fun i => h (S i))).
  2: { intros i Hi. apply in_seq in Hi. rewrite Nat.mod_small by lia.
       rewrite Nat.add_1_r. reflexivity. }
  rewrite rsum_shift.
  assert (E1 : rsum (fun i => h ((i + 1) mod S m)%nat) [m] = h 0%nat).
  { unfold rsum; cbn [fold_right].
    rewrite Nat.add_1_r, Nat.Div0.mod_same. ring. }
  rewrite E1. change (seq 0 (S m)) with (0%nat :: seq 1 m).
  change (rsum h (0%nat :: seq 1 m)) with (h 0%nat + rsum h (seq 1 m)). ring.
Qed.

Lemma nth_map_lt {A B} (f : A -> B) (l : list A) (i : nat) (da : A) (db : B) :
  (i < length l)%nat -> nth i (map f l) db = f (nth i l da).
Proof.
  intros H. rewrite (nth_indep _ db (f da)) by (rewrite length_map; exact H).
  apply map_nth.
Qed.

Lemma centroid_fold_shift (vs : list pt) (a b c e : R) :
  fold_left (fun acc v => (fst acc + fst v, snd acc + snd v)) vs (a + c, b + e) =
  (fst (fold_left (fun acc v => (fst acc + fst v, snd acc + snd v)) vs (a, b)) + c,
   snd (fold_left (fun acc v => (fst acc + fst v, snd acc + snd v)) vs (a, b)) + e).
Proof.
  revert a b. induction vs as [|v vs IH]; intros a b; simpl; [reflexivity|].
  replace (a + c + fst v) with ((a + fst v) + c) by ring.
  replace (b + e + snd v) with ((b + snd v) + e) by ring.
  apply IH.
Qed.

Lemma centroid_fold_map (vs : list pt) (dx dy a b : R) :
  fold_left (fun acc v => (fst acc + fst v, snd acc + snd v))
    (map (fun p => (fst p + dx, snd p + dy)) vs) (a, b) =
  (fst (fold_left (fun acc v => (fst acc + fst v, snd acc + snd v)) vs (a, b))
     + INR (length vs) * dx,
   snd (fold_left (fun acc v => (fst acc + fst v, snd acc + snd v)) vs (a, b))
     + INR (length vs) * dy).
Proof.
  revert a b. induction vs as [|v vs IH]; intros a b; cbn [map fold_left length fst snd].
  - change (INR 0) with 0. f_equal; ring.
  - rewrite IH.
    replace (a + (fst v + dx)) with ((a + fst v) + dx) by ring.
    replace (b + (snd v + dy)) with ((b + snd v) + dy) by ring.
    rewrite centroid_fold_shift. cbn [fst snd]. rewrite S_INR. f_equal; ring.
Qed.

(** [isPointInPolygon] does not depend on the vertex the polygon list
    starts with. *)
Theorem isPointInPolygon_rotate (x y : R) (l1 l2 : list pt) :
  isPointInPolygon x y (l1 ++ l2) = isPointInPolygon x y (l2 ++ l1).
Proof.
  rewrite !isPointInPolygon_parity. apply parity_perm, cedges_rot.
Qed.

(** [isPointInPolygon] gives the same answer for the reversed vertex list
    (the other orientation of the polygon). *)
Theorem isPointInPolygon_rev (x y : R) (ps : list pt) :
  isPointInPolygon x y (rev ps) = isPointInPolygon x y ps.
Proof.
  rewrite !isPointInPolygon_parity.
  rewrite (parity_perm x y _ _ (cedges_rev ps)). apply parity_swap.
Qed.

(** Translating the point and the polygon together leaves the answer of
    [isPointInPolygon] unchanged. *)
Theorem isPointInPolygon_translate (x y dx dy : R) (ps : list pt) :
  isPointInPolygon (x + dx) (y + dy) (map (fun p => (fst p + dx, snd p + dy)) ps) =
  isPointInPolygon x y ps.
Proof.
  destruct ps as [|p0 ps]; [reflexivity|].
  set (g := fun p : pt => (fst p + dx, snd p + dy)).
  unfold isPointInPolygon.
  transitivity (pipLoop (x + dx) (y + dy) (last (map g (p0 :: ps)) (g p0)) (map g (p0 :: ps)) false);
    [reflexivity|].
  rewrite last_map_gen. unfold g. apply pipLoop_shift.
Qed.

(** The guard of the part 4 [isPointInPolygon] changes nothing: with fewer
    than three points the unguarded loop also answers [false]. *)
Theorem isPointInPolygonGuarded_same (x y : R) (ps : list pt) :
  isPointInPolygonGuarded x y ps = isPointInPolygon x y ps.
Proof.
  unfold isPointInPolygonGuarded.
  destruct (Nat.ltb_spec (length ps) 3) as [Hl|Hl]; [|reflexivity].
  destruct ps as [|p [|q [|r ps]]]; simpl in Hl; try lia; unfold isPointInPolygon; simpl.
  - reflexivity.
  - unfold crosses. rewrite xorb_nilpotent. reflexivity.
  - rewrite (crosses_sym x y q p).
    destruct (crosses x y p q); reflexivity.
Qed.

(** [normalizeAngle] lands in [[0, 2 PI)] and differs from its argument by a
    whole number of turns. *)
Theorem normalizeAngle_spec (a : R) :
  0 <= normalizeAngle a < 2 * PI /\ exists k : Z, normalizeAngle a = a + IZR k * (2 * PI).
Proof.
  unfold normalizeAngle, jsRem.
  assert (Hm : 0 < 2 * PI) by (pose proof PI_RGT_0; lra).
  set (m := 2 * PI) in *.
  set (q := a / m).
  assert (Ha : a = q * m) by (unfold q; field; lra).
  destruct (Rle_dec 0 q) as [Hq|Hq].
  - destruct (base_Int_part q) as [H1 H2]. set (t := Int_part q) in *.
    assert (Hn : a - m * IZR t = m * (q - IZR t)) by (rewrite Ha; ring).
    destruct (Rlt_dec (a - m * IZR t) 0) as [Hlt|Hge].
    + exfalso. rewrite Hn in Hlt. nra.
    + rewrite Hn. split; [split; nra|].
      exists (- t)%Z. rewrite opp_IZR. rewrite Ha. ring.
  - destruct (base_Int_part (- q)) as [H1 H2]. set (t := Int_part (- q)) in *.
    rewrite opp_IZR.
    assert (Hn : a - m * - IZR t = m * (q + IZR t)) by (rewrite Ha; ring).
    rewrite Hn.
    destruct (Rlt_dec (m * (q + IZR t)) 0) as [Hlt|Hge].
    + split; [split; nra|]. exists (t + 1)%Z. rewrite plus_IZR, Ha. ring.
    + split; [split; nra|]. exists t. rewrite Ha. ring.
Qed.

(** For a nonzero vector [v], [angleBetweenVectors] gives 0 between [v] and
    itself and [PI] between [v] and [-v]. *)
Theorem angleBetweenVectors_same_opposite (x y : R) :
  x <> 0 \/ y <> 0 ->
  angleBetweenVectors x y x y = 0 /\ angleBetweenVectors x y (- x) (- y) = PI.
Proof.
  intros Hxy.
  assert (Hpos : 0 < x * x + y * y) by (destruct Hxy as [H|H]; nra).
  assert (Hs : 0 < sqrt (x * x + y * y)) by (apply sqrt_lt_R0; exact Hpos).
  assert (Hss : sqrt (x * x + y * y) * sqrt (x * x + y * y) = x * x + y * y)
    by (apply sqrt_sqrt; lra).
  unfold angleBetweenVectors.
  replace (- x * - x + - y * - y) with (x * x + y * y) by ring.
  destruct (Req_EM_T (sqrt (x * x + y * y)) 0) as [E|_]; [lra|].
  split.
  - replace ((x * x + y * y) / (sqrt (x * x + y * y) * sqrt (x * x + y * y))) with 1
      by (rewrite Hss; field; lra).
    replace (Rmax (-1) (Rmin 1 1)) with 1
      by (unfold Rmax, Rmin; destruct (Rle_dec 1 1); destruct (Rle_dec (-1) 1); lra).
    apply acos_1.
  - replace ((x * - x + y * - y) / (sqrt (x * x + y * y) * sqrt (x * x + y * y))) with (-1)
      by (rewrite Hss; field; lra).
    replace (Rmax (-1) (Rmin 1 (-1))) with (-1)
      by (unfold Rmax, Rmin; destruct (Rle_dec 1 (-1)); destruct (Rle_dec (-1) (-1)); lra).
    unfold acos. destruct (Rle_dec (-1) (-1)); [reflexivity|lra].
Qed.

Lemma angleBetweenVectors_same_opposite_witness :
  (1 <> 0 \/ 0 <> 0) /\
  angleBetweenVectors 1 0 1 0 = 0 /\ angleBetweenVectors 1 0 (Ropp 1) (Ropp 0) = PI.
Proof.
  assert (H : 1 <> 0 \/ 0 <> 0) by (left; lra).
  split; [exact H|]. apply angleBetweenVectors_same_opposite. exact H.
Defined.

(** [angleBetweenVectors] is symmetric and does not change when either
    vector is scaled by a positive factor. *)
Theorem angleBetweenVectors_sym_scale (x1 y1 x2 y2 k1 k2 : R) :
  0 < k1 -> 0 < k2 ->
  angleBetweenVectors x2 y2 x1 y1 = angleBetweenVectors x1 y1 x2 y2 /\
  angleBetweenVectors (k1 * x1) (k1 * y1) (k2 * x2) (k2 * y2) = angleBetweenVectors x1 y1 x2 y2.
Proof.
  intros Hk1 Hk2.
  assert (Hm : forall k x y, 0 < k -> sqrt (k * x * (k * x) + k * y * (k * y)) =
                                   k * sqrt (x * x + y * y)).
  { intros k x y Hk.
    replace (k * x * (k * x) + k * y * (k * y)) with ((k * k) * (x * x + y * y)) by ring.
    rewrite sqrt_mult_alt by nra. rewrite sqrt_square by lra. reflexivity. }
  unfold angleBetweenVectors. split.
  - destruct (Req_EM_T (sqrt (x2 * x2 + y2 * y2)) 0), (Req_EM_T (sqrt (x1 * x1 + y1 * y1)) 0);
      try reflexivity.
    f_equal. f_equal. f_equal. field. split; assumption.
  - rewrite (Hm k1 x1 y1 Hk1), (Hm k2 x2 y2 Hk2).
    pose proof (sqrt_pos (x1 * x1 + y1 * y1)). pose proof (sqrt_pos (x2 * x2 + y2 * y2)).
    destruct (Req_EM_T (sqrt (x1 * x1 + y1 * y1)) 0) as [E1|E1].
    + destruct (Req_EM_T (k1 * sqrt (x1 * x1 + y1 * y1)) 0) as [_|F]; [reflexivity|].
      exfalso; apply F; rewrite E1; ring.
    + destruct (Req_EM_T (k1 * sqrt (x1 * x1 + y1 * y1)) 0) as [F|_].
      { exfalso. apply Rmult_integral in F. lra. }
      destruct (Req_EM_T (sqrt (x2 * x2 + y2 * y2)) 0) as [E2|E2].
      * destruct (Req_EM_T (k2 * sqrt (x2 * x2 + y2 * y2)) 0) as [_|F]; [reflexivity|].
        exfalso; apply F; rewrite E2; ring.
      * destruct (Req_EM_T (k2 * sqrt (x2 * x2 + y2 * y2)) 0) as [F|_].
        { exfalso. apply Rmult_integral in F. lra. }
        f_equal. f_equal. f_equal. field. lra.
Qed.

Lemma angleBetweenVectors_sym_scale_witness :
  0 < 2 /\ 0 < 3 /\
  angleBetweenVectors 0 1 1 0 = angleBetweenVectors 1 0 0 1 /\
  angleBetweenVectors (2 * 1) (2 * 0) (3 * 0) (3 * 1) = angleBetweenVectors 1 0 0 1.
Proof.
  split; [lra|]. split; [lra|]. apply angleBetweenVectors_sym_scale; lra.
Defined.

(** Translating every vertex of a nonempty polygon translates the result
    of [calculateCentroid] by the same vector. *)
Theorem calculateCentroid_translate (vs : list pt) (dx dy : R) :
  vs <> [] ->
  calculateCentroid (map (fun p => (fst p + dx, snd p + dy)) vs) =
  (fst (calculateCentroid vs) + dx, snd (calculateCentroid vs) + dy).
Proof.
  intros Hne. destruct vs as [|v vs']; [congruence|].
  set (g := fun p : pt => (fst p + dx, snd p + dy)).
  set (F := fun acc v : pt => (fst acc + fst v, snd acc + snd v)).
  transitivity (fst (fold_left F (map g (v :: vs')) (0, 0)) / INR (length (map g (v :: vs'))),
                snd (fold_left F (map g (v :: vs')) (0, 0)) / INR (length (map g (v :: vs'))));
    [reflexivity|].
  change (calculateCentroid (v :: vs')) with
    (fst (fold_left F (v :: vs') (0, 0)) / INR (length (v :: vs')),
     snd (fold_left F (v :: vs') (0, 0)) / INR (length (v :: vs'))).
  unfold g, F. rewrite centroid_fold_map, length_map. cbn [fst snd].
  assert (Hn : 0 < INR (length (v :: vs'))) by (apply lt_0_INR; simpl; lia).
  unfold pt. f_equal; field; apply Rgt_not_eq; exact Hn.
Qed.

Lemma calculateCentroid_translate_witness :
  [(0, 0); (2, 4); (4, -1)] <> [] /\
  calculateCentroid (map (fun p => (fst p + 3, snd p + 4)) [(0, 0); (2, 4); (4, -1)]) =
  (fst (calculateCentroid [(0, 0); (2, 4); (4, -1)]) + 3,
   snd (calculateCentroid [(0, 0); (2, 4); (4, -1)]) + 4).
Proof.
  assert (H : [(0, 0); (2, 4); (4, -1)] <> @nil pt) by discriminate.
  split; [exact H|]. apply calculateCentroid_translate. exact H.
Defined.

(** Translating every vertex leaves [calculatePolygonArea] unchanged. *)
Theorem calculatePolygonArea_translate (vs : list pt) (dx dy : R) :
  calculatePolygonArea (map (fun p : pt => (fst p + dx, snd p + dy)) vs) = calculatePolygonArea vs.
Proof.
  unfold calculatePolygonArea. rewrite length_map.
  destruct (Nat.ltb (length vs) 3) eqn:Hl; [reflexivity|].
  apply Nat.ltb_ge in Hl. set (n := length vs) in *.
  set (X := fun i => fst (nth i vs (0, 0))). set (Y := fun i => snd (nth i vs (0, 0))).
  rewrite !(fold_area
    (fun i => fst (nth i _ (0, 0)) * snd (nth ((i + 1) mod n) _ (0, 0)))
    (fun i => fst (nth ((i + 1) mod n) _ (0, 0)) * snd (nth i _ (0, 0)))).
  f_equal. f_equal.
  assert (Hnth : forall i, (i < n)%nat ->
            nth i (map (fun p : pt => (fst p + dx, snd p + dy)) vs) (0, 0) = (X i + dx, Y i + dy)).
  { intros i Hi. rewrite (nth_map_lt _ _ _ (0, 0)) by exact Hi. reflexivity. }
  rewrite (rsum_ext _ (fun i => (X i * Y ((i + 1) mod n)%nat - X ((i + 1) mod n)%nat * Y i)
                               + dx * (Y ((i + 1) mod n)%nat - Y i)
                               + dy * (X i - X ((i + 1) mod n)%nat))).
  2: { intros i Hi. apply in_seq in Hi.
       assert (Hj : ((i + 1) mod n < n)%nat) by (apply Nat.mod_upper_bound; lia).
       rewrite (Hnth i) by lia. rewrite (Hnth _ Hj). simpl. ring. }
  rewrite (rsum_split3 (fun i => X i * Y ((i + 1) mod n)%nat - X ((i + 1) mod n)%nat * Y i)
    (fun i => Y ((i + 1) mod n)%nat - Y i) (fun i => X i - X ((i + 1) mod n)%nat) dx dy).
  rewrite (rsum_sub (fun i => Y ((i + 1) mod n)%nat) Y), (rsum_sub X (fun i => X ((i + 1) mod n)%nat)).
  rewrite (rsum_cyclic Y n), (rsum_cyclic X n) by lia.
  transitivity (0 + rsum (fun i => X i * Y ((i + 1) mod n)%nat - X ((i + 1) mod n)%nat * Y i) (seq 0 n));
    [ring|reflexivity].
Qed.

(** When [doLinesIntersect] answers [true], the two segments share a
    point. *)
Theorem doLinesIntersect_sound (l1 l2 : lseg) :
  doLinesIntersect l1 l2 = true ->
  exists t s, 0 <= t <= 1 /\ 0 <= s <= 1 /\
    fst (start l1) + t * (fst (lend l1) - fst (start l1)) =
      fst (start l2) + s * (fst (lend l2) - fst (start l2)) /\
    snd (start l1) + t * (snd (lend l1) - snd (start l1)) =
      snd (start l2) + s * (snd (lend l2) - snd (start l2)).
Proof.
  destruct l1 as [[a1 b1] [c1 e1]], l2 as [[a2 b2] [c2 e2]].
  unfold doLinesIntersect. rewrite !orientation_cross. simpl. unfold cross; simpl.
  intros H. apply andb_true_iff in H as [H1 H2].
  apply oclass_differ in H1 as [N1 [S1 S2]]. apply oclass_differ in H2 as [N2 [T1 T2]].
  eexists; eexists. split; [split; [exact T1|exact T2]|].
  split; [split; [exact S1|exact S2]|].
  assert (D1 : (c1 - a1) * (b2 - b1) - (e1 - b1) * (a2 - a1) -
               ((c1 - a1) * (e2 - b1) - (e1 - b1) * (c2 - a1)) <> 0) by lra.
  assert (D2 : (c2 - a2) * (b1 - b2) - (e2 - b2) * (a1 - a2) -
               ((c2 - a2) * (e1 - b2) - (e2 - b2) * (c1 - a2)) <> 0) by lra.
  split; field; split; assumption.
Qed.

Lemma doLinesIntersect_sound_witness :
  doLinesIntersect (mkLSeg (0, 0) (2, 2)) (mkLSeg (0, 2) (2, 0)) = true /\
  exists t s, 0 <= t <= 1 /\ 0 <= s <= 1 /\
    fst (start (mkLSeg (0, 0) (2, 2))) +
      t * (fst (lend (mkLSeg (0, 0) (2, 2))) - fst (start (mkLSeg (0, 0) (2, 2)))) =
    fst (start (mkLSeg (0, 2) (2, 0))) +
      s * (fst (lend (mkLSeg (0, 2) (2, 0))) - fst (start (mkLSeg (0, 2) (2, 0)))) /\
    snd (start (mkLSeg (0, 0) (2, 2))) +
      t * (snd (lend (mkLSeg (0, 0) (2, 2))) - snd (start (mkLSeg (0, 0) (2, 2)))) =
    snd (start (mkLSeg (0, 2) (2, 0))) +
      s * (snd (lend (mkLSeg (0, 2) (2, 0))) - snd (start (mkLSeg (0, 2) (2, 0)))).
Proof.
  assert (H : doLinesIntersect (mkLSeg (0, 0) (2, 2)) (mkLSeg (0, 2) (2, 0)) = true).
  { unfold doLinesIntersect, orientation; simpl.
    repeat match goal with
    | |- context [Req_EM_T ?u 0] => destruct (Req_EM_T u 0); [exfalso; lra|]
    | |- context [Rlt_dec 0 ?u] => destruct (Rlt_dec 0 u); [|exfalso; lra]
    | |- context [Rlt_dec 0 ?u] => destruct (Rlt_dec 0 u); [exfalso; lra|]
    end; reflexivity. }
  split; [exact H|]. apply doLinesIntersect_sound. exact H.
Defined.

(** [doLinesIntersect] does not depend on the order of the two segments nor
    on the direction of either segment. *)
Theorem doLinesIntersect_sym (l1 l2 : lseg) :
  doLinesIntersect l2 l1 = doLinesIntersect l1 l2 /\
  doLinesIntersect (mkLSeg (lend l1) (start l1)) l2 = doLinesIntersect l1 l2 /\
  doLinesIntersect l1 (mkLSeg (lend l2) (start l2)) = doLinesIntersect l1 l2.
Proof.
  destruct l1 as [p1 q1], l2 as [p2 q2]. unfold doLinesIntersect; simpl.
  split; [apply andb_comm|]. split.
  - rewrite (orientation_flip p1 q1 p2), (orientation_flip p1 q1 q2).
    destruct (orientation_cases p1 q1 p2) as [-> | [-> | ->]];
    destruct (orientation_cases p1 q1 q2) as [-> | [-> | ->]]; simpl; try reflexivity;
    rewrite Nat.eqb_sym; reflexivity.
  - rewrite (orientation_flip p2 q2 p1), (orientation_flip p2 q2 q1).
    destruct (orientation_cases p2 q2 p1) as [-> | [-> | ->]];
    destruct (orientation_cases p2 q2 q1) as [-> | [-> | ->]]; simpl;
    rewrite ?andb_false_r, ?andb_true_r; try reflexivity;
    rewrite Nat.eqb_sym; reflexivity.
Qed.

(** [lineSegmentDistance] lies between 0 and the distance from any endpoint
    of the first segment to any endpoint of the second. *)
Theorem lineSegmentDistance_bounds (x11 y11 x12 y12 x21 y21 x22 y22 : R) :
  0 <= lineSegmentDistance x11 y11 x12 y12 x21 y21 x22 y22 /\
  lineSegmentDistance x11 y11 x12 y12 x21 y21 x22 y22 <= sqrt (lengthSq (x11 - x21) (y11 - y21)) /\
  lineSegmentDistance x11 y11 x12 y12 x21 y21 x22 y22 <= sqrt (lengthSq (x11 - x22) (y11 - y22)) /\
  lineSegmentDistance x11 y11 x12 y12 x21 y21 x22 y22 <= sqrt (lengthSq (x12 - x21) (y12 - y21)) /\
  lineSegmentDistance x11 y11 x12 y12 x21 y21 x22 y22 <= sqrt (lengthSq (x12 - x22) (y12 - y22)).
Proof.
  unfold lineSegmentDistance.
  pose proof (sqrt_pos (lengthSq (x11 - x21) (y11 - y21))).
  pose proof (sqrt_pos (lengthSq (x11 - x22) (y11 - y22))).
  pose proof (sqrt_pos (lengthSq (x12 - x21) (y12 - y21))).
  pose proof (sqrt_pos (lengthSq (x12 - x22) (y12 - y22))).
  destruct (segmentsIntersect _ _ _ _ _ _ _ _); [repeat split; lra|].
  destruct (pointToSegmentDistance_le x11 y11 x21 y21 x22 y22) as [A1 A2].
  destruct (pointToSegmentDistance_le x12 y12 x21 y21 x22 y22) as [B1 B2].
  destruct (pointToSegmentDistance_le x21 y21 x11 y11 x12 y12) as [C1 C2].
  destruct (pointToSegmentDistance_le x22 y22 x11 y11 x12 y12) as [D1 D2].
  rewrite lengthSq_swap in C1, C2, D1, D2.
  pose proof (pointToSegmentDistance_nonneg x11 y11 x21 y21 x22 y22).
  pose proof (pointToSegmentDistance_nonneg x12 y12 x21 y21 x22 y22).
  pose proof (pointToSegmentDistance_nonneg x21 y21 x11 y11 x12 y12).
  pose proof (pointToSegmentDistance_nonneg x22 y22 x11 y11 x12 y12).
  destruct (rmin4_le (pointToSegmentDistance x11 y11 x21 y21 x22 y22)
    (pointToSegmentDistance x12 y12 x21 y21 x22 y22)
    (pointToSegmentDistance x21 y21 x11 y11 x12 y12)
    (pointToSegmentDistance x22 y22 x11 y11 x12 y12)) as (M1 & M2 & M3 & M4).
  split; [apply rmin4_glb; assumption|].
  repeat split; lra.
Qed.

(** [lineSegmentDistance] is symmetric in its two segments. *)
Theorem lineSegmentDistance_sym (x11 y11 x12 y12 x21 y21 x22 y22 : R) :
  lineSegmentDistance x21 y21 x22 y22 x11 y11 x12 y12 =
  lineSegmentDistance x11 y11 x12 y12 x21 y21 x22 y22.
Proof.
  unfold lineSegmentDistance. rewrite segmentsIntersect_sym.
  destruct (segmentsIntersect _ _ _ _ _ _ _ _); [reflexivity|].
  set (a := pointToSegmentDistance x11 y11 x21 y21 x22 y22).
  set (b := pointToSegmentDistance x12 y12 x21 y21 x22 y22).
  set (c := pointToSegmentDistance x21 y21 x11 y11 x12 y12).
  set (d := pointToSegmentDistance x22 y22 x11 y11 x12 y12).
  destruct (rmin4_le a b c d) as (M1 & M2 & M3 & M4).
  destruct (rmin4_le c d a b) as (N1 & N2 & N3 & N4).
  apply Rle_antisym; apply rmin4_glb; assumption.
Qed.

(** Each line built by [findGridFamily] has both endpoints on the line
    [cos(angle) x + sin(angle) y = c]; its stored [(a, b)] is the direction
    of the segment, and [a x + b y] is [-GRID_SIZE] at the first endpoint
    and [GRID_SIZE] at the second. *)
Theorem findGridFamily_endpoints (k : Z) (l : Grid.gline) :
  In l (Grid.findGridFamily k) ->
  cos (Grid.angle l) * Grid.lx1 l + sin (Grid.angle l) * Grid.ly1 l = Grid.c l /\
  cos (Grid.angle l) * Grid.lx2 l + sin (Grid.angle l) * Grid.ly2 l = Grid.c l /\
  Grid.lx2 l - Grid.lx1 l = 2 * Grid.GRID_SIZE * Grid.a l /\
  Grid.ly2 l - Grid.ly1 l = 2 * Grid.GRID_SIZE * Grid.b l /\
  Grid.a l * Grid.lx1 l + Grid.b l * Grid.ly1 l = - Grid.GRID_SIZE /\
  Grid.a l * Grid.lx2 l + Grid.b l * Grid.ly2 l = Grid.GRID_SIZE.
Proof.
  unfold Grid.findGridFamily. intros H. apply in_map_iff in H as (i & <- & _).
  unfold Grid.gridLine. cbv zeta.
  set (ang := IZR k * Grid.TWO_PI / 5).
  pose proof (sin2_cos2 ang) as E. unfold Rsqr in E.
  set (d := IZR (Z.of_nat i - Grid.NUM_LINES) * Grid.SPACING +
            nth (Z.to_nat k) Grid.GAMMAS 0 * Grid.SPACING).
  cbn [Grid.a Grid.b Grid.c Grid.angle Grid.lx1 Grid.ly1 Grid.lx2 Grid.ly2].
  split; [transitivity (d * (sin ang * sin ang + cos ang * cos ang)); [ring|rewrite E; ring]|].
  split; [transitivity (d * (sin ang * sin ang + cos ang * cos ang)); [ring|rewrite E; ring]|].
  split; [ring|]. split; [ring|].
  split; [transitivity (- Grid.GRID_SIZE * (sin ang * sin ang + cos ang * cos ang));
          [ring|rewrite E; ring]|].
  transitivity (Grid.GRID_SIZE * (sin ang * sin ang + cos ang * cos ang)); [ring|rewrite E; ring].
Qed.

Lemma findGridFamily_endpoints_witness :
  In (Grid.gridLine 0 (-1)) (Grid.findGridFamily 0) /\
  cos (Grid.angle (Grid.gridLine 0 (-1))) * Grid.lx1 (Grid.gridLine 0 (-1)) +
    sin (Grid.angle (Grid.gridLine 0 (-1))) * Grid.ly1 (Grid.gridLine 0 (-1)) =
    Grid.c (Grid.gridLine 0 (-1)) /\
  cos (Grid.angle (Grid.gridLine 0 (-1))) * Grid.lx2 (Grid.gridLine 0 (-1)) +
    sin (Grid.angle (Grid.gridLine 0 (-1))) * Grid.ly2 (Grid.gridLine 0 (-1)) =
    Grid.c (Grid.gridLine 0 (-1)) /\
  Grid.lx2 (Grid.gridLine 0 (-1)) - Grid.lx1 (Grid.gridLine 0 (-1)) =
    2 * Grid.GRID_SIZE * Grid.a (Grid.gridLine 0 (-1)) /\
  Grid.ly2 (Grid.gridLine 0 (-1)) - Grid.ly1 (Grid.gridLine 0 (-1)) =
    2 * Grid.GRID_SIZE * Grid.b (Grid.gridLine 0 (-1)) /\
  Grid.a (Grid.gridLine 0 (-1)) * Grid.lx1 (Grid.gridLine 0 (-1)) +
    Grid.b (Grid.gridLine 0 (-1)) * Grid.ly1 (Grid.gridLine 0 (-1)) = - Grid.GRID_SIZE /\
  Grid.a (Grid.gridLine 0 (-1)) * Grid.lx2 (Grid.gridLine 0 (-1)) +
    Grid.b (Grid.gridLine 0 (-1)) * Grid.ly2 (Grid.gridLine 0 (-1)) = Grid.GRID_SIZE.
Proof.
  assert (H : In (Grid.gridLine 0 (-1)) (Grid.findGridFamily 0)) by (left; reflexivity).
  split; [exact H|]. apply (findGridFamily_endpoints 0). exact H.
Defined.

End GeoFacts.

(* ------------------------------------------------------------------ *)
(** ** The point returned by [intersect] *)

Module SegmentsPoint.
Import Segments.
Local Open Scope Q_scope.

(** The point [intersect] returns, computed from [ua] along the first
    segment, is also the point at parameter [ub] along the second one: it
    lies on both segments. *)
Theorem intersect_on_both (l1 l2 : segment) (x y : Q) :
  intersect l1 l2 = Some (x, y) ->
  x == x1 l1 + param_a l1 l2 * (x2 l1 - x1 l1) /\
  y == y1 l1 + param_a l1 l2 * (y2 l1 - y1 l1) /\
  x == x1 l2 + param_b l1 l2 * (x2 l2 - x1 l2) /\
  y == y1 l2 + param_b l1 l2 * (y2 l2 - y1 l2).
Proof.
  destruct l1 as [a1 b1 a2 b2], l2 as [c1 d1 c2 d2].
  unfold intersect. cbv zeta. cbn [Segments.x1 Segments.y1 Segments.x2 Segments.y2].
  intros H.
  match type of H with
  | context [if ?c then None else _] => destruct c; [discriminate H|]
  end.
  match type of H with
  | context [if Qeq_bool ?d 0 then None else _] =>
      destruct (Qeq_bool d 0) eqn:Ed; [discriminate H|]
  end.
  match type of H with
  | context [if ?c then None else _] => destruct c; [discriminate H|]
  end.
  injection H as <- <-. apply Qeq_bool_neq in Ed.
  unfold param_a, param_b, denom; cbn [Segments.x1 Segments.y1 Segments.x2 Segments.y2].
  repeat split; field; exact Ed.
Qed.

Lemma intersect_on_both_witness :
  intersect (mkSegment 0 0 2 2) (mkSegment 0 2 2 0) = Some (8 # 8, 8 # 8) /\
  8 # 8 == x1 (mkSegment 0 0 2 2) +
    param_a (mkSegment 0 0 2 2) (mkSegment 0 2 2 0) *
      (x2 (mkSegment 0 0 2 2) - x1 (mkSegment 0 0 2 2)) /\
  8 # 8 == y1 (mkSegment 0 0 2 2) +
    param_a (mkSegment 0 0 2 2) (mkSegment 0 2 2 0) *
      (y2 (mkSegment 0 0 2 2) - y1 (mkSegment 0 0 2 2)) /\
  8 # 8 == x1 (mkSegment 0 2 2 0) +
    param_b (mkSegment 0 0 2 2) (mkSegment 0 2 2 0) *
      (x2 (mkSegment 0 2 2 0) - x1 (mkSegment 0 2 2 0)) /\
  8 # 8 == y1 (mkSegment 0 2 2 0) +
    param_b (mkSegment 0 0 2 2) (mkSegment 0 2 2 0) *
      (y2 (mkSegment 0 2 2 0) - y1 (mkSegment 0 2 2 0)).
Proof.
  assert (H : intersect (mkSegment 0 0 2 2) (mkSegment 0 2 2 0) = Some (8 # 8, 8 # 8))
    by (vm_compute; reflexivity).
  split; [exact H|]. apply intersect_on_both. exact H.
Defined.

End SegmentsPoint.

(* ------------------------------------------------------------------ *)
(** ** Tiles move only rigidly in the single-step and batch alignment
    sketch *)

Module AlignRigid.
Import Grid Graph Align.
Local Open Scope R_scope.

(** Every tile's points are a translate of its [originalPoints]. *)
Definition rigid (ts : list tile) : Prop := forall t, In t ts -> TraceFacts.tile_ok t.

(** What no alignment step may change: the snapshot and the crossing of
    each tile, in order. *)
Definition frame (ts : list tile) : list (list pt * inter) :=
  map (fun t => (originalPoints t, intersection t)) ts.

Lemma frame_upd (ts : list tile) k x :
  (forall t, nth_error ts k = Some t ->
     originalPoints x = originalPoints t /\ intersection x = intersection t) ->
  frame (upd ts k x) = frame ts.
Proof.
  unfold frame. revert k; induction ts as [|y ts IH]; intros [|k] H; simpl; auto.
  - destruct (H y eq_refl) as [E1 E2]. rewrite E1, E2. reflexivity.
  - f_equal. apply IH. exact H.
Qed.

Lemma rigid_nth (ts : list tile) k t : rigid ts -> nth_error ts k = Some t -> TraceFacts.tile_ok t.
Proof. intros HR Hk. apply HR. eapply nth_error_In. exact Hk. Qed.

Lemma stepAlignment_rigid (st st' : state) :
  rigid (rhombPoints st) -> stepAlignment st = Some st' ->
  rigid (rhombPoints st') /\ frame (rhombPoints st') = frame (rhombPoints st) /\
  rhombGraph st' = rhombGraph st.
Proof.
  intros HR Hs. unfold stepAlignment in Hs. cbv zeta in Hs.
  destruct (alignmentQueue st) as [|s rest].
  { injection Hs as <-. split; [exact HR|split; reflexivity]. }
  destruct (getUnalignedAdjacentTiles (rhombPoints st) (rhombGraph st) s) as [[|data more]|];
    try discriminate.
  { injection Hs as <-. split; [exact HR|split; reflexivity]. }
  destruct (nth_error (rhombPoints st) (neighborIndex data)) as [at0|] eqn:Hat; [|discriminate].
  assert (Hok : TraceFacts.tile_ok at0) by exact (rigid_nth _ _ _ HR Hat).
  assert (Hfr : forall x, originalPoints x = originalPoints at0 ->
                  intersection x = intersection at0 ->
                  frame (upd (rhombPoints st) (neighborIndex data) x) = frame (rhombPoints st)).
  { intros x E1 E2. apply frame_upd. intros t Ht. rewrite Hat in Ht.
    injection Ht as <-. split; assumption. }
  destruct (locked at0).
  - cbv beta iota in Hs. injection Hs as <-. cbn [rhombPoints rhombGraph with_queue with_tiles].
    split; [|split; [apply Hfr; reflexivity|reflexivity]].
    unfold rigid; apply TraceFacts.upd_tiles_ok; [exact HR|]. apply TraceFacts.tile_ok_set_aligned. exact Hok.
  - destruct (nth_error (rhombPoints st) s) as [st0|]; [|discriminate].
    cbv beta iota in Hs. injection Hs as <-. cbn [rhombPoints rhombGraph with_queue with_tiles].
    split; [|split; [apply Hfr; reflexivity|reflexivity]].
    unfold rigid; apply TraceFacts.upd_tiles_ok; [exact HR|]. apply TraceFacts.tile_ok_set_aligned.
    apply TraceFacts.tile_ok_shift. exact Hok.
Qed.

Lemma resetRhombuses_rigid (ts ts' : list tile) :
  rigid ts -> resetRhombuses ts = Some ts' -> rigid ts' /\ frame ts' = frame ts.
Proof.
  intros HR H. apply AlignFacts.resetRhombuses_spec in H. revert HR.
  induction H as [|t t' l l' [Hp [_ [_ [Ho Hi]]]] HF IH]; intros HR.
  - split; [intros u []|reflexivity].
  - assert (HR' : rigid l) by (intros u Hu; apply HR; right; exact Hu).
    destruct (IH HR') as [IH1 IH2]. split.
    + intros u [<-|Hu]; [|apply IH1; exact Hu].
      destruct (HR t (or_introl eq_refl)) as [c Hc]. exists (0, 0).
      rewrite Hp, Ho, Hc, length_map, firstn_all. apply TraceFacts.map_shift_0.
    + unfold frame in *. simpl. rewrite Ho, Hi, IH2. reflexivity.
Qed.

Lemma startProgressiveAlignment_rigid (st st' : state) :
  rigid (rhombPoints st) -> startProgressiveAlignment st = Some st' ->
  rigid (rhombPoints st') /\ frame (rhombPoints st') = frame (rhombPoints st) /\
  rhombGraph st' = rhombGraph st.
Proof.
  intros HR Hs. unfold startProgressiveAlignment in Hs.
  destruct (lockedIndices (rhombPoints st)) as [|i l].
  - destruct (rhombPoints st) as [|t0 rest] eqn:E; [discriminate|].
    injection Hs as <-. cbn [rhombPoints rhombGraph with_queue with_tiles with_flags].
    try rewrite E. split; [|split; reflexivity].
    intros u [<-|Hu].
    + apply TraceFacts.tile_ok_set_aligned. apply HR. left; reflexivity.
    + apply HR. right; exact Hu.
  - injection Hs as <-. split; [exact HR|split; reflexivity].
Qed.

Lemma mouseDragged_rigid (st st' : state) dx dy :
  rigid (rhombPoints st) -> mouseDragged st dx dy = Some st' ->
  rigid (rhombPoints st') /\ frame (rhombPoints st') = frame (rhombPoints st) /\
  rhombGraph st' = rhombGraph st.
Proof.
  intros HR Hs. unfold mouseDragged in Hs.
  destruct (selectedRhomb st) as [i|].
  2: { injection Hs as <-. split; [exact HR|split; reflexivity]. }
  destruct (nth_error (rhombPoints st) i) as [t|] eqn:Ht; [|discriminate].
  injection Hs as <-. cbn [rhombPoints rhombGraph with_tiles].
  split; [|split; [|reflexivity]].
  - unfold rigid; apply TraceFacts.upd_tiles_ok; [exact HR|].
    apply TraceFacts.tile_ok_set_aligned, TraceFacts.tile_ok_set_locked,
      TraceFacts.tile_ok_translate.
    exact (rigid_nth _ _ _ HR Ht).
  - apply frame_upd. intros u Hu. rewrite Ht in Hu. injection Hu as <-. split; reflexivity.
Qed.

Lemma toggleAlignment_rigid (st st' : state) :
  rigid (rhombPoints st) -> toggleAlignment st = Some st' ->
  rigid (rhombPoints st') /\ frame (rhombPoints st') = frame (rhombPoints st) /\
  rhombGraph st' = rhombGraph st.
Proof.
  intros HR Hs. unfold toggleAlignment in Hs.
  destruct (negb (isAligned st) && negb (isAligning st)).
  - exact (startProgressiveAlignment_rigid st st' HR Hs).
  - destruct (isAligned st).
    + destruct (resetRhombuses (rhombPoints st)) as [ts|] eqn:E; [|discriminate].
      injection Hs as <-. cbn [rhombPoints rhombGraph with_queue with_tiles with_flags].
      destruct (resetRhombuses_rigid _ _ HR E) as [H1 H2].
      split; [exact H1|split; [exact H2|reflexivity]].
    + injection Hs as <-. split; [exact HR|split; reflexivity].
Qed.

Lemma handle_rigid (st st' : state) (e : event) :
  rigid (rhombPoints st) -> handle st e = Some st' ->
  rigid (rhombPoints st') /\ frame (rhombPoints st') = frame (rhombPoints st) /\
  rhombGraph st' = rhombGraph st.
Proof.
  intros HR Hs. destruct e as [hit|dx dy| | |]; simpl in Hs.
  - injection Hs as <-. split; [exact HR|split; reflexivity].
  - exact (mouseDragged_rigid st st' dx dy HR Hs).
  - injection Hs as <-. split; [exact HR|split; reflexivity].
  - exact (toggleAlignment_rigid st st' HR Hs).
  - destruct (isAligning st).
    + exact (stepAlignment_rigid st st' HR Hs).
    + injection Hs as <-. split; [exact HR|split; reflexivity].
Qed.

Lemma alignEach_rigid (ts ts' : list tile) s adjs q q' :
  rigid ts -> alignEach ts s adjs q = Some (ts', q') -> rigid ts' /\ frame ts' = frame ts.
Proof.
  revert ts q. induction adjs as [|data rest IH]; intros ts q HR H; simpl in H.
  - injection H as <- _. split; [exact HR|reflexivity].
  - destruct (nth_error ts s) as [st0|]; [|discriminate].
    destruct (nth_error ts (neighborIndex data)) as [at0|] eqn:Hat; [|discriminate].
    apply IH in H.
    + destruct H as [H1 H2]. split; [exact H1|]. rewrite H2. apply frame_upd.
      intros t Ht. rewrite Hat in Ht. injection Ht as <-. split; reflexivity.
    + unfold rigid; apply TraceFacts.upd_tiles_ok; [exact HR|]. apply TraceFacts.tile_ok_set_aligned.
      apply TraceFacts.tile_ok_shift. exact (rigid_nth _ _ _ HR Hat).
Qed.

Lemma bfs_rigid (fuel : nat) (ts ts' : list tile) g q :
  rigid ts -> bfs fuel ts g q = Some ts' -> rigid ts' /\ frame ts' = frame ts.
Proof.
  revert ts q. induction fuel as [|f IH]; intros ts q HR H; simpl in H; [discriminate|].
  destruct q as [|s rest].
  - injection H as <-. split; [exact HR|reflexivity].
  - destruct (getUnalignedAdjacentTiles ts g s) as [adjs|]; [|discriminate].
    destruct (alignEach ts s adjs rest) as [[ts1 q1]|] eqn:E; [|discriminate].
    destruct (alignEach_rigid _ _ _ _ _ _ HR E) as [H1 H2].
    destruct (IH ts1 q1 H1 H) as [H3 H4]. split; [exact H3|]. rewrite H4. exact H2.
Qed.

(** The single-step sketch of unnamed part 0 only ever moves tiles
    rigidly.  Start from tiles that are translates of their
    [originalPoints] snapshots. After any sequence of user events that
    raises no error, every tile is still such a translate. The snapshots,
    the crossings, the number of tiles and the adjacency graph are
    unchanged. *)
Theorem session_rigid (st st' : state) (es : list event) :
  rigid (rhombPoints st) -> session st es = Some st' ->
  rigid (rhombPoints st') /\ frame (rhombPoints st') = frame (rhombPoints st) /\
  rhombGraph st' = rhombGraph st.
Proof.
  revert st. induction es as [|e es IH]; intros st HR Hs; simpl in Hs.
  - injection Hs as <-. split; [exact HR|split; reflexivity].
  - destruct (handle st e) as [st1|] eqn:E; [|discriminate].
    destruct (handle_rigid st st1 e HR E) as [H1 [H2 H3]].
    destruct (IH st1 H1 Hs) as [H4 [H5 H6]].
    split; [exact H4|split; [rewrite H5; exact H2|rewrite H6; exact H3]].
Qed.

Lemma session_rigid_witness :
  exists st',
    rigid (rhombPoints AlignSamples.loneState) /\
    session AlignSamples.loneState AlignSamples.dragAlignReset = Some st' /\
    (rigid (rhombPoints st') /\
     frame (rhombPoints st') = frame (rhombPoints AlignSamples.loneState) /\
     rhombGraph st' = rhombGraph AlignSamples.loneState).
Proof.
  assert (HR : rigid (rhombPoints AlignSamples.loneState)).
  { intros t [<-|[]]. exists (0, 0). apply TraceFacts.map_shift_0. }
  eexists. split; [exact HR|]. split; [reflexivity|].
  apply (session_rigid AlignSamples.loneState _ AlignSamples.dragAlignReset HR).
  reflexivity.
Defined.

(** Batch [alignRhombuses] also moves tiles only rigidly: started on tiles
    that are translates of their snapshots, a run that ends without error
    leaves every tile such a translate, with the snapshots, crossings and
    the number of tiles unchanged. *)
Theorem alignRhombuses_rigid (fuel : nat) (ts ts' : list tile) (g : list (list adj)) :
  rigid ts -> alignRhombuses fuel ts g = Some ts' -> rigid ts' /\ frame ts' = frame ts.
Proof.
  intros HR H. unfold alignRhombuses in H.
  destruct ts as [|t0 rest].
  - injection H as <-. split; [exact HR|reflexivity].
  - assert (HR0 : rigid (set_aligned t0 true :: rest)).
    { intros u [<-|Hu].
      - apply TraceFacts.tile_ok_set_aligned. apply HR. left; reflexivity.
      - apply HR. right; exact Hu. }
    destruct (bfs_rigid _ _ _ _ _ HR0 H) as [H1 H2]. split; [exact H1|]. rewrite H2.
    reflexivity.
Qed.

Lemma alignRhombuses_rigid_witness :
  exists ts',
    rigid [AlignSamples.squareT; AlignSamples.tileAt 5 GraphSample.Lc] /\
    alignRhombuses 3 [AlignSamples.squareT; AlignSamples.tileAt 5 GraphSample.Lc]
      AlignSamples.pairGraph = Some ts' /\
    map points ts' <> map points [AlignSamples.squareT; AlignSamples.tileAt 5 GraphSample.Lc] /\
    (rigid ts' /\
     frame ts' = frame [AlignSamples.squareT; AlignSamples.tileAt 5 GraphSample.Lc]).
Proof.
  assert (HR : rigid [AlignSamples.squareT; AlignSamples.tileAt 5 GraphSample.Lc]).
  { intros t [<-|[<-|[]]]; exists (0, 0); apply TraceFacts.map_shift_0. }
  eexists. split; [exact HR|]. split; [apply LockFacts.batch_pair_run|].
  split; [simpl; intros H; injection H; intros; lra|].
  apply (alignRhombuses_rigid 3 _ _ AlignSamples.pairGraph HR).
  apply LockFacts.batch_pair_run.
Defined.

End AlignRigid.
